(** * cardputer-voice: the streaming protocol engine

    A shallow embedding of the browser side of cardputer-voice:

    - [Serial]: app.js, Web Serial flavour (findEOF, receiveLoop, sendText,
      the worker.onmessage handler, handleDisconnect);
    - [WebUSB]: app.js, WebUSB flavour (isEOF, receiveLoop, sendText, the
      worker.onmessage handler, handleDisconnect);
    - [WorkerNaive], [WorkerPeak]: the two flavours of worker.js
      (int16 PCM to float32 conversion in [transcribe]).

    Bytes and samples are integers ([Z]); a JavaScript string is the list of
    its UTF-16 code units; a JavaScript number is a rational, an infinity or
    NaN, with the rounding of IEEE 754 arithmetic as a parameter ([Number]).

    The event loop is modelled by a step function on an explicit state:
    every awaited result (a chunk read from the port, a message of the
    worker, a disconnect notification) is one event, and the code that runs
    when it resolves is one step.  The state records the messages posted to
    the worker and the write calls made on the transport, in order.  DOM
    effects (setStatus, appendTranscript, console) are outside the model.

    [Serial] and [WebUSB] describe the page while the port or the device
    stays set and each write has settled before the next 'transcript'
    message arrives; [SerialPage] and [WebUSBPage] add what happens around a
    disconnect (a read or transfer still in flight) and around a pending
    write (the lock of the writer), and agree with [Serial] and [WebUSB]
    where those apply ([serial_page_simulates], [webusb_page_simulates]). *)

From Stdlib Require Import List ZArith QArith Qabs Bool Lia Lqa.
From Stdlib Require String.
Import String.StringSyntax.
Delimit Scope string_scope with string.
Import ListNotations.
Open Scope Z_scope.

(** ** Platform primitives used by the application code *)
Module JS.

(** A JavaScript string: its UTF-16 code units. *)
Definition jsstring := list Z.

(** Storing a number into an [Int16Array] keeps its low 16 bits, read as a
    two's complement value. *)
Definition to_int16 (x : Z) : Z := (x + 32768) mod 65536 - 32768.

(** ECMAScript WhiteSpace and LineTerminator code units, the characters
    [String.prototype.trim] strips. *)
Definition isWhiteSpace (c : Z) : bool :=
  (9 <=? c) && (c <=? 13)
  || (c =? 0x20) || (c =? 0xA0) || (c =? 0x1680)
  || (0x2000 <=? c) && (c <=? 0x200A)
  || (c =? 0x2028) || (c =? 0x2029) || (c =? 0x202F)
  || (c =? 0x205F) || (c =? 0x3000) || (c =? 0xFEFF).

Fixpoint trimStart (s : jsstring) : jsstring :=
  match s with
  | c :: rest => if isWhiteSpace c then trimStart rest else s
  | [] => []
  end.

Definition trimEnd (s : jsstring) : jsstring := rev (trimStart (rev s)).

Definition trim (s : jsstring) : jsstring := trimEnd (trimStart s).

(** Truthiness of a string value: the empty string is falsy. *)
Definition truthy (s : jsstring) : bool :=
  match s with [] => false | _ :: _ => true end.

(** UTF-8 bytes of one Unicode scalar value. *)
Definition utf8_of_scalar (c : Z) : list Z :=
  if c <? 0x80 then [c]
  else if c <? 0x800 then
    [Z.lor 0xC0 (Z.shiftr c 6); Z.lor 0x80 (Z.land c 0x3F)]
  else if c <? 0x10000 then
    [Z.lor 0xE0 (Z.shiftr c 12);
     Z.lor 0x80 (Z.land (Z.shiftr c 6) 0x3F);
     Z.lor 0x80 (Z.land c 0x3F)]
  else
    [Z.lor 0xF0 (Z.shiftr c 18);
     Z.lor 0x80 (Z.land (Z.shiftr c 12) 0x3F);
     Z.lor 0x80 (Z.land (Z.shiftr c 6) 0x3F);
     Z.lor 0x80 (Z.land c 0x3F)].

Definition isHighSurrogate (u : Z) : bool := (0xD800 <=? u) && (u <=? 0xDBFF).
Definition isLowSurrogate (u : Z) : bool := (0xDC00 <=? u) && (u <=? 0xDFFF).

(** Code units to scalar values: a surrogate pair is one scalar value, a
    lone surrogate becomes U+FFFD. *)
Fixpoint scalars (s : jsstring) : list Z :=
  match s with
  | [] => []
  | u :: rest =>
      if isHighSurrogate u then
        match rest with
        | l :: rest' =>
            if isLowSurrogate l
            then (0x10000 + Z.shiftl (u - 0xD800) 10 + (l - 0xDC00)) :: scalars rest'
            else 0xFFFD :: scalars rest
        | [] => [0xFFFD]
        end
      else if isLowSurrogate u then 0xFFFD :: scalars rest
      else u :: scalars rest
  end.

(** [new TextEncoder().encode(s)]. *)
Definition TextEncoder_encode (s : jsstring) : list Z :=
  flat_map utf8_of_scalar (scalars s).

(** [new Int16Array(buffer)] over a byte buffer: pairs of bytes in the
    byte order of the host, little-endian on the machines Chrome and Edge
    run on; a buffer of odd length raises RangeError ([None]). *)
Definition Int16Array_of_buffer (data : list Z) : option (list Z) :=
  if Nat.even (length data) then
    Some (map (fun i => to_int16 (nth (2 * i) data 0 + 256 * nth (2 * i + 1) data 0))
              (seq 0 (length data / 2)))
  else None.

End JS.

(** ** app.js, Web Serial flavour *)
Module Serial.
Import JS.

Definition SAMPLE_RATE : Z := 16000.
Definition EOF_MARKER : list Z := [0xFF; 0xFE; 0xFD; 0xFC].

(** [bytes[i] === v]; an index past the end reads [undefined], which equals
    no number. *)
Definition byte_is (bytes : list Z) (i : nat) (v : Z) : bool :=
  match nth_error bytes i with
  | Some b => b =? v
  | None => false
  end.

Definition sentinel_at (bytes : list Z) (i : nat) : bool :=
  byte_is bytes i 0xFF && byte_is bytes (i + 1) 0xFE &&
  byte_is bytes (i + 2) 0xFD && byte_is bytes (i + 3) 0xFC.

(** The body of the [for] loop of findEOF, [n] iterations from index [i]. *)
Fixpoint findEOF_loop (n i : nat) (bytes : list Z) : Z :=
  match n with
  | O => -1
  | S n' =>
      if sentinel_at bytes i then Z.of_nat i
      else findEOF_loop n' (S i) bytes
  end.

(** [for (let i = 0; i <= bytes.length - 4; i++)]: the body runs for
    i = 0 .. length-4, that is length-3 times, and not at all when the
    length is below 4 (the subtraction on [nat] stops at 0). *)
Definition findEOF (bytes : list Z) : Z :=
  findEOF_loop (length bytes - 3) 0 bytes.

(** The inner [while (true)] loop of receiveLoop over the chunks the reader
    yields: empty chunks are skipped, every other chunk is appended to
    [audioBytes] and the whole buffer is scanned again.  The result is
    [eofIdx] of the iteration that left the loop, -1 when the chunks ran
    out first. *)
Fixpoint read_until_EOF (audioBytes : list Z) (chunks : list (list Z)) : Z :=
  match chunks with
  | [] => -1
  | value :: rest =>
      match value with
      | [] => read_until_EOF audioBytes rest
      | _ :: _ =>
          let audioBytes := audioBytes ++ value in
          let eofIdx := findEOF audioBytes in
          if eofIdx =? -1 then read_until_EOF audioBytes rest else eofIdx
      end
  end.

(** Byte array (little-endian int16) to Int16Array. *)
Definition to_Int16Array (audioBytes : list Z) : list Z :=
  let samples := (length audioBytes / 2)%nat in
  map (fun i => to_int16 (Z.lor (nth (i * 2) audioBytes 0)
                                (Z.shiftl (nth (i * 2 + 1) audioBytes 0) 8)))
      (seq 0 samples).

Record Port := { readable : bool; writable : bool }.

Record State := mkState {
  port : option Port;              (* null, or the open port *)
  modelReady : bool;
  audioBytes : list Z;             (* of the running iteration of receiveLoop *)
  recordingStarted : bool;
  posted : list (list Z);          (* audioData of every 'transcribe' message posted *)
  written : list (list Z)          (* argument of every writer.write call *)
}.

Inductive Event :=
| Read (value : list Z)            (* reader.read() gives { value, done: false } *)
| ReadDone                         (* reader.read() gives { done: true } *)
| ReadError                        (* reader.read() rejects, the port still set *)
| WorkerReady                      (* worker message { type: 'ready' } *)
| WorkerProgress                   (* worker message { type: 'progress', ... } *)
| WorkerTranscript (text : jsstring)
| WorkerError                      (* worker message { type: 'error', ... } *)
| Disconnect.                      (* 'disconnect' of this port, or disconnect() *)

(** The start of an iteration of the outer loop of receiveLoop. *)
Definition next_iteration (st : State) : State :=
  mkState (port st) (modelReady st) [] false (posted st) (written st).

Definition set_audioBytes (st : State) (b : list Z) (started : bool) : State :=
  mkState (port st) (modelReady st) b started (posted st) (written st).

Definition postMessage (st : State) (audioData : list Z) : State :=
  mkState (port st) (modelReady st) (audioBytes st) (recordingStarted st)
          (posted st ++ [audioData]) (written st).

(** receiveLoop after the inner loop is left. *)
Definition after_recording (st : State) : State :=
  if (length (audioBytes st) <? 512)%nat then next_iteration st
  else if negb (modelReady st) then next_iteration st
  else next_iteration (postMessage st (to_Int16Array (audioBytes st))).

(** One turn of the inner loop of receiveLoop, for the value reader.read()
    resolved to. *)
Definition receiveLoop_read (st : State) (value : list Z) : State :=
  match value with
  | [] => st
  | _ :: _ =>
      let bytes := audioBytes st ++ value in
      let eofIdx := findEOF bytes in
      if eofIdx =? -1 then set_audioBytes st bytes true
      else after_recording
             (set_audioBytes st (firstn (Z.to_nat eofIdx) bytes) true)
  end.

(** sendText on a stream that no earlier call has locked (the lock is in
    [SerialPage.sendText]). *)
Definition sendText (st : State) (text : jsstring) : State :=
  match port st with
  | Some p =>
      if writable p then
        mkState (port st) (modelReady st) (audioBytes st) (recordingStarted st)
                (posted st) (written st ++ [TextEncoder_encode (text ++ [0])])
      else st
  | None => st
  end.

(** worker.onmessage, case 'ready'. *)
Definition onmessage_ready (st : State) : State :=
  mkState (port st) true (audioBytes st) (recordingStarted st)
          (posted st) (written st).

(** worker.onmessage, case 'transcript'. *)
Definition onmessage_transcript (st : State) (text : jsstring) : State :=
  if truthy text && truthy (trim text)
  then sendText st (trim text ++ [0x20])
  else sendText st [].

Definition handleDisconnect (st : State) : State :=
  mkState None (modelReady st) (audioBytes st) (recordingStarted st)
          (posted st) (written st).

(** The test at the head of receiveLoop ([while (port && port.readable)]). *)
Definition reading (st : State) : bool :=
  match port st with Some p => readable p | None => false end.

(** One event of the page whose port stays set and whose earlier writes
    have settled.  What a read does that resolves after handleDisconnect,
    and what sendText does while a write is pending, is in
    [SerialPage.step]. *)
Definition step (st : State) (ev : Event) : State :=
  match ev with
  | Read value => if reading st then receiveLoop_read st value else st
  | ReadDone | ReadError => if reading st then after_recording st else st
  | WorkerReady => onmessage_ready st
  | WorkerTranscript text => onmessage_transcript st text
  | WorkerProgress | WorkerError => st
  | Disconnect => handleDisconnect st
  end.

Definition run (st : State) (evs : list Event) : State := fold_left step evs st.

(** A connected session at the top of receiveLoop. *)
Definition connected (ready : bool) : State :=
  mkState (Some {| readable := true; writable := true |}) ready [] false [] [].

End Serial.

(** ** app.js, WebUSB flavour *)
Module WebUSB.
Import JS.

Definition CHUNK_SIZE : Z := 512.
Definition SAMPLE_RATE : Z := 16000.

(** [dataView.getUint8(i) === v] on a view of the transfer's bytes. *)
Definition getUint8_is (dataView : list Z) (i : nat) (v : Z) : bool :=
  match nth_error dataView i with
  | Some b => b =? v
  | None => false
  end.

Definition isEOF (dataView : list Z) : bool :=
  if (length dataView <? 4)%nat then false
  else getUint8_is dataView 0 0xFF && getUint8_is dataView 1 0xFE &&
       getUint8_is dataView 2 0xFD && getUint8_is dataView 3 0xFC.

(** Where receiveLoop is suspended: on the transferIn that waits for the
    first chunk, or on a transferIn of the drain loop. *)
Inductive Phase := Waiting | Draining.

Record State := mkState {
  device : bool;                   (* device (and epIn, epOut) set *)
  modelReady : bool;
  recording : bool;
  phase : Phase;
  audioChunks : list (list Z);     (* Int16Array chunks of the running iteration *)
  posted : list (list Z);          (* audioData of every 'transcribe' message posted *)
  written : list (list Z)          (* data of every transferOut call *)
}.

Inductive Event :=
| TransferIn (data : option (list Z))  (* the transfer's bytes; None: no result.data *)
| TransferError                        (* transferIn rejects, the device still set *)
| WorkerReady
| WorkerProgress
| WorkerTranscript (text : jsstring)
| WorkerError
| Disconnect.

(** [continue]: the next iteration of the outer loop, up to its first
    transferIn. *)
Definition next_iteration (st : State) : State :=
  mkState (device st) (modelReady st) false Waiting [] (posted st) (written st).

Definition postMessage (st : State) (audioData : list Z) : State :=
  mkState (device st) (modelReady st) (recording st) (phase st) (audioChunks st)
          (posted st ++ [audioData]) (written st).

(** receiveLoop after the drain loop is left. *)
Definition after_drain (st : State) : State :=
  match audioChunks st with
  | [] => next_iteration st
  | _ :: _ =>
      let combined := concat (audioChunks st) in
      if negb (modelReady st) then next_iteration st
      else next_iteration (postMessage st combined)
  end.

Definition push_chunk (st : State) (chunk : list Z) : State :=
  mkState (device st) (modelReady st) true Draining (audioChunks st ++ [chunk])
          (posted st) (written st).

(** receiveLoop, the transferIn that waits for the first chunk. *)
Definition receiveLoop_first (st : State) (r : option (list Z)) : State :=
  match r with
  | None => next_iteration st
  | Some data =>
      if isEOF data then next_iteration st          (* spurious EOF - ignore *)
      else match Int16Array_of_buffer data with
           | Some chunk => push_chunk st chunk
           | None => next_iteration st              (* caught; sleep, continue *)
           end
  end.

(** receiveLoop, a transferIn of the drain loop. *)
Definition receiveLoop_drain (st : State) (r : option (list Z)) : State :=
  match r with
  | None => after_drain st
  | Some data =>
      if isEOF data then after_drain st
      else match Int16Array_of_buffer data with
           | Some chunk => push_chunk st chunk
           | None => after_drain st                 (* caught; the loop is left *)
           end
  end.

Definition sendText (st : State) (text : jsstring) : State :=
  if device st then
    mkState (device st) (modelReady st) (recording st) (phase st) (audioChunks st)
            (posted st) (written st ++ [TextEncoder_encode (text ++ [0])])
  else st.

(** worker.onmessage, case 'ready'. *)
Definition onmessage_ready (st : State) : State :=
  mkState (device st) true (recording st) (phase st) (audioChunks st)
          (posted st) (written st).

(** worker.onmessage, case 'transcript'. *)
Definition onmessage_transcript (st : State) (text : jsstring) : State :=
  if truthy text then sendText st (text ++ [0x20]) else st.

Definition handleDisconnect (st : State) : State :=
  mkState false (modelReady st) false (phase st) (audioChunks st)
          (posted st) (written st).

(** One event of the page whose device stays set.  What a transfer does
    that resolves after handleDisconnect is in [WebUSBPage.step]. *)
Definition step (st : State) (ev : Event) : State :=
  match ev with
  | TransferIn r =>
      if device st then
        match phase st with
        | Waiting => receiveLoop_first st r
        | Draining => receiveLoop_drain st r
        end
      else st
  | TransferError =>
      if device st then
        match phase st with
        | Waiting => next_iteration st                (* caught; sleep, continue *)
        | Draining => after_drain st
        end
      else st
  | WorkerReady => onmessage_ready st
  | WorkerTranscript text => onmessage_transcript st text
  | WorkerProgress | WorkerError => st
  | Disconnect => handleDisconnect st
  end.

Definition run (st : State) (evs : list Event) : State := fold_left step evs st.

(** A connected session at the top of receiveLoop. *)
Definition connected (ready : bool) : State :=
  mkState true ready false Waiting [] [] [].

End WebUSB.

(** ** JavaScript numbers

    A number is a rational, an infinity or NaN.  The result of an arithmetic
    operation is rounded to binary64 by [rnd64]; a store into a
    [Float32Array] rounds to binary32 by [rnd32].  The two rounding functions
    are parameters of the model; [RoundingLaws] lists what the proofs use of
    them, all of it true of IEEE 754 round-to-nearest-even.  Signed zeros
    and overflow are not modelled. *)
Module Number.

Class Rounding := { rnd64 : Q -> Q; rnd32 : Q -> Q }.

Class RoundingLaws (R : Rounding) : Prop := {
  rnd64_mono : forall x y : Q, (x <= y)%Q -> (rnd64 x <= rnd64 y)%Q;
  rnd32_mono : forall x y : Q, (x <= y)%Q -> (rnd32 x <= rnd32 y)%Q;
  (* k / 2^n is representable when k has at most 24 bits and n <= 64 *)
  rnd64_dyadic : forall (k : Z) (n : nat),
    (Z.abs k <= 2 ^ 24)%Z -> (n <= 64)%nat ->
    (rnd64 (inject_Z k / inject_Z (2 ^ Z.of_nat n))
     == inject_Z k / inject_Z (2 ^ Z.of_nat n))%Q;
  rnd32_dyadic : forall (k : Z) (n : nat),
    (Z.abs k <= 2 ^ 24)%Z -> (n <= 64)%nat ->
    (rnd32 (inject_Z k / inject_Z (2 ^ Z.of_nat n))
     == inject_Z k / inject_Z (2 ^ Z.of_nat n))%Q;
  (* relative error of binary64 rounding, away from underflow and overflow *)
  rnd64_error : forall x : Q,
    (1 # 1000000 <= Qabs x)%Q -> (Qabs x <= 1)%Q ->
    (Qabs (rnd64 x - x) <= (1 # 2 ^ 53) * Qabs x)%Q
}.

Inductive number :=
| Finite (q : Q)
| Infinity (negative : bool)
| NaN.

Definition of_int (x : Z) : number := Finite (inject_Z x).

Definition is_zero (q : Q) : bool := Qeq_bool q 0.
Definition is_negative (q : Q) : bool := negb (Qle_bool 0 q).

Section Operations.
Context {R : Rounding}.

Definition div (a b : number) : number :=
  match a, b with
  | NaN, _ | _, NaN => NaN
  | Finite x, Finite y =>
      if is_zero y then
        if is_zero x then NaN else Infinity (is_negative x)
      else Finite (rnd64 (x / y))
  | Finite _, Infinity _ => Finite 0
  | Infinity s, Finite y => Infinity (xorb s (is_negative y))
  | Infinity _, Infinity _ => NaN
  end.

Definition mul (a b : number) : number :=
  match a, b with
  | NaN, _ | _, NaN => NaN
  | Finite x, Finite y => Finite (rnd64 (x * y))
  | Finite x, Infinity s | Infinity s, Finite x =>
      if is_zero x then NaN else Infinity (xorb s (is_negative x))
  | Infinity s, Infinity t => Infinity (xorb s t)
  end.

(** A store into a Float32Array element. *)
Definition to_float32 (a : number) : number :=
  match a with
  | Finite x => Finite (rnd32 x)
  | _ => a
  end.

(** The literal [0.9]: the binary64 number nearest to 9/10. *)
Definition lit_0_9 : number := Finite (rnd64 (9 # 10)).

End Operations.

(** Exact arithmetic satisfies the laws. *)
Definition exact : Rounding := {| rnd64 := fun x => x; rnd32 := fun x => x |}.

End Number.

(** ** worker.js, naive scaling *)
Module WorkerNaive.
Import JS Number.

Section Transcribe.
Context {R : Rounding}.

(** [float32[i] = audioData[i] / 32768.0] *)
Definition float32 (audioData : list Z) : list number :=
  map (fun x => to_float32 (div (of_int x) (of_int 32768))) audioData.

End Transcribe.

(** [const text = result.text.trim()], the text of the 'transcript' message. *)
Definition transcript_text (result_text : jsstring) : jsstring := trim result_text.

End WorkerNaive.

(** ** worker.js, peak normalisation *)
Module WorkerPeak.
Import JS Number.

(** The peak scan; the absolute values of int16 samples are integers. *)
Definition peak (audioData : list Z) : Z :=
  fold_left (fun peak x => let abs := Z.abs x in if peak <? abs then abs else peak)
            audioData 0.

Section Transcribe.
Context {R : Rounding}.

(** [const scale = peak > 50 ? 0.9 / peak : 1.0 / 32768.0] *)
Definition scale (audioData : list Z) : number :=
  if 50 <? peak audioData
  then div lit_0_9 (of_int (peak audioData))
  else div (of_int 1) (of_int 32768).

(** [float32[i] = audioData[i] * scale] *)
Definition float32 (audioData : list Z) : list number :=
  map (fun x => to_float32 (mul (of_int x) (scale audioData))) audioData.

End Transcribe.

Definition transcript_text (result_text : jsstring) : jsstring := trim result_text.

End WorkerPeak.

(** * Vocabulary of the properties *)

(** A complete sentinel starts at index [i] of [bytes]. *)
Definition match_at (bytes : list Z) (i : nat) : Prop :=
  firstn 4 (skipn i bytes) = Serial.EOF_MARKER.

(** Bytes as a Uint8Array holds them, samples as an Int16Array holds them. *)
Definition is_byte (b : Z) : Prop := 0 <= b < 256.
Definition is_int16 (x : Z) : Prop := -32768 <= x < 32768.

(** Is the port there and writable, the guard of sendText? *)
Definition serial_can_write (st : Serial.State) : bool :=
  match Serial.port st with
  | Some p => Serial.writable p
  | None => false
  end.

(** The text handed to sendText by the 'transcript' case of worker.onmessage. *)
Definition serial_reply_text (text : JS.jsstring) : JS.jsstring :=
  if JS.truthy text && JS.truthy (JS.trim text) then JS.trim text ++ [0x20] else [].

(** A write holds the UTF-8 encoding of some text and the terminator. *)
Definition framed (w : list Z) : Prop :=
  exists text : JS.jsstring, w = JS.TextEncoder_encode text ++ [0].

Definition is_disconnect (ev : Serial.Event) : bool :=
  match ev with Serial.Disconnect => true | _ => false end.

(** A finite number of magnitude at most 1. *)
Definition unit_bounded (y : Number.number) : Prop :=
  exists q : Q, y = Number.Finite q /\ (Qabs q <= 1)%Q.

(** Sample inputs. *)
Definition hello : JS.jsstring := [104; 101; 108; 108; 111].

Definition split_sentinel_chunks : list (list Z) :=
  [[0x10; 0x20; 0xFF; 0xFE]; [0xFD; 0xFC]].

(** A recording of 512 zero bytes and its sentinel, in one chunk. *)
Definition recording_512 : list Z := repeat 0 512 ++ Serial.EOF_MARKER.

(** * The rest of the code *)

(** ** escapeHtml and the transcript line (app.js, both flavours) *)
Module Html.
Import JS.

(** [str.replace(/c/g, newSubstr)] for a pattern of one character [c] and a
    replacement that holds no dollar sign. *)
Definition replaceAll (c : Z) (newSubstr : jsstring) (str : jsstring) : jsstring :=
  flat_map (fun u => if u =? c then newSubstr else [u]) str.

Definition AMP : Z := 38.                                       (* & *)
Definition LT : Z := 60.                                        (* < *)
Definition GT : Z := 62.                                        (* > *)
Definition amp_entity : jsstring := [38; 97; 109; 112; 59].     (* &amp; *)
Definition lt_entity : jsstring := [38; 108; 116; 59].          (* &lt; *)
Definition gt_entity : jsstring := [38; 103; 116; 59].          (* &gt; *)

Definition escapeHtml (str : jsstring) : jsstring :=
  replaceAll GT gt_entity (replaceAll LT lt_entity (replaceAll AMP amp_entity str)).

End Html.

(** ** sw.js, the service worker's caches *)
Module ServiceWorker.

Definition CACHE_NAME : String.string := "cardputer-voice-v1"%string.

Section Caches.
Variable Cache : Type.

(** The cache storage of the origin: named caches, in the order of their
    creation. *)
Definition CacheStorage : Type := list (String.string * Cache).

(** [caches.keys()] *)
Definition keys (caches : CacheStorage) : list String.string := map fst caches.

(** [caches.delete(k)] *)
Definition delete (k : String.string) (caches : CacheStorage) : CacheStorage :=
  filter (fun e => negb (String.eqb (fst e) k)) caches.

(** The 'activate' handler: every key other than CACHE_NAME is deleted. *)
Definition activate (caches : CacheStorage) : CacheStorage :=
  fold_left (fun cs k => delete k cs)
            (filter (fun k => negb (String.eqb k CACHE_NAME)) (keys caches))
            caches.

End Caches.

End ServiceWorker.

(** ** worker.js, the message loop (the same in both flavours)

    The worker's awaited results are events as well: the pipeline that
    loads the model resolves or rejects, and so does every call of the
    transcriber. *)
Module WorkerLoop.
Import JS.

Inductive ProgressStatus := Loading | Downloading | Done.

(** What the worker posts to the page. *)
Inductive Out :=
| OutProgress (status : ProgressStatus)
| OutReady
| OutError                               (* 'Model not loaded' *)
| OutTranscript (text : jsstring).

(** [info.status] of the pipeline's progress callback. *)
Inductive InfoStatus := InfoProgress | InfoDone | InfoOther.

Record State := mkState {
  transcriber : bool;                    (* transcriber !== null *)
  loading : nat;                         (* calls of pipeline() not yet settled *)
  pending : nat;                         (* calls of transcriber() not yet settled *)
  calls : list (list Z);                 (* audioData of every call of transcriber() *)
  outbox : list Out                      (* every self.postMessage, in order *)
}.

Inductive Event :=
| MsgInit                                (* { type: 'init' } *)
| MsgTranscribe (audioData : list Z)     (* { type: 'transcribe', audioData, ... } *)
| MsgOther                               (* any other type: console.warn *)
| PipelineProgress (info : InfoStatus)   (* progress_callback(info) *)
| PipelineResolved
| PipelineRejected
| EngineResolved (text : jsstring)       (* transcriber(...) gives { text } *)
| EngineRejected.

Definition post (st : State) (m : Out) : State :=
  mkState (transcriber st) (loading st) (pending st) (calls st) (outbox st ++ [m]).

(** init() up to its await. *)
Definition init_start (st : State) : State :=
  mkState (transcriber st) (S (loading st)) (pending st) (calls st)
          (outbox st ++ [OutProgress Loading]).

(** init() after its await: the transcriber is set and 'ready' is posted. *)
Definition init_finish (st : State) : State :=
  mkState true (pred (loading st)) (pending st) (calls st) (outbox st ++ [OutReady]).

(** transcribe() up to its await. *)
Definition transcribe_start (st : State) (audioData : list Z) : State :=
  if transcriber st
  then mkState (transcriber st) (loading st) (S (pending st))
               (calls st ++ [audioData]) (outbox st)
  else post st OutError.

(** transcribe() after its await. *)
Definition transcribe_finish (st : State) (text : jsstring) : State :=
  mkState (transcriber st) (loading st) (pred (pending st)) (calls st)
          (outbox st ++ [OutTranscript (trim text)]).

Definition step (st : State) (ev : Event) : State :=
  match ev with
  | MsgInit => init_start st
  | MsgTranscribe audioData => transcribe_start st audioData
  | MsgOther => st
  | PipelineProgress info =>
      match loading st with
      | O => st
      | S _ =>
          match info with
          | InfoProgress => post st (OutProgress Downloading)
          | InfoDone => post st (OutProgress Done)
          | InfoOther => st
          end
      end
  | PipelineResolved =>
      match loading st with O => st | S _ => init_finish st end
  | PipelineRejected =>
      match loading st with
      | O => st
      | S n => mkState (transcriber st) n (pending st) (calls st) (outbox st)
      end
  | EngineResolved text =>
      match pending st with O => st | S _ => transcribe_finish st text end
  | EngineRejected =>
      match pending st with
      | O => st
      | S n => mkState (transcriber st) (loading st) n (calls st) (outbox st)
      end
  end.

Definition run (st : State) (evs : list Event) : State := fold_left step evs st.

(** The worker when its script has just been loaded. *)
Definition initial : State := mkState false 0 0 [] [].

End WorkerLoop.

(** ** receiveLoop and sendText around a disconnect and a pending write

    [Serial.step] and [WebUSB.step] describe the page while the port or the
    device stays set and every write has settled before the next
    'transcript' message arrives.  The two modules below drop both
    assumptions and follow the control flow of the source:

    - receiveLoop tests [port] (or [device]) at its loop heads and in its
      catch blocks only.  A read or transfer that was issued before
      handleDisconnect and resolves after it is processed like any other;
      the loop returns when it next reaches a loop head or a catch block.
      [loopAlive] tells whether receiveLoop has returned.
    - Web Serial sendText holds the lock of [port.writable] from getWriter()
      until the awaited write has settled.  A call of sendText that finds
      the stream locked has getWriter() throw; the catch block logs the
      error and nothing is written.  [writerLocked] is that lock, and
      [WriteSettled] is the event that releases it.  WebUSB sendText calls
      device.transferOut, which takes no lock. *)
Module SerialPage.
Import JS.

Record State := mkState {
  page : Serial.State;             (* the globals, the locals of receiveLoop, the effects *)
  loopAlive : bool;                (* receiveLoop has not returned *)
  writerLocked : bool              (* a call of sendText awaits writer.write *)
}.

Inductive Event :=
| Ev (ev : Serial.Event)           (* ReadError: reader.read() rejects, port set or not *)
| WriteSettled.                    (* the awaited writer.write resolves or rejects *)

(** Back at [while (port && port.readable)]. *)
Definition loop_head (st : State) (p : Serial.State) : State :=
  mkState p (Serial.reading p) (writerLocked st).

(** One turn of the inner loop of receiveLoop, for the value reader.read()
    resolved to; neither the inner loop nor the code after it looks at
    [port]. *)
Definition receiveLoop_read (st : State) (value : list Z) : State :=
  match value with
  | [] => st
  | _ :: _ =>
      let bytes := Serial.audioBytes (page st) ++ value in
      let eofIdx := Serial.findEOF bytes in
      if eofIdx =? -1
      then mkState (Serial.set_audioBytes (page st) bytes true)
                   (loopAlive st) (writerLocked st)
      else loop_head st
             (Serial.after_recording
                (Serial.set_audioBytes (page st) (firstn (Z.to_nat eofIdx) bytes) true))
  end.

(** reader.read() rejects: [catch (err) { if (!port) break; ... }]. *)
Definition receiveLoop_catch (st : State) : State :=
  match Serial.port (page st) with
  | None => mkState (page st) false (writerLocked st)
  | Some _ => loop_head st (Serial.after_recording (page st))
  end.

Definition sendText (st : State) (text : jsstring) : State :=
  match Serial.port (page st) with
  | Some p =>
      if Serial.writable p then
        if writerLocked st then st                    (* getWriter() throws; caught *)
        else mkState (Serial.sendText (page st) text) (loopAlive st) true
      else st
  | None => st
  end.

(** worker.onmessage, case 'transcript'. *)
Definition onmessage_transcript (st : State) (text : jsstring) : State :=
  if truthy text && truthy (trim text)
  then sendText st (trim text ++ [0x20])
  else sendText st [].

Definition step (st : State) (ev : Event) : State :=
  match ev with
  | Ev (Serial.Read value) => if loopAlive st then receiveLoop_read st value else st
  | Ev Serial.ReadDone =>
      if loopAlive st then loop_head st (Serial.after_recording (page st)) else st
  | Ev Serial.ReadError => if loopAlive st then receiveLoop_catch st else st
  | Ev Serial.WorkerReady =>
      mkState (Serial.onmessage_ready (page st)) (loopAlive st) (writerLocked st)
  | Ev (Serial.WorkerTranscript text) => onmessage_transcript st text
  | Ev Serial.WorkerProgress | Ev Serial.WorkerError => st
  | Ev Serial.Disconnect =>
      mkState (Serial.handleDisconnect (page st)) (loopAlive st) (writerLocked st)
  | WriteSettled => mkState (page st) (loopAlive st) false       (* writer.releaseLock() *)
  end.

Definition run (st : State) (evs : list Event) : State := fold_left step evs st.

(** A connected session at the top of receiveLoop, no write pending. *)
Definition connected (ready : bool) : State :=
  mkState (Serial.connected ready) true false.

End SerialPage.

Module WebUSBPage.
Import JS.

Record State := mkState {
  page : WebUSB.State;             (* the globals, the locals of receiveLoop, the effects *)
  loopAlive : bool                 (* receiveLoop has not returned *)
}.

(** Back at the outer [while (device)]. *)
Definition loop_head (p : WebUSB.State) : State := mkState p (WebUSB.device p).

(** [recording = true], the assignment that precedes the first push. *)
Definition set_recording (p : WebUSB.State) : WebUSB.State :=
  WebUSB.mkState (WebUSB.device p) (WebUSB.modelReady p) true (WebUSB.phase p)
                 (WebUSB.audioChunks p) (WebUSB.posted p) (WebUSB.written p).

(** After a push: the drain loop goes on with the next transferIn while
    [device] is set, and is left at once when it is not. *)
Definition drain_head (p : WebUSB.State) : State :=
  if WebUSB.device p then mkState p true else loop_head (WebUSB.after_drain p).

(** receiveLoop, the transferIn that waits for the first chunk. *)
Definition receiveLoop_first (st : State) (r : option (list Z)) : State :=
  let p := page st in
  match r with
  | None => loop_head (WebUSB.next_iteration p)
  | Some data =>
      if WebUSB.isEOF data then loop_head (WebUSB.next_iteration p)
      else match Int16Array_of_buffer data with
           | Some chunk => drain_head (WebUSB.push_chunk p chunk)
           | None =>                                  (* RangeError, caught *)
               if WebUSB.device p
               then loop_head (WebUSB.next_iteration p)       (* sleep, continue *)
               else mkState (set_recording p) false           (* if (!device) break *)
           end
  end.

(** receiveLoop, a transferIn of the drain loop. *)
Definition receiveLoop_drain (st : State) (r : option (list Z)) : State :=
  let p := page st in
  match r with
  | None => loop_head (WebUSB.after_drain p)
  | Some data =>
      if WebUSB.isEOF data then loop_head (WebUSB.after_drain p)
      else match Int16Array_of_buffer data with
           | Some chunk => drain_head (WebUSB.push_chunk p chunk)
           | None =>                                  (* RangeError, caught *)
               if WebUSB.device p
               then loop_head (WebUSB.after_drain p)
               else mkState p false                           (* if (!device) break *)
           end
  end.

(** transferIn rejects: the catch block of the try it was awaited in. *)
Definition receiveLoop_catch (st : State) : State :=
  let p := page st in
  if WebUSB.device p then
    match WebUSB.phase p with
    | WebUSB.Waiting => loop_head (WebUSB.next_iteration p)   (* sleep, continue *)
    | WebUSB.Draining => loop_head (WebUSB.after_drain p)
    end
  else mkState p false.                                       (* if (!device) break *)

Definition step (st : State) (ev : WebUSB.Event) : State :=
  match ev with
  | WebUSB.TransferIn r =>
      if loopAlive st then
        match WebUSB.phase (page st) with
        | WebUSB.Waiting => receiveLoop_first st r
        | WebUSB.Draining => receiveLoop_drain st r
        end
      else st
  | WebUSB.TransferError => if loopAlive st then receiveLoop_catch st else st
  | WebUSB.WorkerReady => mkState (WebUSB.onmessage_ready (page st)) (loopAlive st)
  | WebUSB.WorkerTranscript text =>
      mkState (WebUSB.onmessage_transcript (page st) text) (loopAlive st)
  | WebUSB.WorkerProgress | WebUSB.WorkerError => st
  | WebUSB.Disconnect => mkState (WebUSB.handleDisconnect (page st)) (loopAlive st)
  end.

Definition run (st : State) (evs : list WebUSB.Event) : State := fold_left step evs st.

(** A connected session at the top of receiveLoop. *)
Definition connected (ready : bool) : State := mkState (WebUSB.connected ready) true.

End WebUSBPage.

(** ** Vocabulary of the further properties *)

(** What escapeHtml does to one code unit. *)
Definition escape_unit (u : Z) : JS.jsstring :=
  if u =? Html.AMP then Html.amp_entity
  else if u =? Html.LT then Html.lt_entity
  else if u =? Html.GT then Html.gt_entity
  else [u].

(** A UTF-16 code unit. *)
Definition is_code_unit (u : Z) : Prop := 0 <= u < 65536.

Definition serial_is_ready (ev : Serial.Event) : bool :=
  match ev with Serial.WorkerReady => true | _ => false end.

Definition webusb_is_ready (ev : WebUSB.Event) : bool :=
  match ev with WebUSB.WorkerReady => true | _ => false end.

(** What receiveLoop keeps between two events, Web Serial flavour: the
    buffer holds no complete sentinel, and [recordingStarted] tells whether
    it holds anything. *)
Definition serial_buffer_ok (st : Serial.State) : Prop :=
  Serial.findEOF (Serial.audioBytes st) = -1 /\
  Serial.recordingStarted st = JS.truthy (Serial.audioBytes st).

(** A request as the Web Serial flavour posts it. *)
Definition request_ok (audioData : list Z) : Prop :=
  (256 <= length audioData)%nat /\ Forall is_int16 audioData.

(** Consecutive pairs of a list, combined by [f]. *)
Definition pairs_with (f : Z -> Z -> Z) (l : list Z) : list Z :=
  map (fun i => f (nth (2 * i) l 0) (nth (2 * i + 1) l 0)) (seq 0 (length l / 2)).

(** A transfer of the drain loop that is stored: an even number of bytes,
    not starting with the sentinel. *)
Definition storable (data : list Z) : Prop :=
  Nat.even (length data) = true /\ WebUSB.isEOF data = false /\ Forall is_byte data.

Definition is_transcript (m : WorkerLoop.Out) : bool :=
  match m with WorkerLoop.OutTranscript _ => true | _ => false end.

Definition is_error (m : WorkerLoop.Out) : bool :=
  match m with WorkerLoop.OutError => true | _ => false end.

(** In what the worker posted, every 'transcript' comes after a 'ready'. *)
Definition ready_first (out : list WorkerLoop.Out) : Prop :=
  forall l1 t l2, out = l1 ++ WorkerLoop.OutTranscript t :: l2 -> In WorkerLoop.OutReady l1.

(** In what the worker posted, no 'error' comes after a 'ready'. *)
Definition no_error_after_ready (out : list WorkerLoop.Out) : Prop :=
  forall l1 l2, out = l1 ++ WorkerLoop.OutReady :: l2 -> ~ In WorkerLoop.OutError l2.

(** Requests the worker has answered or still holds. *)
Definition accounted (st : WorkerLoop.State) : nat :=
  length (filter is_transcript (WorkerLoop.outbox st)) +
  length (filter is_error (WorkerLoop.outbox st)) + WorkerLoop.pending st.

(** What the loop keeps: the 'ready' message is in the outbox exactly when
    the transcriber is set, a call is pending only when it is set, and the
    outbox is ordered as [ready_first] and [no_error_after_ready] say, with
    trimmed transcripts only. *)
Definition worker_ok (st : WorkerLoop.State) : Prop :=
  (WorkerLoop.transcriber st = true <-> In WorkerLoop.OutReady (WorkerLoop.outbox st)) /\
  (WorkerLoop.pending st <> 0%nat -> WorkerLoop.transcriber st = true) /\
  ready_first (WorkerLoop.outbox st) /\
  no_error_after_ready (WorkerLoop.outbox st) /\
  (forall t, In (WorkerLoop.OutTranscript t) (WorkerLoop.outbox st) -> JS.trim t = t).

Definition is_transcribe (ev : WorkerLoop.Event) : bool :=
  match ev with WorkerLoop.MsgTranscribe _ => true | _ => false end.

Definition is_engine_rejected (ev : WorkerLoop.Event) : bool :=
  match ev with WorkerLoop.EngineRejected => true | _ => false end.

Definition page_is_disconnect (ev : SerialPage.Event) : bool :=
  match ev with SerialPage.Ev Serial.Disconnect => true | _ => false end.

(** The replies the 'transcript' messages of a trace of the page call for,
    in order. *)
Definition page_replies (evs : list SerialPage.Event) : list (list Z) :=
  flat_map (fun ev =>
              match ev with
              | SerialPage.Ev (Serial.WorkerTranscript text) =>
                  [JS.TextEncoder_encode (serial_reply_text text) ++ [0]]
              | _ => []
              end) evs.

(** No 'transcript' message of the trace arrives while a write is pending:
    the write of each one settles before the next one arrives.  [locked]
    tells whether a write is pending when the trace starts. *)
Fixpoint writes_settle (locked : bool) (evs : list SerialPage.Event) : bool :=
  match evs with
  | [] => true
  | SerialPage.Ev (Serial.WorkerTranscript _) :: rest => negb locked && writes_settle true rest
  | SerialPage.WriteSettled :: rest => writes_settle false rest
  | _ :: rest => writes_settle locked rest
  end.

(** A trace of [Serial.step] as a trace of the page: every write settles
    right after it is issued. *)
Definition settled (evs : list Serial.Event) : list SerialPage.Event :=
  flat_map (fun ev =>
              match ev with
              | Serial.WorkerTranscript _ => [SerialPage.Ev ev; SerialPage.WriteSettled]
              | _ => [SerialPage.Ev ev]
              end) evs.

Definition webusb_is_disconnect (ev : WebUSB.Event) : bool :=
  match ev with WebUSB.Disconnect => true | _ => false end.

(** * Properties *)

(** ** The frame reader: findEOF *)

Lemma nth_error_skipn_add (A : Type) (l : list A) (i k : nat) :
  nth_error l (i + k) = nth_error (skipn i l) k.
Proof.
  revert l; induction i as [|i IH]; intros l; simpl.
  - reflexivity.
  - destruct l as [|a l]; simpl.
    + now destruct k.
    + apply IH.
Qed.

Lemma sentinel_at_spec (bytes : list Z) (i : nat) :
  Serial.sentinel_at bytes i = true <-> match_at bytes i.
Proof.
  unfold Serial.sentinel_at, Serial.byte_is, match_at, Serial.EOF_MARKER.
  rewrite <- (Nat.add_0_r i) at 1.
  rewrite !nth_error_skipn_add.
  destruct (skipn i bytes) as [|b0 [|b1 [|b2 [|b3 tl]]]]; simpl;
    rewrite ?andb_false_r, ?andb_true_iff, ?Z.eqb_eq;
    split; intros H; try discriminate; try tauto.
  - destruct H as [[[-> ->] ->] ->]; reflexivity.
  - injection H as -> -> -> ->; tauto.
Qed.

Lemma match_at_length (bytes : list Z) (i : nat) :
  match_at bytes i -> (i + 4 <= length bytes)%nat.
Proof.
  unfold match_at; intros H.
  apply (f_equal (@length Z)) in H.
  rewrite length_firstn, length_skipn in H.
  change (length Serial.EOF_MARKER) with 4%nat in H. lia.
Qed.

Lemma match_at_app (a b : list Z) (i : nat) :
  (i + 4 <= length a)%nat -> (match_at (a ++ b) i <-> match_at a i).
Proof.
  intros Hlen; unfold match_at.
  rewrite skipn_app, firstn_app, length_skipn.
  replace (4 - (length a - i))%nat with 0%nat by lia.
  rewrite firstn_O, app_nil_r; reflexivity.
Qed.

Lemma findEOF_loop_spec (bytes : list Z) (n i : nat) :
  (Serial.findEOF_loop n i bytes = -1 /\
   forall j, (i <= j < i + n)%nat -> Serial.sentinel_at bytes j = false) \/
  (exists k, (i <= k < i + n)%nat /\
     Serial.findEOF_loop n i bytes = Z.of_nat k /\
     Serial.sentinel_at bytes k = true /\
     forall j, (i <= j < k)%nat -> Serial.sentinel_at bytes j = false).
Proof.
  revert i; induction n as [|n IH]; intros i; simpl.
  - left; split; [reflexivity | intros j Hj; lia].
  - destruct (Serial.sentinel_at bytes i) eqn:Hi.
    + right; exists i; repeat split; try lia; auto.
    + destruct (IH (S i)) as [[Hr Hno] | [k [Hk [Hr [Hm Hno]]]]].
      * left; split; [exact Hr|].
        intros j Hj. destruct (Nat.eq_dec j i) as [->|]; [exact Hi | apply Hno; lia].
      * right; exists k; repeat split; try lia; auto.
        intros j Hj. destruct (Nat.eq_dec j i) as [->|]; [exact Hi | apply Hno; lia].
Qed.

(** The two outcomes of findEOF, in terms of [match_at]. *)
Lemma findEOF_spec (bytes : list Z) :
  (Serial.findEOF bytes = -1 /\ forall i, ~ match_at bytes i) \/
  (exists k, Serial.findEOF bytes = Z.of_nat k /\ match_at bytes k /\
             forall j, (j < k)%nat -> ~ match_at bytes j).
Proof.
  unfold Serial.findEOF.
  destruct (findEOF_loop_spec bytes (length bytes - 3) 0)
    as [[Hr Hno] | [k [Hk [Hr [Hm Hno]]]]].
  - left; split; [exact Hr|].
    intros i Hi. pose proof (match_at_length _ _ Hi) as Hlen.
    apply sentinel_at_spec in Hi. rewrite Hno in Hi by lia. discriminate.
  - right; exists k; repeat split; auto.
    + now apply sentinel_at_spec.
    + intros j Hj Hmj. apply sentinel_at_spec in Hmj.
      rewrite Hno in Hmj by lia. discriminate.
Qed.

Lemma findEOF_none (bytes : list Z) :
  Serial.findEOF bytes = -1 <-> forall i, ~ match_at bytes i.
Proof.
  destruct (findEOF_spec bytes) as [[Hr Hno] | [k [Hr [Hm _]]]].
  - tauto.
  - split; [lia | intros H; exfalso; exact (H k Hm)].
Qed.

Lemma findEOF_first (bytes : list Z) (k : nat) :
  Serial.findEOF bytes = Z.of_nat k <->
  match_at bytes k /\ forall j, (j < k)%nat -> ~ match_at bytes j.
Proof.
  destruct (findEOF_spec bytes) as [[Hr Hno] | [k' [Hr [Hm Hno]]]].
  - split; [lia | intros [H _]; exfalso; exact (Hno k H)].
  - split.
    + intros H. assert (k = k') by lia. subst k'. auto.
    + intros [Hk Hlt]. rewrite Hr. f_equal.
      destruct (Nat.lt_trichotomy k k') as [Hc | [Hc | Hc]]; auto.
      * exfalso; exact (Hno k Hc Hk).
      * exfalso; exact (Hlt k' Hc Hm).
Qed.

Lemma findEOF_range (bytes : list Z) :
  Serial.findEOF bytes = -1 \/
  exists k, Serial.findEOF bytes = Z.of_nat k /\ (k + 4 <= length bytes)%nat.
Proof.
  destruct (findEOF_spec bytes) as [[Hr _] | [k [Hr [Hm _]]]]; [now left|].
  right; exists k; split; [exact Hr | now apply match_at_length].
Qed.

(** Once a buffer holds a sentinel, appending bytes does not move the first
    match. *)
Lemma findEOF_app_found (a b : list Z) (k : nat) :
  Serial.findEOF a = Z.of_nat k -> Serial.findEOF (a ++ b) = Z.of_nat k.
Proof.
  intros H. apply findEOF_first in H. destruct H as [Hk Hlt].
  pose proof (match_at_length _ _ Hk) as Hlen.
  apply findEOF_first; split.
  - apply match_at_app; [lia | exact Hk].
  - intros j Hj Hm. apply (Hlt j Hj).
    apply (match_at_app a b j); [lia | exact Hm].
Qed.

Lemma read_until_EOF_scan (chunks : list (list Z)) (acc : list Z) :
  Serial.findEOF acc = -1 ->
  Serial.read_until_EOF acc chunks = Serial.findEOF (acc ++ concat chunks).
Proof.
  revert acc; induction chunks as [|value rest IH]; intros acc Hacc; simpl.
  - rewrite app_nil_r; now rewrite Hacc.
  - destruct value as [|v vs].
    + simpl. now apply IH.
    + rewrite app_assoc.
      destruct (Serial.findEOF (acc ++ v :: vs) =? -1) eqn:E.
      * apply Z.eqb_eq in E. now apply IH.
      * apply Z.eqb_neq in E.
        destruct (findEOF_range (acc ++ v :: vs)) as [H | [k [H _]]]; [contradiction|].
        rewrite H. symmetry. now apply findEOF_app_found.
Qed.

(** C9: findEOF returns the index of the first complete four-byte sentinel
    of the buffer, and -1 (no offset) exactly when the buffer holds no
    complete sentinel; no sentinel starts at an index below the one
    returned. *)
Theorem C9_findEOF_first_match : forall bytes : list Z,
  (Serial.findEOF bytes = -1 <-> forall i, ~ match_at bytes i) /\
  (forall k : nat, Serial.findEOF bytes = Z.of_nat k <->
     match_at bytes k /\ forall j, (j < k)%nat -> ~ match_at bytes j) /\
  (Serial.findEOF bytes = -1 \/
   exists k : nat, Serial.findEOF bytes = Z.of_nat k /\ (k + 4 <= length bytes)%nat).
Proof.
  intros bytes. split; [apply findEOF_none|].
  split; [intros k; apply findEOF_first | apply findEOF_range].
Qed.

(** ** Audio assembly: bytes to samples *)

Lemma to_int16_range (x : Z) : is_int16 (JS.to_int16 x).
Proof.
  unfold is_int16, JS.to_int16.
  pose proof (Z.mod_pos_bound (x + 32768) 65536 ltac:(lia)). lia.
Qed.

Lemma to_int16_small (x : Z) : is_int16 x -> JS.to_int16 x = x.
Proof.
  unfold is_int16, JS.to_int16; intros H.
  rewrite Z.mod_small by lia. lia.
Qed.

Lemma lor_shiftl_8 (lo hi : Z) :
  is_byte lo -> 0 <= hi -> Z.lor lo (Z.shiftl hi 8) = lo + 256 * hi.
Proof.
  intros [Hlo0 Hlo1] Hhi.
  assert (Hland : Z.land lo (Z.shiftl hi 8) = 0).
  { apply Z.bits_inj'; intros n Hn.
    rewrite Z.land_spec, Z.bits_0.
    destruct (Z.lt_ge_cases n 8) as [Hlt | Hge].
    - rewrite (Z.shiftl_spec_low hi 8 n Hlt). apply andb_false_r.
    - destruct (Z.eq_dec lo 0) as [-> | Hne].
      + now rewrite Z.bits_0.
      + rewrite (Z.bits_above_log2 lo n); [reflexivity | lia |].
        assert (Z.log2 lo < 8) by (apply Z.log2_lt_pow2; lia). lia. }
  rewrite <- Z.lxor_lor by exact Hland.
  rewrite <- Z.add_nocarry_lxor by exact Hland.
  rewrite Z.shiftl_mul_pow2 by lia. change (2 ^ 8) with 256. lia.
Qed.

Lemma nth_error_seq_0 (n i : nat) : (i < n)%nat -> nth_error (seq 0 n) i = Some i.
Proof.
  intros H. rewrite (nth_error_nth' (seq 0 n) 0%nat) by (now rewrite length_seq).
  now rewrite seq_nth.
Qed.

Lemma nth_is_byte (bytes : list Z) (i : nat) :
  Forall is_byte bytes -> is_byte (nth i bytes 0).
Proof.
  intros H. destruct (Nat.lt_ge_cases i (length bytes)) as [Hlt | Hge].
  - rewrite Forall_forall in H. apply H. now apply nth_In.
  - rewrite nth_overflow by exact Hge. unfold is_byte; lia.
Qed.

Lemma to_Int16Array_length (audioBytes : list Z) :
  length (Serial.to_Int16Array audioBytes) = (length audioBytes / 2)%nat.
Proof. unfold Serial.to_Int16Array. now rewrite length_map, length_seq. Qed.

Lemma to_Int16Array_nth (audioBytes : list Z) (i : nat) :
  Forall is_byte audioBytes -> (i < length audioBytes / 2)%nat ->
  nth_error (Serial.to_Int16Array audioBytes) i =
  Some (JS.to_int16 (nth (2 * i) audioBytes 0 + 256 * nth (2 * i + 1) audioBytes 0)).
Proof.
  intros Hb Hi. unfold Serial.to_Int16Array.
  rewrite nth_error_map, nth_error_seq_0 by exact Hi.
  cbv beta iota delta [option_map].
  rewrite (Nat.mul_comm i 2).
  rewrite lor_shiftl_8; [reflexivity | now apply nth_is_byte |].
  now apply (nth_is_byte audioBytes (2 * i + 1)).
Qed.

Lemma to_Int16Array_drop_odd (audioBytes : list Z) (b : Z) :
  Nat.even (length audioBytes) = true ->
  Serial.to_Int16Array (audioBytes ++ [b]) = Serial.to_Int16Array audioBytes.
Proof.
  intros Hev. apply Nat.even_spec in Hev. destruct Hev as [m Hm].
  unfold Serial.to_Int16Array. rewrite length_app. simpl length.
  replace ((length audioBytes + 1) / 2)%nat with m.
  2:{ rewrite Hm. apply Nat.div_unique with (r := 1%nat); lia. }
  replace (length audioBytes / 2)%nat with m.
  2:{ rewrite Hm. apply Nat.div_unique with (r := 0%nat); lia. }
  apply map_ext_in. intros i Hi. apply in_seq in Hi.
  rewrite !app_nth1 by lia. reflexivity.
Qed.

(** C7: audio assembly turns the recording bytes into floor(length/2)
    signed 16-bit samples, sample i being the little-endian pair of bytes
    2i (low) and 2i+1 (high); a trailing odd byte is dropped; the bytes
    10 20 30 40 (hex) give the samples 0x2010 and 0x4030. *)
Theorem C7_samples_little_endian : forall audioBytes : list Z,
  Forall is_byte audioBytes ->
  length (Serial.to_Int16Array audioBytes) = (length audioBytes / 2)%nat /\
  (forall i : nat, (i < length audioBytes / 2)%nat ->
     nth_error (Serial.to_Int16Array audioBytes) i =
     Some (JS.to_int16 (nth (2 * i) audioBytes 0 + 256 * nth (2 * i + 1) audioBytes 0))) /\
  Forall is_int16 (Serial.to_Int16Array audioBytes) /\
  (forall b : Z, Nat.even (length audioBytes) = true ->
     Serial.to_Int16Array (audioBytes ++ [b]) = Serial.to_Int16Array audioBytes) /\
  Serial.to_Int16Array [0x10; 0x20; 0x30; 0x40] = [0x2010; 0x4030].
Proof.
  intros audioBytes Hb. split; [apply to_Int16Array_length|].
  split; [intros i Hi; now apply to_Int16Array_nth|].
  split.
  - unfold Serial.to_Int16Array. apply Forall_forall. intros s Hs.
    apply in_map_iff in Hs. destruct Hs as [i [<- _]]. apply to_int16_range.
  - split; [intros b Hev; now apply to_Int16Array_drop_odd | reflexivity].
Qed.

Lemma C7_samples_witness :
  Forall is_byte [0xFE; 0xFF; 0x00; 0x80; 0x50] /\
  length (Serial.to_Int16Array [0xFE; 0xFF; 0x00; 0x80; 0x50]) = 2%nat /\
  nth_error (Serial.to_Int16Array [0xFE; 0xFF; 0x00; 0x80; 0x50]) 1 = Some (-32768) /\
  Forall is_int16 (Serial.to_Int16Array [0xFE; 0xFF; 0x00; 0x80; 0x50]).
Proof.
  assert (Hb : Forall is_byte [0xFE; 0xFF; 0x00; 0x80; 0x50])
    by (repeat constructor; unfold is_byte; lia).
  destruct (C7_samples_little_endian _ Hb) as [Hlen [Hnth [Hrange _]]].
  split; [exact Hb|].
  split; [exact Hlen|].
  split; [exact (Hnth 1%nat ltac:(simpl; lia)) | exact Hrange].
Defined.

(** ** Chunk boundaries *)

Lemma serial_step_Read_empty (st : Serial.State) :
  Serial.step st (Serial.Read []) = st.
Proof. simpl. now destruct (Serial.reading st). Qed.

Lemma serial_step_Read_no_eof (st : Serial.State) (value : list Z) :
  Serial.reading st = true -> value <> [] ->
  Serial.findEOF (Serial.audioBytes st ++ value) = -1 ->
  Serial.step st (Serial.Read value) =
  Serial.set_audioBytes st (Serial.audioBytes st ++ value) true.
Proof.
  intros Hr Hne He. destruct value as [|v vs]; [contradiction|].
  simpl. rewrite Hr, He. reflexivity.
Qed.

Lemma serial_step_Read_eof (st : Serial.State) (value : list Z) (k : nat) :
  Serial.reading st = true -> value <> [] ->
  Serial.findEOF (Serial.audioBytes st ++ value) = Z.of_nat k ->
  Serial.step st (Serial.Read value) =
  Serial.after_recording
    (Serial.set_audioBytes st (firstn k (Serial.audioBytes st ++ value)) true).
Proof.
  intros Hr Hne He. destruct value as [|v vs]; [contradiction|].
  simpl. rewrite Hr, He.
  destruct (Z.of_nat k =? -1) eqn:E; [apply Z.eqb_eq in E; lia|].
  now rewrite Nat2Z.id.
Qed.

(** The state machine runs the loop [Serial.read_until_EOF] describes: as
    long as no sentinel was seen, the chunks read so far are in
    [audioBytes]. *)
Lemma serial_run_accumulates (chunks : list (list Z)) (st : Serial.State) :
  Serial.reading st = true ->
  Serial.read_until_EOF (Serial.audioBytes st) chunks = -1 ->
  Serial.audioBytes (Serial.run st (map Serial.Read chunks)) =
    Serial.audioBytes st ++ concat chunks /\
  Serial.posted (Serial.run st (map Serial.Read chunks)) = Serial.posted st.
Proof.
  revert st; induction chunks as [|value rest IH]; intros st Hr Hscan.
  - simpl. now rewrite app_nil_r.
  - simpl in Hscan.
    change (Serial.run st (map Serial.Read (value :: rest)))
      with (Serial.run (Serial.step st (Serial.Read value)) (map Serial.Read rest)).
    destruct value as [|v vs].
    + rewrite serial_step_Read_empty. now apply IH.
    + destruct (Serial.findEOF (Serial.audioBytes st ++ v :: vs) =? -1) eqn:E.
      * apply Z.eqb_eq in E.
        rewrite serial_step_Read_no_eof by (auto; discriminate).
        destruct (IH (Serial.set_audioBytes st (Serial.audioBytes st ++ v :: vs) true))
          as [Ha Hp]; [exact Hr | exact Hscan |].
        rewrite Ha, Hp. simpl. now rewrite <- app_assoc.
      * apply Z.eqb_neq in E. contradiction.
Qed.

Lemma run_app (st : Serial.State) (a b : list Serial.Event) :
  Serial.run st (a ++ b) = Serial.run (Serial.run st a) b.
Proof. unfold Serial.run. apply fold_left_app. Qed.

(** When the loop finds the sentinel at offset k, the state machine has left
    the inner loop on the same chunk, with the first k bytes of the stream
    as the recording. *)
Lemma serial_run_completes (chunks : list (list Z)) (st : Serial.State) (k : nat) :
  Serial.reading st = true ->
  Serial.read_until_EOF (Serial.audioBytes st) chunks = Z.of_nat k ->
  exists (pre : list (list Z)) (value : list Z) (post : list (list Z)),
    chunks = pre ++ value :: post /\
    Serial.run st (map Serial.Read (pre ++ [value])) =
    Serial.after_recording
      (Serial.set_audioBytes st
         (firstn k (Serial.audioBytes st ++ concat chunks)) true).
Proof.
  revert st; induction chunks as [|value rest IH]; intros st Hr Hscan.
  - simpl in Hscan. lia.
  - simpl in Hscan. destruct value as [|v vs].
    + destruct (IH st Hr Hscan) as [pre [value [post [Hc Hrun]]]].
      exists ([] :: pre), value, post. split; [now rewrite Hc|].
      change (Serial.run st (map Serial.Read (([] :: pre) ++ [value])))
        with (Serial.run (Serial.step st (Serial.Read []))
                         (map Serial.Read (pre ++ [value]))).
      rewrite serial_step_Read_empty. exact Hrun.
    + destruct (Serial.findEOF (Serial.audioBytes st ++ v :: vs) =? -1) eqn:E.
      * apply Z.eqb_eq in E.
        destruct (IH (Serial.set_audioBytes st (Serial.audioBytes st ++ v :: vs) true)
                     Hr Hscan) as [pre [value [post [Hc Hrun]]]].
        exists ((v :: vs) :: pre), value, post. split; [now rewrite Hc|].
        change (Serial.run st (map Serial.Read (((v :: vs) :: pre) ++ [value])))
          with (Serial.run (Serial.step st (Serial.Read (v :: vs)))
                           (map Serial.Read (pre ++ [value]))).
        rewrite serial_step_Read_no_eof by (auto; discriminate).
        rewrite Hrun.
        change (concat ((v :: vs) :: rest)) with ((v :: vs) ++ concat rest).
        rewrite (app_assoc (Serial.audioBytes st)). reflexivity.
      * exists [], (v :: vs), rest. split; [reflexivity|].
        change (Serial.run st (map Serial.Read ([] ++ [v :: vs])))
          with (Serial.step st (Serial.Read (v :: vs))).
        rewrite (serial_step_Read_eof st (v :: vs) k Hr ltac:(discriminate) Hscan).
        apply findEOF_first in Hscan. destruct Hscan as [Hm _].
        apply match_at_length in Hm.
        change (concat ((v :: vs) :: rest)) with ((v :: vs) ++ concat rest).
        rewrite (app_assoc (Serial.audioBytes st)).
        rewrite (firstn_app k (Serial.audioBytes st ++ v :: vs)).
        replace (k - length (Serial.audioBytes st ++ v :: vs))%nat with 0%nat by lia.
        rewrite firstn_O, app_nil_r. reflexivity.
Qed.

Lemma isEOF_spec (data : list Z) :
  WebUSB.isEOF data = true <-> firstn 4 data = [0xFF; 0xFE; 0xFD; 0xFC].
Proof.
  unfold WebUSB.isEOF, WebUSB.getUint8_is.
  destruct data as [|b0 [|b1 [|b2 [|b3 tl]]]]; simpl;
    try (split; intros H; discriminate).
  rewrite !andb_true_iff, !Z.eqb_eq. split.
  - intros [[[-> ->] ->] ->]; reflexivity.
  - intros H; injection H as -> -> -> ->; tauto.
Qed.

(** C1, Web Serial flavour: whatever the chunks, re-scanning the growing
    buffer after each of them gives the offset that one scan of the
    concatenated bytes gives (-1 when there is no sentinel); a sentinel cut
    by two chunk boundaries is found; receiveLoop then leaves its inner loop
    on the chunk that completes the sentinel, with the bytes before the
    sentinel as the recording.  The WebUSB flavour does not scan a buffer:
    isEOF holds of a transfer exactly when its first four bytes are the
    sentinel. *)
Theorem C1_serial_chunk_boundary_invariance : forall chunks : list (list Z),
  Serial.read_until_EOF [] chunks = Serial.findEOF (concat chunks) /\
  Serial.read_until_EOF [] [[0x10; 0xFF]; [0xFE; 0xFD]; [0xFC; 0x20]] = 1 /\
  (forall (ready : bool) (k : nat),
     Serial.findEOF (concat chunks) = Z.of_nat k ->
     exists (pre : list (list Z)) (value : list Z) (post : list (list Z)),
       chunks = pre ++ value :: post /\
       Serial.run (Serial.connected ready) (map Serial.Read (pre ++ [value])) =
       Serial.after_recording
         (Serial.set_audioBytes (Serial.connected ready)
            (firstn k (concat chunks)) true)) /\
  (forall data : list Z,
     WebUSB.isEOF data = true <-> firstn 4 data = [0xFF; 0xFE; 0xFD; 0xFC]).
Proof.
  intros chunks.
  assert (Hscan : Serial.read_until_EOF [] chunks = Serial.findEOF (concat chunks))
    by now rewrite read_until_EOF_scan.
  split; [exact Hscan|]. split; [reflexivity|]. split; [|apply isEOF_spec].
  intros ready k Hk. rewrite <- Hscan in Hk.
  exact (serial_run_completes chunks (Serial.connected ready) k eq_refl Hk).
Qed.

(** C1 fails in the WebUSB flavour: one scan of the six bytes finds the
    sentinel at offset 2 (and so does the Web Serial loop), but the WebUSB
    receiveLoop, given the same bytes in two transfers, keeps draining with
    the sentinel bytes stored as samples. *)
Lemma C1_webusb_split_sentinel_missed :
  Serial.findEOF (concat split_sentinel_chunks) = 2 /\
  Serial.read_until_EOF [] split_sentinel_chunks = 2 /\
  WebUSB.phase (WebUSB.run (WebUSB.connected true)
     (map (fun c => WebUSB.TransferIn (Some c)) split_sentinel_chunks)) = WebUSB.Draining /\
  WebUSB.audioChunks (WebUSB.run (WebUSB.connected true)
     (map (fun c => WebUSB.TransferIn (Some c)) split_sentinel_chunks)) =
    [[0x2010; -257]; [-771]] /\
  WebUSB.posted (WebUSB.run (WebUSB.connected true)
     (map (fun c => WebUSB.TransferIn (Some c)) split_sentinel_chunks)) = [].
Proof. repeat split; reflexivity. Qed.

(** ** Short recordings *)

Lemma after_recording_short (st : Serial.State) :
  (length (Serial.audioBytes st) < 512)%nat ->
  Serial.after_recording st = Serial.next_iteration st.
Proof.
  intros H. unfold Serial.after_recording.
  apply Nat.ltb_lt in H. now rewrite H.
Qed.

(** The WebUSB flavour posts whatever it drained, however short. *)
Lemma webusb_after_drain_posts (st : WebUSB.State) :
  WebUSB.audioChunks st <> [] -> WebUSB.modelReady st = true ->
  WebUSB.posted (WebUSB.after_drain st) =
  WebUSB.posted st ++ [concat (WebUSB.audioChunks st)].
Proof.
  intros Hne Hm. unfold WebUSB.after_drain.
  destruct (WebUSB.audioChunks st) as [|c cs]; [contradiction|].
  rewrite Hm. reflexivity.
Qed.

(** C3, Web Serial flavour: when a chunk completes a recording (the scan of
    the buffer finds the sentinel at offset k) of fewer than 512 bytes, the
    step ends in the next iteration of receiveLoop with an empty buffer and
    [recordingStarted] reset, nothing is posted to the worker and nothing is
    written; the same holds when the inner loop is left with fewer than 512
    bytes for another reason.  The WebUSB flavour has no minimum length:
    with the model ready it posts any recording of at least one chunk. *)
Theorem C3_serial_short_recording_discarded :
  forall (st : Serial.State) (value : list Z) (k : nat),
  Serial.reading st = true -> value <> [] ->
  Serial.findEOF (Serial.audioBytes st ++ value) = Z.of_nat k ->
  (k < 512)%nat ->
  length (firstn k (Serial.audioBytes st ++ value)) = k /\
  Serial.step st (Serial.Read value) = Serial.next_iteration st /\
  Serial.posted (Serial.step st (Serial.Read value)) = Serial.posted st /\
  Serial.written (Serial.step st (Serial.Read value)) = Serial.written st /\
  Serial.audioBytes (Serial.step st (Serial.Read value)) = [] /\
  Serial.recordingStarted (Serial.step st (Serial.Read value)) = false /\
  (forall st' : Serial.State, (length (Serial.audioBytes st') < 512)%nat ->
     Serial.after_recording st' = Serial.next_iteration st') /\
  (forall st' : WebUSB.State,
     WebUSB.audioChunks st' <> [] -> WebUSB.modelReady st' = true ->
     WebUSB.posted (WebUSB.after_drain st') =
     WebUSB.posted st' ++ [concat (WebUSB.audioChunks st')]).
Proof.
  intros st value k Hr Hne He Hk.
  assert (Hlen : length (firstn k (Serial.audioBytes st ++ value)) = k).
  { apply findEOF_first in He. destruct He as [Hm _].
    apply match_at_length in Hm. rewrite length_firstn. lia. }
  rewrite (serial_step_Read_eof st value k Hr Hne He).
  rewrite after_recording_short by (simpl; lia).
  repeat split; auto using after_recording_short, webusb_after_drain_posts.
Qed.

Lemma C3_serial_short_recording_witness :
  Serial.step (Serial.connected true)
    (Serial.Read [0x10; 0x20; 0x30; 0x40; 0xFF; 0xFE; 0xFD; 0xFC]) =
  Serial.next_iteration (Serial.connected true).
Proof.
  refine (proj1 (proj2 (C3_serial_short_recording_discarded
            (Serial.connected true)
            [0x10; 0x20; 0x30; 0x40; 0xFF; 0xFE; 0xFD; 0xFC] 4 _ _ _ _))).
  - reflexivity.
  - discriminate.
  - reflexivity.
  - lia.
Defined.

(** C3 fails in the WebUSB flavour: a four-byte recording, ended by a
    transfer that holds the sentinel, is posted to the worker. *)
Lemma C3_webusb_short_recording_dispatched :
  WebUSB.posted (WebUSB.run (WebUSB.connected true)
     [WebUSB.TransferIn (Some [0x10; 0x20; 0x30; 0x40]);
      WebUSB.TransferIn (Some [0xFF; 0xFE; 0xFD; 0xFC])]) = [[0x2010; 0x4030]].
Proof. reflexivity. Qed.

(** ** Spurious EOF in the WebUSB flavour *)

(** C10: in the WebUSB flavour, a transfer that begins with the sentinel and
    arrives while receiveLoop waits for the first chunk is ignored: the loop
    goes straight to its next iteration, still waiting, with no chunk
    stored, [recording] false, nothing posted and nothing written. *)
Theorem C10_webusb_spurious_EOF_ignored :
  forall (st : WebUSB.State) (data : list Z),
  WebUSB.device st = true -> WebUSB.phase st = WebUSB.Waiting ->
  firstn 4 data = [0xFF; 0xFE; 0xFD; 0xFC] ->
  WebUSB.step st (WebUSB.TransferIn (Some data)) = WebUSB.next_iteration st /\
  WebUSB.phase (WebUSB.step st (WebUSB.TransferIn (Some data))) = WebUSB.Waiting /\
  WebUSB.recording (WebUSB.step st (WebUSB.TransferIn (Some data))) = false /\
  WebUSB.audioChunks (WebUSB.step st (WebUSB.TransferIn (Some data))) = [] /\
  WebUSB.posted (WebUSB.step st (WebUSB.TransferIn (Some data))) = WebUSB.posted st /\
  WebUSB.written (WebUSB.step st (WebUSB.TransferIn (Some data))) = WebUSB.written st.
Proof.
  intros st data Hd Hp He. apply isEOF_spec in He.
  assert (Hs : WebUSB.step st (WebUSB.TransferIn (Some data)) = WebUSB.next_iteration st).
  { simpl. now rewrite Hd, Hp, He. }
  rewrite Hs. repeat split.
Qed.

Lemma C10_webusb_spurious_EOF_witness :
  WebUSB.step (WebUSB.connected true)
    (WebUSB.TransferIn (Some [0xFF; 0xFE; 0xFD; 0xFC; 0x10; 0x20])) =
  WebUSB.connected true.
Proof.
  exact (proj1 (C10_webusb_spurious_EOF_ignored (WebUSB.connected true)
                  [0xFF; 0xFE; 0xFD; 0xFC; 0x10; 0x20] eq_refl eq_refl eq_refl)).
Defined.

(** ** The reply framer *)

Lemma scalars_snoc_pair (c : Z) :
  JS.isHighSurrogate c = false -> JS.isLowSurrogate c = false ->
  forall s : JS.jsstring,
    JS.scalars (s ++ [c]) = JS.scalars s ++ [c] /\
    forall u : Z, JS.scalars ((u :: s) ++ [c]) = JS.scalars (u :: s) ++ [c].
Proof.
  intros Hh Hl. induction s as [|a s [IH1 IH2]].
  - assert (H0 : JS.scalars ([] ++ [c]) = JS.scalars [] ++ [c]).
    { simpl. now rewrite Hh, Hl. }
    split; [exact H0|].
    intros u. simpl. rewrite Hh, Hl.
    destruct (JS.isHighSurrogate u); [reflexivity|].
    destruct (JS.isLowSurrogate u); reflexivity.
  - split; [apply IH2|].
    intros u.
    change ((u :: a :: s) ++ [c]) with (u :: a :: (s ++ [c])).
    change (JS.scalars (u :: a :: (s ++ [c]))) with
      (if JS.isHighSurrogate u then
         if JS.isLowSurrogate a
         then (0x10000 + Z.shiftl (u - 0xD800) 10 + (a - 0xDC00)) :: JS.scalars (s ++ [c])
         else 0xFFFD :: JS.scalars (a :: (s ++ [c]))
       else if JS.isLowSurrogate u then 0xFFFD :: JS.scalars (a :: (s ++ [c]))
       else u :: JS.scalars (a :: (s ++ [c]))).
    change (JS.scalars (u :: a :: s)) with
      (if JS.isHighSurrogate u then
         if JS.isLowSurrogate a
         then (0x10000 + Z.shiftl (u - 0xD800) 10 + (a - 0xDC00)) :: JS.scalars s
         else 0xFFFD :: JS.scalars (a :: s)
       else if JS.isLowSurrogate u then 0xFFFD :: JS.scalars (a :: s)
       else u :: JS.scalars (a :: s)).
    change (a :: (s ++ [c])) with ((a :: s) ++ [c]).
    rewrite IH1, (IH2 a).
    destruct (JS.isHighSurrogate u), (JS.isLowSurrogate a), (JS.isLowSurrogate u);
      reflexivity.
Qed.

Lemma scalars_snoc (s : JS.jsstring) (c : Z) :
  JS.isHighSurrogate c = false -> JS.isLowSurrogate c = false ->
  JS.scalars (s ++ [c]) = JS.scalars s ++ [c].
Proof. intros Hh Hl. now apply scalars_snoc_pair. Qed.

(** Encoding [text + '\0'] gives the encoding of [text] and one zero byte. *)
Lemma encode_NUL (text : JS.jsstring) :
  JS.TextEncoder_encode (text ++ [0]) = JS.TextEncoder_encode text ++ [0].
Proof.
  unfold JS.TextEncoder_encode.
  rewrite scalars_snoc by reflexivity.
  rewrite flat_map_app. reflexivity.
Qed.


Lemma serial_sendText_written (st : Serial.State) (text : JS.jsstring) :
  Serial.written (Serial.sendText st text) =
  Serial.written st ++
    (if serial_can_write st then [JS.TextEncoder_encode text ++ [0]] else []).
Proof.
  unfold Serial.sendText, serial_can_write.
  destruct (Serial.port st) as [p|]; [destruct (Serial.writable p)|]; simpl;
    rewrite ?encode_NUL, ?app_nil_r; reflexivity.
Qed.

Lemma serial_sendText_frame (st : Serial.State) (text : JS.jsstring) :
  Serial.port (Serial.sendText st text) = Serial.port st /\
  Serial.modelReady (Serial.sendText st text) = Serial.modelReady st /\
  Serial.audioBytes (Serial.sendText st text) = Serial.audioBytes st /\
  Serial.recordingStarted (Serial.sendText st text) = Serial.recordingStarted st /\
  Serial.posted (Serial.sendText st text) = Serial.posted st.
Proof.
  unfold Serial.sendText.
  destruct (Serial.port st) as [p|] eqn:E; [destruct (Serial.writable p)|]; simpl;
    rewrite ?E; repeat split.
Qed.

Lemma serial_onmessage_transcript (st : Serial.State) (text : JS.jsstring) :
  Serial.onmessage_transcript st text = Serial.sendText st (serial_reply_text text).
Proof.
  unfold serial_reply_text, Serial.onmessage_transcript.
  destruct (JS.truthy text && JS.truthy (JS.trim text)); reflexivity.
Qed.

Lemma serial_step_transcript (st : Serial.State) (text : JS.jsstring) :
  Serial.step st (Serial.WorkerTranscript text) =
  Serial.sendText st (serial_reply_text text).
Proof. apply serial_onmessage_transcript. Qed.

Lemma after_recording_written (st : Serial.State) :
  Serial.written (Serial.after_recording st) = Serial.written st.
Proof.
  unfold Serial.after_recording.
  destruct (length (Serial.audioBytes st) <? 512)%nat; [reflexivity|].
  destruct (Serial.modelReady st); reflexivity.
Qed.

Lemma after_recording_port (st : Serial.State) :
  Serial.port (Serial.after_recording st) = Serial.port st.
Proof.
  unfold Serial.after_recording.
  destruct (length (Serial.audioBytes st) <? 512)%nat; [reflexivity|].
  destruct (Serial.modelReady st); reflexivity.
Qed.

(** What one step appends to the list of writes. *)
Lemma serial_step_written (st : Serial.State) (ev : Serial.Event) :
  Serial.written (Serial.step st ev) =
  Serial.written st ++
    match ev with
    | Serial.WorkerTranscript text =>
        if serial_can_write st
        then [JS.TextEncoder_encode (serial_reply_text text) ++ [0]] else []
    | _ => []
    end.
Proof.
  destruct ev as [value| | | | |text| |]; try (simpl; now rewrite app_nil_r).
  - simpl. destruct (Serial.reading st); [|now rewrite app_nil_r].
    unfold Serial.receiveLoop_read; destruct value as [|v vs]; cbv zeta; [now rewrite app_nil_r|].
    destruct (Serial.findEOF (Serial.audioBytes st ++ v :: vs) =? -1);
      rewrite ?after_recording_written; simpl; now rewrite app_nil_r.
  - simpl. destruct (Serial.reading st);
      rewrite ?after_recording_written; now rewrite app_nil_r.
  - simpl. destruct (Serial.reading st);
      rewrite ?after_recording_written; now rewrite app_nil_r.
  - rewrite serial_step_transcript. apply serial_sendText_written.
Qed.

Lemma serial_run_framed (evs : list Serial.Event) (st : Serial.State) :
  Forall framed (Serial.written st) ->
  Forall framed (Serial.written (Serial.run st evs)).
Proof.
  revert st; induction evs as [|ev evs IH]; intros st H; [exact H|].
  apply (IH (Serial.step st ev)).
  rewrite serial_step_written. apply Forall_app. split; [exact H|].
  destruct ev; try constructor.
  destruct (serial_can_write st); constructor; [|constructor].
  now exists (serial_reply_text text).
Qed.

(** C8: every write of the Web Serial flavour is the UTF-8 encoding of a
    text followed by one zero byte; sendText issues one write call with the
    whole message (none when the port is gone or not writable); a
    'transcript' message appends at most one write; for the engine result
    "hello" the one message written is the UTF-8 encoding of "hello "
    followed by 0x00. *)
Theorem C8_reply_is_utf8_then_NUL :
  forall (ready : bool) (evs : list Serial.Event),
  Forall framed (Serial.written (Serial.run (Serial.connected ready) evs)) /\
  (forall (st : Serial.State) (text : JS.jsstring),
     Serial.written (Serial.sendText st text) =
     Serial.written st ++
       (if serial_can_write st then [JS.TextEncoder_encode text ++ [0]] else [])) /\
  (forall (st : Serial.State) (text : JS.jsstring),
     Serial.written (Serial.step st (Serial.WorkerTranscript text)) =
     Serial.written st ++
       (if serial_can_write st
        then [JS.TextEncoder_encode (serial_reply_text text) ++ [0]] else [])) /\
  Serial.written (Serial.step (Serial.connected ready)
                    (Serial.WorkerTranscript (WorkerPeak.transcript_text hello))) =
    [JS.TextEncoder_encode (hello ++ [0x20]) ++ [0]] /\
  JS.TextEncoder_encode (hello ++ [0x20]) ++ [0] = [104; 101; 108; 108; 111; 32; 0].
Proof.
  intros ready evs.
  split; [apply serial_run_framed; constructor|].
  split; [apply serial_sendText_written|].
  split; [intros st text; apply (serial_step_written st (Serial.WorkerTranscript text))|].
  split; reflexivity.
Qed.

(** ** Empty transcripts *)

Lemma trimStart_whitespace (text : JS.jsstring) :
  forallb JS.isWhiteSpace text = true -> JS.trimStart text = [].
Proof.
  induction text as [|c rest IH]; simpl; [reflexivity|].
  intros H. apply andb_true_iff in H. destruct H as [Hc Hrest].
  rewrite Hc. now apply IH.
Qed.

Lemma trim_whitespace (text : JS.jsstring) :
  forallb JS.isWhiteSpace text = true -> JS.trim text = [].
Proof.
  intros H. unfold JS.trim. now rewrite trimStart_whitespace.
Qed.

Lemma serial_reply_text_empty (text : JS.jsstring) :
  JS.trim text = [] -> serial_reply_text text = [].
Proof.
  intros H. unfold serial_reply_text. rewrite H. simpl.
  now rewrite andb_false_r.
Qed.

(** The Web Serial flavour answers an empty or whitespace-only transcript
    with the single byte 0x00. *)
Lemma serial_empty_transcript_terminator (st : Serial.State) (text : JS.jsstring) :
  serial_can_write st = true ->
  text = [] \/ forallb JS.isWhiteSpace text = true ->
  Serial.written (Serial.step st (Serial.WorkerTranscript text)) =
  Serial.written st ++ [[0]].
Proof.
  intros Hw Ht.
  assert (Htrim : JS.trim text = []).
  { destruct Ht as [-> | Ht]; [reflexivity | now apply trim_whitespace]. }
  rewrite serial_step_written, Hw, serial_reply_text_empty by exact Htrim.
  reflexivity.
Qed.

(** C2 in the WebUSB flavour: a 'transcript' message with the empty text
    changes nothing, so no terminator is written; a text of one space is
    answered with two spaces and the terminator. *)
Theorem C2_webusb_empty_transcript_unanswered : forall st : WebUSB.State,
  WebUSB.step st (WebUSB.WorkerTranscript []) = st /\
  WebUSB.written (WebUSB.step (WebUSB.connected true) (WebUSB.WorkerTranscript [])) = [] /\
  WebUSB.written (WebUSB.step (WebUSB.connected true)
                    (WebUSB.WorkerTranscript (WorkerNaive.transcript_text [0x20; 0x20]))) = [] /\
  WebUSB.written (WebUSB.step (WebUSB.connected true) (WebUSB.WorkerTranscript [0x20])) =
    [[0x20; 0x20; 0]] /\
  Serial.written (Serial.step (Serial.connected true) (Serial.WorkerTranscript [])) = [[0]].
Proof. intros st. repeat split. Qed.

(** ** Ordering of requests and replies *)

Lemma after_recording_posted (st : Serial.State) :
  exists l, Serial.posted (Serial.after_recording st) = Serial.posted st ++ l /\
            (length l <= 1)%nat.
Proof.
  assert (Hnil : exists l, Serial.posted (Serial.next_iteration st) =
                             Serial.posted st ++ l /\ (length l <= 1)%nat)
    by (exists []; simpl; rewrite app_nil_r; split; [reflexivity | lia]).
  unfold Serial.after_recording.
  destruct (length (Serial.audioBytes st) <? 512)%nat; [exact Hnil|].
  destruct (Serial.modelReady st); [|exact Hnil].
  exists [Serial.to_Int16Array (Serial.audioBytes st)]. split; [reflexivity | simpl; lia].
Qed.

Lemma serial_step_burst (st : Serial.State) :
  Serial.reading st = true -> Serial.modelReady st = true ->
  Serial.audioBytes st = [] ->
  Serial.step st (Serial.Read recording_512) =
  Serial.mkState (Serial.port st) true [] false
                 (Serial.posted st ++ [repeat 0 256]) (Serial.written st).
Proof.
  intros Hr Hm Ha.
  assert (Hf : Serial.findEOF (Serial.audioBytes st ++ recording_512) = Z.of_nat 512)
    by (rewrite Ha; vm_compute; reflexivity).
  rewrite (serial_step_Read_eof st recording_512 512 Hr ltac:(discriminate) Hf).
  rewrite Ha.
  replace (firstn 512 ([] ++ recording_512)) with (repeat 0 512)
    by (vm_compute; reflexivity).
  unfold Serial.after_recording, Serial.set_audioBytes, Serial.postMessage,
    Serial.next_iteration.
  cbn [Serial.audioBytes Serial.modelReady Serial.port Serial.posted Serial.written
       Serial.recordingStarted].
  replace (length (repeat 0 512) <? 512)%nat with false by (vm_compute; reflexivity).
  rewrite Hm. cbn [negb].
  replace (Serial.to_Int16Array (repeat 0 512)) with (repeat 0 256%nat)
    by (vm_compute; reflexivity).
  reflexivity.
Qed.

(** Any number of recordings can be posted with no reply written. *)
Lemma serial_burst (n : nat) (st : Serial.State) :
  Serial.reading st = true -> Serial.modelReady st = true ->
  Serial.audioBytes st = [] ->
  Serial.posted (Serial.run st (repeat (Serial.Read recording_512) n)) =
    Serial.posted st ++ repeat (repeat 0 256%nat) n /\
  Serial.written (Serial.run st (repeat (Serial.Read recording_512) n)) =
    Serial.written st.
Proof.
  revert st; induction n as [|n IH]; intros st Hr Hm Ha.
  - simpl. now rewrite app_nil_r.
  - change (Serial.run st (repeat (Serial.Read recording_512) (S n)))
      with (Serial.run (Serial.step st (Serial.Read recording_512))
                       (repeat (Serial.Read recording_512) n)).
    rewrite (serial_step_burst st Hr Hm Ha).
    destruct (IH (Serial.mkState (Serial.port st) true [] false
                    (Serial.posted st ++ [repeat 0 256]) (Serial.written st)))
      as [Hp Hw]; [exact Hr | reflexivity | reflexivity |].
    rewrite Hp, Hw. cbn [Serial.posted Serial.written].
    rewrite <- app_assoc. split; reflexivity.
Qed.

(** *** The page with the lock of the writer *)

Lemma page_onmessage_transcript (st : SerialPage.State) (text : JS.jsstring) :
  SerialPage.onmessage_transcript st text = SerialPage.sendText st (serial_reply_text text).
Proof.
  unfold serial_reply_text, SerialPage.onmessage_transcript.
  destruct (JS.truthy text && JS.truthy (JS.trim text)); reflexivity.
Qed.

(** sendText writes when the port is there and writable and no earlier
    write is pending, and only then. *)
Lemma page_sendText_written (st : SerialPage.State) (text : JS.jsstring) :
  Serial.written (SerialPage.page (SerialPage.sendText st text)) =
  Serial.written (SerialPage.page st) ++
    (if serial_can_write (SerialPage.page st) && negb (SerialPage.writerLocked st)
     then [JS.TextEncoder_encode text ++ [0]] else []).
Proof.
  unfold SerialPage.sendText, serial_can_write.
  destruct (Serial.port (SerialPage.page st)) as [p|] eqn:E;
    [destruct (Serial.writable p) eqn:W; [destruct (SerialPage.writerLocked st)|]|];
    cbn [andb negb SerialPage.page]; rewrite ?app_nil_r; try reflexivity.
  rewrite serial_sendText_written. unfold serial_can_write. now rewrite E, W.
Qed.

Lemma page_sendText_frame (st : SerialPage.State) (text : JS.jsstring) :
  Serial.port (SerialPage.page (SerialPage.sendText st text)) =
    Serial.port (SerialPage.page st) /\
  Serial.posted (SerialPage.page (SerialPage.sendText st text)) =
    Serial.posted (SerialPage.page st) /\
  SerialPage.loopAlive (SerialPage.sendText st text) = SerialPage.loopAlive st /\
  SerialPage.writerLocked (SerialPage.sendText st text) =
    SerialPage.writerLocked st || serial_can_write (SerialPage.page st).
Proof.
  unfold SerialPage.sendText, serial_can_write.
  destruct (Serial.port (SerialPage.page st)) as [p|] eqn:E;
    [destruct (Serial.writable p) eqn:W; [destruct (SerialPage.writerLocked st) eqn:L|]|];
    cbn [SerialPage.page SerialPage.loopAlive SerialPage.writerLocked];
    repeat split; try reflexivity; try exact E; rewrite ?orb_false_r, ?L;
    try reflexivity.
  - rewrite (proj1 (serial_sendText_frame _ _)). exact E.
  - apply serial_sendText_frame.
Qed.

(** What one step of the page appends to the list of writes: the reply to a
    'transcript' message that finds the port writable and no write pending,
    and nothing else. *)
Lemma page_step_written (st : SerialPage.State) (ev : SerialPage.Event) :
  Serial.written (SerialPage.page (SerialPage.step st ev)) =
  Serial.written (SerialPage.page st) ++
    match ev with
    | SerialPage.Ev (Serial.WorkerTranscript text) =>
        if serial_can_write (SerialPage.page st) && negb (SerialPage.writerLocked st)
        then [JS.TextEncoder_encode (serial_reply_text text) ++ [0]] else []
    | _ => []
    end.
Proof.
  destruct ev as [[value| | | | |text| |]|]; try (simpl; now rewrite app_nil_r).
  - simpl. destruct (SerialPage.loopAlive st); [|now rewrite app_nil_r].
    unfold SerialPage.receiveLoop_read; destruct value as [|v vs]; cbv zeta;
      [now rewrite app_nil_r|].
    destruct (Serial.findEOF (Serial.audioBytes (SerialPage.page st) ++ v :: vs) =? -1);
      cbn [SerialPage.loop_head SerialPage.page]; rewrite ?after_recording_written;
      simpl; now rewrite app_nil_r.
  - simpl. destruct (SerialPage.loopAlive st); [|now rewrite app_nil_r].
    cbn [SerialPage.loop_head SerialPage.page]. rewrite after_recording_written.
    now rewrite app_nil_r.
  - simpl. destruct (SerialPage.loopAlive st); [|now rewrite app_nil_r].
    unfold SerialPage.receiveLoop_catch.
    destruct (Serial.port (SerialPage.page st));
      cbn [SerialPage.loop_head SerialPage.page]; rewrite ?after_recording_written;
      now rewrite app_nil_r.
  - cbn [SerialPage.step]. rewrite page_onmessage_transcript. apply page_sendText_written.
Qed.

Lemma page_step_port (st : SerialPage.State) (ev : SerialPage.Event) :
  page_is_disconnect ev = false ->
  Serial.port (SerialPage.page (SerialPage.step st ev)) = Serial.port (SerialPage.page st).
Proof.
  destruct ev as [[value| | | | |text| |]|]; simpl; intros H; try discriminate;
    try reflexivity.
  - destruct (SerialPage.loopAlive st); [|reflexivity].
    unfold SerialPage.receiveLoop_read; destruct value as [|v vs]; cbv zeta; [reflexivity|].
    destruct (Serial.findEOF (Serial.audioBytes (SerialPage.page st) ++ v :: vs) =? -1);
      cbn [SerialPage.loop_head SerialPage.page]; rewrite ?after_recording_port; reflexivity.
  - destruct (SerialPage.loopAlive st); [|reflexivity].
    cbn [SerialPage.loop_head SerialPage.page]. now rewrite after_recording_port.
  - destruct (SerialPage.loopAlive st); [|reflexivity].
    unfold SerialPage.receiveLoop_catch.
    destruct (Serial.port (SerialPage.page st)) eqn:E;
      cbn [SerialPage.loop_head SerialPage.page]; rewrite ?after_recording_port; now rewrite ?E.
  - rewrite page_onmessage_transcript. apply page_sendText_frame.
Qed.

(** The lock is taken by the sendText that writes and released when the
    write settles. *)
Lemma page_step_locked (st : SerialPage.State) (ev : SerialPage.Event) :
  SerialPage.writerLocked (SerialPage.step st ev) =
  match ev with
  | SerialPage.WriteSettled => false
  | SerialPage.Ev (Serial.WorkerTranscript _) =>
      SerialPage.writerLocked st || serial_can_write (SerialPage.page st)
  | _ => SerialPage.writerLocked st
  end.
Proof.
  destruct ev as [[value| | | | |text| |]|]; simpl; try reflexivity.
  - destruct (SerialPage.loopAlive st); [|reflexivity].
    unfold SerialPage.receiveLoop_read; destruct value as [|v vs]; cbv zeta; [reflexivity|].
    destruct (Serial.findEOF (Serial.audioBytes (SerialPage.page st) ++ v :: vs) =? -1);
      reflexivity.
  - destruct (SerialPage.loopAlive st); reflexivity.
  - destruct (SerialPage.loopAlive st); [|reflexivity].
    unfold SerialPage.receiveLoop_catch.
    destruct (Serial.port (SerialPage.page st)); reflexivity.
  - rewrite page_onmessage_transcript. apply page_sendText_frame.
Qed.

Lemma page_run_written (evs : list SerialPage.Event) (st : SerialPage.State) :
  serial_can_write (SerialPage.page st) = true ->
  existsb page_is_disconnect evs = false ->
  writes_settle (SerialPage.writerLocked st) evs = true ->
  Serial.written (SerialPage.page (SerialPage.run st evs)) =
  Serial.written (SerialPage.page st) ++ page_replies evs.
Proof.
  revert st; induction evs as [|ev evs IH]; intros st Hw Hd Hs.
  - simpl. now rewrite app_nil_r.
  - simpl in Hd. apply orb_false_iff in Hd. destruct Hd as [Hev Hevs].
    change (SerialPage.run st (ev :: evs)) with (SerialPage.run (SerialPage.step st ev) evs).
    assert (Hw' : serial_can_write (SerialPage.page (SerialPage.step st ev)) = true)
      by (unfold serial_can_write; rewrite page_step_port by exact Hev; exact Hw).
    assert (Hs' : writes_settle (SerialPage.writerLocked (SerialPage.step st ev)) evs = true /\
                  match ev with
                  | SerialPage.Ev (Serial.WorkerTranscript _) =>
                      SerialPage.writerLocked st = false
                  | _ => True
                  end).
    { rewrite page_step_locked.
      destruct ev as [[value| | | | |text| |]|]; cbn [writes_settle] in Hs;
        try (split; [exact Hs | exact I]).
      apply andb_true_iff in Hs. destruct Hs as [Hl Hs].
      apply negb_true_iff in Hl. rewrite Hl, Hw. split; [exact Hs | reflexivity]. }
    destruct Hs' as [Hs' Hl].
    rewrite (IH _ Hw' Hevs Hs'), page_step_written, <- app_assoc. f_equal.
    destruct ev as [[value| | | | |text| |]|]; try reflexivity.
    rewrite Hw, Hl. reflexivity.
Qed.

(** Every step of the page appends at most one request, and never removes
    or reorders one. *)
Lemma page_step_posted (st : SerialPage.State) (ev : SerialPage.Event) :
  exists l, Serial.posted (SerialPage.page (SerialPage.step st ev)) =
              Serial.posted (SerialPage.page st) ++ l /\
            (length l <= 1)%nat.
Proof.
  assert (Hnil : exists l, Serial.posted (SerialPage.page st) =
                             Serial.posted (SerialPage.page st) ++ l /\ (length l <= 1)%nat)
    by (exists []; rewrite app_nil_r; split; [reflexivity | simpl; lia]).
  destruct ev as [[value| | | | |text| |]|]; simpl; try exact Hnil.
  - destruct (SerialPage.loopAlive st); [|exact Hnil].
    unfold SerialPage.receiveLoop_read; destruct value as [|v vs]; cbv zeta; [exact Hnil|].
    destruct (Serial.findEOF (Serial.audioBytes (SerialPage.page st) ++ v :: vs) =? -1);
      [exact Hnil|].
    apply (after_recording_posted
             (Serial.set_audioBytes (SerialPage.page st)
                (firstn (Z.to_nat (Serial.findEOF
                                     (Serial.audioBytes (SerialPage.page st) ++ v :: vs)))
                        (Serial.audioBytes (SerialPage.page st) ++ v :: vs)) true)).
  - destruct (SerialPage.loopAlive st); [apply after_recording_posted | exact Hnil].
  - destruct (SerialPage.loopAlive st); [|exact Hnil].
    unfold SerialPage.receiveLoop_catch.
    destruct (Serial.port (SerialPage.page st)); [apply after_recording_posted | exact Hnil].
  - rewrite page_onmessage_transcript.
    rewrite (proj1 (proj2 (page_sendText_frame st _))). exact Hnil.
Qed.

(** The chunk that completes an accepted recording posts its request,
    whether or not the port is still set. *)
Lemma page_step_Read_accepted (st : SerialPage.State) (value : list Z) (k : nat) :
  SerialPage.loopAlive st = true -> value <> [] ->
  Serial.findEOF (Serial.audioBytes (SerialPage.page st) ++ value) = Z.of_nat k ->
  (512 <= k)%nat -> Serial.modelReady (SerialPage.page st) = true ->
  Serial.posted (SerialPage.page (SerialPage.step st (SerialPage.Ev (Serial.Read value)))) =
  Serial.posted (SerialPage.page st) ++
    [Serial.to_Int16Array (firstn k (Serial.audioBytes (SerialPage.page st) ++ value))].
Proof.
  intros Ha Hne He Hk Hm. destruct value as [|v vs]; [contradiction|].
  cbn [SerialPage.step]. rewrite Ha. unfold SerialPage.receiveLoop_read. cbv zeta.
  rewrite He. destruct (Z.of_nat k =? -1) eqn:E; [apply Z.eqb_eq in E; lia|].
  rewrite Nat2Z.id. cbn [SerialPage.loop_head SerialPage.page].
  unfold Serial.after_recording. simpl Serial.audioBytes.
  assert (Hlen : length (firstn k (Serial.audioBytes (SerialPage.page st) ++ v :: vs)) = k).
  { apply findEOF_first in He. destruct He as [Hma _].
    apply match_at_length in Hma. rewrite length_firstn. lia. }
  rewrite Hlen.
  destruct (k <? 512)%nat eqn:E'; [apply Nat.ltb_lt in E'; lia|].
  simpl. rewrite Hm. reflexivity.
Qed.

Lemma serial_page_simulates_step (p : Serial.State) (ev : Serial.Event) :
  is_disconnect ev = false ->
  SerialPage.run (SerialPage.mkState p (Serial.reading p) false) (settled [ev]) =
  SerialPage.mkState (Serial.step p ev) (Serial.reading (Serial.step p ev)) false.
Proof.
  intros Hd.
  assert (Hsame : forall q, Serial.port q = Serial.port p ->
                            Serial.reading q = Serial.reading p)
    by (intros q Hq; unfold Serial.reading; now rewrite Hq).
  destruct ev as [value| | | | |text| |]; try discriminate;
    cbn [settled flat_map app SerialPage.run fold_left SerialPage.step
         SerialPage.loopAlive SerialPage.page SerialPage.writerLocked Serial.step].
  - destruct (Serial.reading p) eqn:R; [|now rewrite R].
    unfold SerialPage.receiveLoop_read, Serial.receiveLoop_read.
    destruct value as [|v vs]; cbv zeta;
      cbn [SerialPage.loopAlive SerialPage.page SerialPage.writerLocked]; [now rewrite R|].
    destruct (Serial.findEOF (Serial.audioBytes p ++ v :: vs) =? -1); [|reflexivity].
    rewrite (Hsame (Serial.set_audioBytes p _ true) eq_refl). reflexivity.
  - destruct (Serial.reading p) eqn:R; [reflexivity | now rewrite R].
  - destruct (Serial.reading p) eqn:R; [|now rewrite R].
    unfold SerialPage.receiveLoop_catch. cbn [SerialPage.page].
    unfold Serial.reading in R. destruct (Serial.port p); [reflexivity | discriminate].
  - rewrite (Hsame (Serial.onmessage_ready p) eq_refl). reflexivity.
  - reflexivity.
  - rewrite page_onmessage_transcript, serial_onmessage_transcript.
    rewrite (Hsame (Serial.sendText p (serial_reply_text text))
               (proj1 (serial_sendText_frame p _))).
    unfold SerialPage.sendText, Serial.sendText.
    cbn [SerialPage.page SerialPage.loopAlive SerialPage.writerLocked].
    destruct (Serial.port p) as [q|]; [destruct (Serial.writable q)|]; reflexivity.
  - reflexivity.
Qed.

(** [SerialPage] agrees with [Serial] on the traces [Serial] is about: no
    disconnect, and every write settled before the next 'transcript'
    message. *)
Lemma serial_page_simulates (evs : list Serial.Event) (p : Serial.State) :
  existsb is_disconnect evs = false ->
  SerialPage.run (SerialPage.mkState p (Serial.reading p) false) (settled evs) =
  SerialPage.mkState (Serial.run p evs) (Serial.reading (Serial.run p evs)) false.
Proof.
  revert p; induction evs as [|ev evs IH]; intros p Hd; [reflexivity|].
  simpl in Hd. apply orb_false_iff in Hd. destruct Hd as [Hev Hevs].
  assert (Hc : settled (ev :: evs) = settled [ev] ++ settled evs)
    by (unfold settled; cbn [flat_map]; now rewrite app_nil_r).
  rewrite Hc. unfold SerialPage.run at 1. rewrite fold_left_app.
  change (fold_left SerialPage.step (settled [ev])
            (SerialPage.mkState p (Serial.reading p) false))
    with (SerialPage.run (SerialPage.mkState p (Serial.reading p) false) (settled [ev])).
  rewrite (serial_page_simulates_step p ev Hev).
  apply (IH (Serial.step p ev) Hevs).
Qed.

Lemma settled_reads (value : list Z) (n : nat) :
  settled (repeat (Serial.Read value) n) = repeat (SerialPage.Ev (Serial.Read value)) n.
Proof.
  induction n as [|n IH]; [reflexivity|].
  change (settled (repeat (Serial.Read value) (S n)))
    with (SerialPage.Ev (Serial.Read value) :: settled (repeat (Serial.Read value) n)).
  now rewrite IH.
Qed.

(** Any number of recordings can be posted with no reply written. *)
Lemma page_burst (n : nat) :
  Serial.posted (SerialPage.page
    (SerialPage.run (SerialPage.connected true)
       (repeat (SerialPage.Ev (Serial.Read recording_512)) n))) = repeat (repeat 0 256%nat) n /\
  Serial.written (SerialPage.page
    (SerialPage.run (SerialPage.connected true)
       (repeat (SerialPage.Ev (Serial.Read recording_512)) n))) = [].
Proof.
  assert (Hd : existsb is_disconnect (repeat (Serial.Read recording_512) n) = false)
    by (induction n; [reflexivity | exact IHn]).
  pose proof (serial_page_simulates _ (Serial.connected true) Hd) as Hsim.
  rewrite settled_reads in Hsim.
  change (SerialPage.mkState (Serial.connected true)
            (Serial.reading (Serial.connected true)) false)
    with (SerialPage.connected true) in Hsim.
  rewrite Hsim. cbn [SerialPage.page].
  destruct (serial_burst n (Serial.connected true)) as [Hp Hw]; try reflexivity.
  rewrite Hp, Hw. split; reflexivity.
Qed.

(** C4, as the Web Serial flavour has it.  While the port stays connected
    and writable and no 'transcript' message arrives while the write of an
    earlier one is pending, the writes of a run are the replies to its
    'transcript' messages, one each and in their order.  One step writes
    the reply to a 'transcript' message that finds the port writable and no
    write pending, and nothing otherwise; a step posts at most one request
    and never reorders the requests posted before; the chunk whose scan
    finds the sentinel of an accepted recording (512 bytes or more, model
    ready) posts the request for that recording.  The number of requests
    posted and not yet answered has no bound: n recordings in a row give n
    requests with nothing written. *)
Theorem C4_serial_replies_follow_results :
  forall (st : SerialPage.State) (evs : list SerialPage.Event),
  serial_can_write (SerialPage.page st) = true ->
  existsb page_is_disconnect evs = false ->
  writes_settle (SerialPage.writerLocked st) evs = true ->
  Serial.written (SerialPage.page (SerialPage.run st evs)) =
    Serial.written (SerialPage.page st) ++ page_replies evs /\
  (forall (st' : SerialPage.State) (ev : SerialPage.Event),
     Serial.written (SerialPage.page (SerialPage.step st' ev)) =
     Serial.written (SerialPage.page st') ++
       match ev with
       | SerialPage.Ev (Serial.WorkerTranscript text) =>
           if serial_can_write (SerialPage.page st') && negb (SerialPage.writerLocked st')
           then [JS.TextEncoder_encode (serial_reply_text text) ++ [0]] else []
       | _ => []
       end) /\
  (forall (st' : SerialPage.State) (ev : SerialPage.Event),
     exists l, Serial.posted (SerialPage.page (SerialPage.step st' ev)) =
                 Serial.posted (SerialPage.page st') ++ l /\
               (length l <= 1)%nat) /\
  (forall (st' : SerialPage.State) (value : list Z) (k : nat),
     SerialPage.loopAlive st' = true -> value <> [] ->
     Serial.findEOF (Serial.audioBytes (SerialPage.page st') ++ value) = Z.of_nat k ->
     (512 <= k)%nat -> Serial.modelReady (SerialPage.page st') = true ->
     Serial.posted (SerialPage.page
                      (SerialPage.step st' (SerialPage.Ev (Serial.Read value)))) =
     Serial.posted (SerialPage.page st') ++
       [Serial.to_Int16Array
          (firstn k (Serial.audioBytes (SerialPage.page st') ++ value))]) /\
  (forall n : nat,
     length (Serial.posted (SerialPage.page
               (SerialPage.run (SerialPage.connected true)
                  (repeat (SerialPage.Ev (Serial.Read recording_512)) n)))) = n /\
     Serial.written (SerialPage.page
       (SerialPage.run (SerialPage.connected true)
          (repeat (SerialPage.Ev (Serial.Read recording_512)) n))) = []).
Proof.
  intros st evs Hw Hd Hs.
  split; [now apply page_run_written|].
  split; [apply page_step_written|].
  split; [apply page_step_posted|].
  split; [apply page_step_Read_accepted|].
  intros n. destruct (page_burst n) as [Hp Hwr].
  rewrite Hp, Hwr. split; [apply repeat_length | reflexivity].
Qed.

Lemma C4_serial_replies_witness :
  Serial.written
    (SerialPage.page
       (SerialPage.run (SerialPage.connected true)
          [SerialPage.Ev (Serial.Read recording_512);
           SerialPage.Ev (Serial.WorkerTranscript hello);
           SerialPage.WriteSettled;
           SerialPage.Ev (Serial.Read recording_512);
           SerialPage.Ev (Serial.WorkerTranscript [])])) =
  [[104; 101; 108; 108; 111; 32; 0]; [0]].
Proof.
  exact (proj1 (C4_serial_replies_follow_results (SerialPage.connected true)
                  [SerialPage.Ev (Serial.Read recording_512);
                   SerialPage.Ev (Serial.WorkerTranscript hello);
                   SerialPage.WriteSettled;
                   SerialPage.Ev (Serial.Read recording_512);
                   SerialPage.Ev (Serial.WorkerTranscript [])]
                  eq_refl eq_refl eq_refl)).
Defined.

(** A 'transcript' message that arrives while the write of the reply before
    it is pending gets no reply: getWriter() throws on the locked stream. *)
Lemma page_reply_dropped_while_pending :
  Serial.written
    (SerialPage.page
       (SerialPage.run (SerialPage.connected true)
          [SerialPage.Ev (Serial.WorkerTranscript hello);
           SerialPage.Ev (Serial.WorkerTranscript []);
           SerialPage.WriteSettled])) =
  [[104; 101; 108; 108; 111; 32; 0]].
Proof. vm_compute; reflexivity. Qed.

(** C4 fails on the number of requests in flight: two recordings that reach
    the port one after the other are both posted to the worker before any
    result has come back and before any reply is written.  Both flavours of
    receiveLoop go on reading right after postMessage. *)
Lemma C4_two_requests_in_flight :
  Serial.posted (Serial.run (Serial.connected true)
     [Serial.Read recording_512; Serial.Read recording_512]) =
    [repeat 0 256%nat; repeat 0 256%nat] /\
  Serial.written (Serial.run (Serial.connected true)
     [Serial.Read recording_512; Serial.Read recording_512]) = [] /\
  WebUSB.posted (WebUSB.run (WebUSB.connected true)
     [WebUSB.TransferIn (Some [0x10; 0x20]); WebUSB.TransferIn (Some Serial.EOF_MARKER);
      WebUSB.TransferIn (Some [0x30; 0x40]); WebUSB.TransferIn (Some Serial.EOF_MARKER)]) =
    [[0x2010]; [0x4030]] /\
  WebUSB.written (WebUSB.run (WebUSB.connected true)
     [WebUSB.TransferIn (Some [0x10; 0x20]); WebUSB.TransferIn (Some Serial.EOF_MARKER);
      WebUSB.TransferIn (Some [0x30; 0x40]); WebUSB.TransferIn (Some Serial.EOF_MARKER)]) = [].
Proof. repeat split; vm_compute; reflexivity. Qed.

(** ** Normalisation *)

Lemma peak_fold_spec (audioData : list Z) (a : Z) :
  let f := fun peak x => let abs := Z.abs x in if peak <? abs then abs else peak in
  a <= fold_left f audioData a /\
  (forall x, In x audioData -> Z.abs x <= fold_left f audioData a) /\
  (fold_left f audioData a = a \/
   exists x, In x audioData /\ Z.abs x = fold_left f audioData a).
Proof.
  intros f. revert a; induction audioData as [|y rest IH]; intros a; simpl.
  - split; [lia|]. split; [intros x []| now left].
  - destruct (IH (f a y)) as [Hge [Hall Hatt]].
    assert (Hf : a <= f a y /\ Z.abs y <= f a y /\ (f a y = a \/ f a y = Z.abs y)).
    { unfold f; simpl. destruct (a <? Z.abs y) eqn:E;
        [apply Z.ltb_lt in E | apply Z.ltb_ge in E]; lia. }
    destruct Hf as [Hf1 [Hf2 Hf3]].
    split; [lia|]. split.
    + intros x [<- | Hx]; [lia | now apply Hall].
    + destruct Hatt as [Heq | [x [Hx Hax]]].
      * destruct Hf3 as [Hf3 | Hf3].
        -- left. lia.
        -- right. exists y. split; [now left | lia].
      * right. exists x. split; [now right | exact Hax].
Qed.

(** The peak scan computes the largest absolute value of the buffer. *)
Lemma peak_spec (audioData : list Z) :
  0 <= WorkerPeak.peak audioData /\
  (forall x, In x audioData -> Z.abs x <= WorkerPeak.peak audioData) /\
  (WorkerPeak.peak audioData = 0 \/
   exists x, In x audioData /\ Z.abs x = WorkerPeak.peak audioData).
Proof. exact (peak_fold_spec audioData 0). Qed.

Lemma peak_int16 (audioData : list Z) :
  Forall is_int16 audioData -> WorkerPeak.peak audioData <= 32768.
Proof.
  intros H. destruct (peak_spec audioData) as [_ [_ [H0 | [x [Hx Hax]]]]]; [lia|].
  rewrite Forall_forall in H. specialize (H x Hx). unfold is_int16 in H. lia.
Qed.

Lemma is_zero_inject_Z (z : Z) : Number.is_zero (inject_Z z) = (z =? 0).
Proof.
  unfold Number.is_zero, Qeq_bool, inject_Z. simpl.
  rewrite Z.mul_1_r. destruct z; reflexivity.
Qed.

Lemma div_int_finite {R : Number.Rounding} (a : Q) (z : Z) :
  z <> 0 ->
  Number.div (Number.Finite a) (Number.of_int z) =
  Number.Finite (Number.rnd64 (a / inject_Z z)).
Proof.
  intros Hz. unfold Number.div, Number.of_int. rewrite is_zero_inject_Z.
  destruct (z =? 0) eqn:E; [apply Z.eqb_eq in E; contradiction | reflexivity].
Qed.

Section RoundingFacts.
Context {R : Number.Rounding} {L : Number.RoundingLaws R}.
Import Number.
Open Scope Q_scope.

Lemma rnd64_proper (x y : Q) : x == y -> rnd64 x == rnd64 y.
Proof.
  intros H. apply Qle_antisym; apply rnd64_mono; rewrite H; apply Qle_refl.
Qed.

Lemma rnd32_proper (x y : Q) : x == y -> rnd32 x == rnd32 y.
Proof.
  intros H. apply Qle_antisym; apply rnd32_mono; rewrite H; apply Qle_refl.
Qed.

Lemma rnd64_unit (x : Q) : -1 <= x <= 1 -> -1 <= rnd64 x <= 1.
Proof.
  intros [Hlo Hhi].
  pose proof (rnd64_dyadic 1 0 ltac:(simpl; lia) ltac:(lia)) as H1.
  pose proof (rnd64_dyadic (-1) 0 ltac:(simpl; lia) ltac:(lia)) as Hm1.
  simpl in H1, Hm1.
  assert (E1 : rnd64 1 == 1).
  { rewrite <- H1 at 2. apply rnd64_proper. reflexivity. }
  assert (Em1 : rnd64 (-1) == -1).
  { rewrite <- Hm1 at 2. apply rnd64_proper. reflexivity. }
  split.
  - rewrite <- Em1. now apply rnd64_mono.
  - rewrite <- E1. now apply rnd64_mono.
Qed.

Lemma rnd32_unit (x : Q) : -1 <= x <= 1 -> -1 <= rnd32 x <= 1.
Proof.
  intros [Hlo Hhi].
  pose proof (rnd32_dyadic 1 0 ltac:(simpl; lia) ltac:(lia)) as H1.
  pose proof (rnd32_dyadic (-1) 0 ltac:(simpl; lia) ltac:(lia)) as Hm1.
  simpl in H1, Hm1.
  assert (E1 : rnd32 1 == 1).
  { rewrite <- H1 at 2. apply rnd32_proper. reflexivity. }
  assert (Em1 : rnd32 (-1) == -1).
  { rewrite <- Hm1 at 2. apply rnd32_proper. reflexivity. }
  split.
  - rewrite <- Em1. now apply rnd32_mono.
  - rewrite <- E1. now apply rnd32_mono.
Qed.

(** Binary64 rounding is within a thousandth, with much room to spare. *)
Lemma rnd64_close (x : Q) :
  1 # 1000000 <= x -> x <= 1 ->
  x * (999 # 1000) <= rnd64 x <= x * (1001 # 1000).
Proof.
  intros Hlo Hhi.
  assert (Hx : Qabs x == x) by (apply Qabs_pos; lra).
  assert (He : Qabs (rnd64 x - x) <= (1 # 2 ^ 53) * x).
  { rewrite <- Hx at 3. apply rnd64_error; rewrite Hx; assumption. }
  apply Qabs_Qle_condition in He. destruct He as [He1 He2].
  assert (Eps : (1 # 2 ^ 53) * x <= (1 # 1000) * x).
  { apply Qmult_le_compat_r; [|lra]. unfold Qle; simpl; lia. }
  lra.
Qed.

Lemma rnd64_close_neg (x : Q) :
  -1 <= x -> x <= - (1 # 1000000) ->
  x * (1001 # 1000) <= rnd64 x <= x * (999 # 1000).
Proof.
  intros Hlo Hhi.
  assert (Hx : Qabs x == - x) by (apply Qabs_neg; lra).
  assert (He : Qabs (rnd64 x - x) <= (1 # 2 ^ 53) * - x).
  { rewrite <- Hx. apply rnd64_error; rewrite Hx; lra. }
  apply Qabs_Qle_condition in He. destruct He as [He1 He2].
  assert (Eps : (1 # 2 ^ 53) * - x <= (1 # 1000) * - x).
  { apply Qmult_le_compat_r; [|lra]. unfold Qle; simpl; lia. }
  lra.
Qed.

End RoundingFacts.

Lemma inject_Z_abs_le (x p : Z) :
  Z.abs x <= p -> (- inject_Z p <= inject_Z x <= inject_Z p)%Q.
Proof.
  intros H. split.
  - rewrite <- inject_Z_opp. rewrite <- Zle_Qle. lia.
  - rewrite <- Zle_Qle. lia.
Qed.

Section NormalisationFacts.
Context {R : Number.Rounding} {L : Number.RoundingLaws R}.
Import Number.
Open Scope Q_scope.

(** Dividing an int16 sample by 32768 is exact, in binary64 and after the
    store into the Float32Array. *)
Lemma naive_sample_exact (x : Z) :
  is_int16 x ->
  rnd32 (rnd64 (inject_Z x / inject_Z 32768)) == inject_Z x / inject_Z 32768.
Proof.
  intros Hx. unfold is_int16 in Hx.
  assert (H64 : rnd64 (inject_Z x / inject_Z 32768) == inject_Z x / inject_Z 32768).
  { exact (rnd64_dyadic x 15 ltac:(simpl; lia) ltac:(lia)). }
  rewrite (rnd32_proper _ _ H64).
  exact (rnd32_dyadic x 15 ltac:(simpl; lia) ltac:(lia)).
Qed.

Lemma naive_sample_bounded (x : Z) :
  is_int16 x ->
  unit_bounded (to_float32 (div (of_int x) (of_int 32768))).
Proof.
  intros Hx. exists (rnd32 (rnd64 (inject_Z x / inject_Z 32768))).
  split; [reflexivity|].
  rewrite (naive_sample_exact x Hx).
  apply Qabs_Qle_condition.
  destruct (inject_Z_abs_le x 32768) as [Hlo Hhi]; [unfold is_int16 in Hx; lia|].
  change (inject_Z 32768) with (32768 # 1) in *.
  split.
  - apply Qle_shift_div_l; [reflexivity | lra].
  - apply Qle_shift_div_r; [reflexivity | lra].
Qed.

(** A sample times a scale that maps the peak into the unit interval. *)
Lemma scaled_sample_bounded (x p : Z) (sc : Q) :
  (Z.abs x <= p)%Z -> 0 <= sc -> sc * inject_Z p <= 1 ->
  unit_bounded (to_float32 (mul (of_int x) (Finite sc))).
Proof.
  intros Hx Hsc Hp. exists (rnd32 (rnd64 (inject_Z x * sc))).
  split; [reflexivity|].
  apply Qabs_Qle_condition. apply rnd32_unit. apply rnd64_unit.
  destruct (inject_Z_abs_le x p Hx) as [Hlo Hhi]. nra.
Qed.

Lemma fallback_scale :
  div (of_int 1) (of_int 32768) = Finite (rnd64 (1 / inject_Z 32768)) /\
  rnd64 (1 / inject_Z 32768) == 1 # 32768.
Proof.
  split; [reflexivity|].
  rewrite (rnd64_dyadic 1 15 ltac:(simpl; lia) ltac:(lia)). reflexivity.
Qed.

Lemma peak_scale_bound (p : Z) :
  (50 < p <= 32768)%Z ->
  0 <= rnd64 (rnd64 (9 # 10) / inject_Z p) /\
  rnd64 (rnd64 (9 # 10) / inject_Z p) * inject_Z p <= 1.
Proof.
  intros Hp.
  assert (HP : 51 <= inject_Z p <= 32768).
  { split; [change 51 with (inject_Z 51) | change 32768 with (inject_Z 32768)];
      rewrite <- Zle_Qle; lia. }
  destruct (rnd64_close (9 # 10)) as [Hc1 Hc2]; [lra | lra |].
  set (c := rnd64 (9 # 10)) in *.
  assert (Hy : c / inject_Z p * inject_Z p == c).
  { field. intros H0. rewrite H0 in HP. lra. }
  assert (Hy1 : 1 # 1000000 <= c / inject_Z p).
  { apply Qle_shift_div_l; [lra | nra]. }
  assert (Hy2 : c / inject_Z p <= 1).
  { apply Qle_shift_div_r; [lra | nra]. }
  destruct (rnd64_close (c / inject_Z p) Hy1 Hy2) as [Hs1 Hs2].
  set (y := c / inject_Z p) in *.
  split; [nra|]. nra.
Qed.

Lemma peak_samples_bounded (audioData : list Z) :
  Forall is_int16 audioData ->
  Forall unit_bounded (WorkerPeak.float32 audioData).
Proof.
  intros Hint. unfold WorkerPeak.float32. apply Forall_forall.
  intros y Hy. apply in_map_iff in Hy. destruct Hy as [x [<- Hx]].
  destruct (peak_spec audioData) as [Hp0 [Hall _]].
  pose proof (peak_int16 audioData Hint) as Hp1.
  pose proof (Hall x Hx) as Hxp.
  unfold WorkerPeak.scale.
  destruct (50 <? WorkerPeak.peak audioData)%Z eqn:E.
  - apply Z.ltb_lt in E. unfold lit_0_9.
    rewrite div_int_finite by lia.
    destruct (peak_scale_bound (WorkerPeak.peak audioData)) as [Hs0 Hs1]; [lia|].
    now apply scaled_sample_bounded with (p := WorkerPeak.peak audioData).
  - apply Z.ltb_ge in E.
    destruct fallback_scale as [-> Hf].
    apply scaled_sample_bounded with (p := 50%Z); [lia | rewrite Hf; lra |].
    rewrite Hf. unfold Qle; simpl; lia.
Qed.

Lemma rnd32_between (lo hi : Z) (v : Q) :
  (Z.abs lo <= 2 ^ 24)%Z -> (Z.abs hi <= 2 ^ 24)%Z ->
  inject_Z lo / inject_Z 256 <= v <= inject_Z hi / inject_Z 256 ->
  inject_Z lo / inject_Z 256 <= rnd32 v <= inject_Z hi / inject_Z 256.
Proof.
  intros Hlo Hhi [H1 H2]. split.
  - rewrite <- (rnd32_dyadic lo 8 Hlo ltac:(lia)). now apply rnd32_mono.
  - rewrite <- (rnd32_dyadic hi 8 Hhi ltac:(lia)). now apply rnd32_mono.
Qed.

(** With the scale 0.9 / peak, a sample of peak magnitude lands within
    0.01 of 0.9. *)
Lemma peak_sample_near_0_9 (p x : Z) :
  (50 < p <= 32768)%Z -> Z.abs x = p ->
  exists q : Q,
    to_float32 (mul (of_int x) (Finite (rnd64 (rnd64 (9 # 10) / inject_Z p)))) = Finite q /\
    57 # 64 <= Qabs q <= 233 # 256.
Proof.
  intros Hp Hx.
  exists (rnd32 (rnd64 (inject_Z x * rnd64 (rnd64 (9 # 10) / inject_Z p)))).
  split; [reflexivity|].
  assert (HP : 51 <= inject_Z p <= 32768).
  { split; [change 51 with (inject_Z 51) | change 32768 with (inject_Z 32768)];
      rewrite <- Zle_Qle; lia. }
  destruct (rnd64_close (9 # 10)) as [Hc1 Hc2]; [lra | lra |].
  set (c := rnd64 (9 # 10)) in *.
  assert (Hy : c / inject_Z p * inject_Z p == c).
  { field. intros H0. rewrite H0 in HP. lra. }
  assert (Hy1 : 1 # 1000000 <= c / inject_Z p).
  { apply Qle_shift_div_l; [lra | nra]. }
  assert (Hy2 : c / inject_Z p <= 1).
  { apply Qle_shift_div_r; [lra | nra]. }
  destruct (rnd64_close (c / inject_Z p) Hy1 Hy2) as [Hs1 Hs2].
  set (y := c / inject_Z p) in *.
  set (sc := rnd64 y) in *.
  assert (Hv : (8982 # 10000) <= inject_Z p * sc <= (9019 # 10000)) by (split; nra).
  destruct (Z.abs_eq_or_opp x) as [Hpos | Hneg].
  - assert (x = p) by lia. subst x.
    destruct (rnd64_close (inject_Z p * sc)) as [Hr1 Hr2]; [lra | lra |].
    destruct (rnd32_between 228 233 (rnd64 (inject_Z p * sc))) as [Hq1 Hq2];
      [simpl; lia | simpl; lia | |].
    + change (inject_Z 228 / inject_Z 256) with ((228 # 1) / (256 # 1)).
      change (inject_Z 233 / inject_Z 256) with ((233 # 1) / (256 # 1)).
      split; [apply Qle_shift_div_r | apply Qle_shift_div_l]; lra.
    + change (inject_Z 228 / inject_Z 256) with ((228 # 1) / (256 # 1)) in Hq1.
      change (inject_Z 233 / inject_Z 256) with ((233 # 1) / (256 # 1)) in Hq2.
      assert (Hq1' : 228 # 256 <= rnd32 (rnd64 (inject_Z p * sc))).
      { eapply Qle_trans; [|exact Hq1]. unfold Qle, Qdiv; simpl; lia. }
      assert (Hq2' : rnd32 (rnd64 (inject_Z p * sc)) <= 233 # 256).
      { eapply Qle_trans; [exact Hq2|]. unfold Qle, Qdiv; simpl; lia. }
      rewrite Qabs_pos by lra. split; [|exact Hq2'].
      eapply Qle_trans; [|exact Hq1']. unfold Qle; simpl; lia.
  - assert (x = (- p)%Z) by lia. subst x.
    rewrite inject_Z_opp.
    destruct (rnd64_close_neg (- inject_Z p * sc)) as [Hr1 Hr2]; [lra | lra |].
    destruct (rnd32_between (-233) (-228) (rnd64 (- inject_Z p * sc))) as [Hq1 Hq2];
      [simpl; lia | simpl; lia | |].
    + change (inject_Z (-228) / inject_Z 256) with ((-228 # 1) / (256 # 1)).
      change (inject_Z (-233) / inject_Z 256) with ((-233 # 1) / (256 # 1)).
      split; [apply Qle_shift_div_r | apply Qle_shift_div_l]; lra.
    + change (inject_Z (-228) / inject_Z 256) with ((-228 # 1) / (256 # 1)) in Hq2.
      change (inject_Z (-233) / inject_Z 256) with ((-233 # 1) / (256 # 1)) in Hq1.
      assert (Hq1' : - (233 # 256) <= rnd32 (rnd64 (- inject_Z p * sc))).
      { eapply Qle_trans; [|exact Hq1]. unfold Qle, Qdiv; simpl; lia. }
      assert (Hq2' : rnd32 (rnd64 (- inject_Z p * sc)) <= - (228 # 256)).
      { eapply Qle_trans; [exact Hq2|]. unfold Qle, Qdiv; simpl; lia. }
      rewrite Qabs_neg by lra. split; [|lra].
      assert (57 # 64 <= 228 # 256) by (unfold Qle; simpl; lia). lra.
Qed.

(** Silence stays silence. *)
Lemma zero_sample (sc : Q) :
  exists q : Q, to_float32 (mul (of_int 0) (Finite sc)) = Finite q /\ q == 0.
Proof.
  exists (rnd32 (rnd64 (inject_Z 0 * sc))). split; [reflexivity|].
  assert (H64 : rnd64 (inject_Z 0 * sc) == 0).
  { rewrite (rnd64_proper _ (inject_Z 0 / inject_Z (2 ^ Z.of_nat 0)));
      [|simpl; unfold Qdiv; ring].
    rewrite (rnd64_dyadic 0 0 ltac:(simpl; lia) ltac:(lia)). reflexivity. }
  rewrite (rnd32_proper _ (inject_Z 0 / inject_Z (2 ^ Z.of_nat 0)));
    [|rewrite H64; reflexivity].
  rewrite (rnd32_dyadic 0 0 ltac:(simpl; lia) ltac:(lia)). reflexivity.
Qed.

End NormalisationFacts.

Lemma exact_laws : Number.RoundingLaws Number.exact.
Proof.
  constructor.
  - intros x y H; exact H.
  - intros x y H; exact H.
  - intros k n _ _; reflexivity.
  - intros k n _ _; reflexivity.
  - intros x Hlo Hhi. cbn [Number.rnd64 Number.exact].
    setoid_replace (x - x)%Q with 0%Q by ring.
    change (Qabs 0) with 0%Q.
    apply Qmult_le_0_compat; [discriminate | apply Qabs_nonneg].
Qed.

(** C5, peak-normalising worker: the scale is chosen from the peak of the
    buffer, the largest absolute sample value.  A peak above 50 gives the
    scale 0.9 / peak, which takes a sample of peak magnitude to within 0.01
    of 0.9; a peak of 50 or less gives 1 / 32768.  A recording of 2000 bytes
    (1000 samples) whose peak is 16000 is scaled by 0.9 / 16000.  The naive
    worker has no peak scan: every sample comes out as itself over 32768. *)
Theorem C5_peak_worker_scale :
  forall (R : Number.Rounding) (audioData : list Z),
  (forall x : Z, In x audioData -> Z.abs x <= WorkerPeak.peak audioData) /\
  (WorkerPeak.peak audioData = 0 \/
   exists x : Z, In x audioData /\ Z.abs x = WorkerPeak.peak audioData) /\
  (50 < WorkerPeak.peak audioData ->
     WorkerPeak.scale audioData =
       Number.div Number.lit_0_9 (Number.of_int (WorkerPeak.peak audioData)) /\
     WorkerPeak.scale audioData =
       Number.Finite (Number.rnd64 (Number.rnd64 (9 # 10) /
                                    inject_Z (WorkerPeak.peak audioData)))) /\
  (WorkerPeak.peak audioData <= 50 ->
     WorkerPeak.scale audioData = Number.div (Number.of_int 1) (Number.of_int 32768) /\
     WorkerPeak.scale audioData = Number.Finite (Number.rnd64 (1 / inject_Z 32768))) /\
  (forall x : Z, Number.RoundingLaws R -> Forall is_int16 audioData ->
     50 < WorkerPeak.peak audioData -> In x audioData ->
     Z.abs x = WorkerPeak.peak audioData ->
     exists q : Q,
       Number.to_float32 (Number.mul (Number.of_int x) (WorkerPeak.scale audioData)) =
         Number.Finite q /\
       (57 # 64 <= Qabs q <= 233 # 256)%Q) /\
  (forall audioBytes : list Z,
     length audioBytes = 2000%nat ->
     WorkerPeak.peak (Serial.to_Int16Array audioBytes) = 16000 ->
     length (Serial.to_Int16Array audioBytes) = 1000%nat /\
     WorkerPeak.scale (Serial.to_Int16Array audioBytes) =
       Number.Finite (Number.rnd64 (Number.rnd64 (9 # 10) / inject_Z 16000))) /\
  (forall x : Z, Number.RoundingLaws R -> is_int16 x ->
     exists q : Q,
       WorkerNaive.float32 [x] = [Number.Finite q] /\
       (q == inject_Z x / inject_Z 32768)%Q).
Proof.
  intros R audioData.
  destruct (peak_spec audioData) as [Hp0 [Hall Hatt]].
  split; [exact Hall|]. split; [exact Hatt|].
  assert (Hhi : forall l : list Z, 50 < WorkerPeak.peak l ->
            WorkerPeak.scale l =
              Number.div Number.lit_0_9 (Number.of_int (WorkerPeak.peak l)) /\
            WorkerPeak.scale l =
              Number.Finite (Number.rnd64 (Number.rnd64 (9 # 10) /
                                           inject_Z (WorkerPeak.peak l)))).
  { intros l Hl. unfold WorkerPeak.scale.
    apply Z.ltb_lt in Hl. rewrite Hl. apply Z.ltb_lt in Hl.
    split; [reflexivity|]. unfold Number.lit_0_9. apply div_int_finite. lia. }
  split; [apply Hhi|]. split.
  - intros Hle. unfold WorkerPeak.scale.
    apply Z.ltb_ge in Hle. rewrite Hle. split; reflexivity.
  - split.
    + intros x L Hint Hgt Hx Hax.
      rewrite (proj2 (Hhi audioData Hgt)).
      apply peak_sample_near_0_9; [|exact Hax].
      split; [exact Hgt | now apply peak_int16].
    + split.
      * intros audioBytes Hlen Hpk. split.
        -- rewrite to_Int16Array_length, Hlen. reflexivity.
        -- destruct (Hhi (Serial.to_Int16Array audioBytes)) as [_ Hs]; [lia|].
           rewrite Hs, Hpk. reflexivity.
      * intros x L Hx.
        exists (Number.rnd32 (Number.rnd64 (inject_Z x / inject_Z 32768))).
        split; [reflexivity | now apply naive_sample_exact].
Qed.

(** C5 fails in the naive worker: the buffer [16000; -8000] has peak 16000,
    above the noise floor, yet its first sample comes out as 16000 / 32768
    = 125/256, where the scale 0.9 / 16000 would give at least 57/64. *)
Lemma C5_naive_worker_ignores_peak :
  WorkerPeak.peak [16000; -8000] = 16000 /\
  (forall R : Number.Rounding, Number.RoundingLaws R ->
     exists q : Q,
       nth 0 (WorkerNaive.float32 [16000; -8000]) Number.NaN = Number.Finite q /\
       (q == 125 # 256)%Q /\ ~ (57 # 64 <= Qabs q)%Q) /\
  (forall R : Number.Rounding, Number.RoundingLaws R ->
     exists q : Q,
       nth 0 (WorkerPeak.float32 [16000; -8000]) Number.NaN = Number.Finite q /\
       (57 # 64 <= Qabs q)%Q).
Proof.
  split; [reflexivity|]. split.
  - intros R L.
    exists (Number.rnd32 (Number.rnd64 (inject_Z 16000 / inject_Z 32768))).
    split; [reflexivity|].
    assert (Hq : (Number.rnd32 (Number.rnd64 (inject_Z 16000 / inject_Z 32768))
                  == 125 # 256)%Q).
    { rewrite naive_sample_exact by (unfold is_int16; lia). reflexivity. }
    split; [exact Hq|]. rewrite Hq. intros H. revert H. unfold Qle; simpl; lia.
  - intros R L.
    destruct (peak_sample_near_0_9 16000 16000) as [q [Hq [Hlo _]]]; [lia | reflexivity|].
    exists q. split; [exact Hq | exact Hlo].
Qed.

(** C6: with int16 samples, every output sample of either worker is a finite
    number of magnitude at most 1; for a buffer of peak 0 the scale is the
    fallback 1 / 32768, a finite number (the division 0.9 / peak is not
    evaluated), and every output sample is 0. *)
Theorem C6_output_within_unit :
  forall (R : Number.Rounding) (audioData : list Z),
  Number.RoundingLaws R -> Forall is_int16 audioData ->
  Forall unit_bounded (WorkerNaive.float32 audioData) /\
  Forall unit_bounded (WorkerPeak.float32 audioData) /\
  (WorkerPeak.peak audioData = 0 ->
     WorkerPeak.scale audioData = Number.div (Number.of_int 1) (Number.of_int 32768) /\
     (exists q : Q, WorkerPeak.scale audioData = Number.Finite q /\ (q == 1 # 32768)%Q) /\
     Forall (fun y => exists q : Q, y = Number.Finite q /\ (q == 0)%Q)
            (WorkerPeak.float32 audioData)).
Proof.
  intros R audioData L Hint. split.
  - unfold WorkerNaive.float32. apply Forall_forall. intros y Hy.
    apply in_map_iff in Hy. destruct Hy as [x [<- Hx]].
    rewrite Forall_forall in Hint. now apply naive_sample_bounded, Hint.
  - split; [now apply peak_samples_bounded|].
    intros Hp.
    assert (Hs : WorkerPeak.scale audioData =
                 Number.div (Number.of_int 1) (Number.of_int 32768)).
    { unfold WorkerPeak.scale. now rewrite Hp. }
    split; [exact Hs|]. split.
    + rewrite Hs. destruct (@fallback_scale R L) as [-> Hf]. eexists; split; [reflexivity|exact Hf].
    + unfold WorkerPeak.float32. rewrite Hs.
      destruct (@fallback_scale R L) as [-> _].
      apply Forall_forall. intros y Hy.
      apply in_map_iff in Hy. destruct Hy as [x [<- Hx]].
      destruct (peak_spec audioData) as [_ [Hall _]].
      specialize (Hall x Hx). assert (x = 0) by lia. subst x.
      apply zero_sample.
Qed.

Lemma C6_output_within_unit_witness :
  Forall is_int16 [-32768; 16000; 0; 32767] /\
  Forall unit_bounded (@WorkerNaive.float32 Number.exact [-32768; 16000; 0; 32767]) /\
  Forall unit_bounded (@WorkerPeak.float32 Number.exact [-32768; 16000; 0; 32767]).
Proof.
  assert (Hint : Forall is_int16 [-32768; 16000; 0; 32767])
    by (repeat constructor; unfold is_int16; lia).
  destruct (C6_output_within_unit Number.exact [-32768; 16000; 0; 32767]
              exact_laws Hint) as [Hn [Hp _]].
  split; [exact Hint|]. split; [exact Hn | exact Hp].
Defined.

Lemma C5_peak_worker_scale_witness :
  @WorkerPeak.scale Number.exact [16000; -8000] =
  Number.Finite (@Number.rnd64 Number.exact
                   (@Number.rnd64 Number.exact (9 # 10) / inject_Z 16000)).
Proof.
  exact (proj2 (proj1 (proj2 (proj2 (C5_peak_worker_scale Number.exact [16000; -8000])))
                  eq_refl)).
Defined.

(** * Further properties *)

(** ** escapeHtml *)

Lemma replaceAll_app (c : Z) (r a b : JS.jsstring) :
  Html.replaceAll c r (a ++ b) = Html.replaceAll c r a ++ Html.replaceAll c r b.
Proof. unfold Html.replaceAll. apply flat_map_app. Qed.

Lemma escapeHtml_app (a b : JS.jsstring) :
  Html.escapeHtml (a ++ b) = Html.escapeHtml a ++ Html.escapeHtml b.
Proof. unfold Html.escapeHtml. now rewrite !replaceAll_app. Qed.

Lemma escapeHtml_unit (u : Z) : Html.escapeHtml [u] = escape_unit u.
Proof.
  unfold Html.escapeHtml, escape_unit, Html.replaceAll, Html.AMP, Html.LT, Html.GT.
  simpl flat_map at 3.
  destruct (u =? 38) eqn:E38; [reflexivity|].
  simpl. destruct (u =? 60) eqn:E60; [reflexivity|].
  simpl. destruct (u =? 62); reflexivity.
Qed.

Lemma escapeHtml_cons (u : Z) (s : JS.jsstring) :
  Html.escapeHtml (u :: s) = escape_unit u ++ Html.escapeHtml s.
Proof.
  change (u :: s) with ([u] ++ s). now rewrite escapeHtml_app, escapeHtml_unit.
Qed.

Lemma escapeHtml_flat_map (s : JS.jsstring) :
  Html.escapeHtml s = flat_map escape_unit s.
Proof.
  induction s as [|u s IH]; [reflexivity|].
  rewrite escapeHtml_cons, IH. reflexivity.
Qed.

Lemma escape_unit_cases (u : Z) :
  (u = Html.AMP /\ escape_unit u = Html.amp_entity) \/
  (u = Html.LT /\ escape_unit u = Html.lt_entity) \/
  (u = Html.GT /\ escape_unit u = Html.gt_entity) \/
  (u <> Html.AMP /\ u <> Html.LT /\ u <> Html.GT /\ escape_unit u = [u]).
Proof.
  unfold escape_unit.
  destruct (u =? Html.AMP) eqn:E1; [apply Z.eqb_eq in E1; auto|].
  destruct (u =? Html.LT) eqn:E2; [apply Z.eqb_eq in E2; auto|].
  destruct (u =? Html.GT) eqn:E3; [apply Z.eqb_eq in E3; auto|].
  apply Z.eqb_neq in E1, E2, E3. auto 10.
Qed.

(** The three replacements of escapeHtml, run one after the other, act on
    every code unit on its own: the ampersand of an entity that the second
    or third replacement inserts is not escaped again, and escaping
    distributes over concatenation. *)
Theorem escapeHtml_per_unit : forall a b : JS.jsstring,
  Html.escapeHtml a = flat_map escape_unit a /\
  Html.escapeHtml (a ++ b) = Html.escapeHtml a ++ Html.escapeHtml b.
Proof.
  intros a b. split; [apply escapeHtml_flat_map | apply escapeHtml_app].
Qed.

(** The escaped text holds no angle bracket, is at least as long as the
    text and at most five times as long, and a text without ampersand and
    angle brackets is left as it is. *)
Theorem escapeHtml_no_markup : forall str : JS.jsstring,
  ~ In Html.LT (Html.escapeHtml str) /\
  ~ In Html.GT (Html.escapeHtml str) /\
  (length str <= length (Html.escapeHtml str) <= 5 * length str)%nat /\
  ((forall u, In u str -> u <> Html.AMP /\ u <> Html.LT /\ u <> Html.GT) ->
   Html.escapeHtml str = str).
Proof.
  intros str. rewrite escapeHtml_flat_map.
  assert (Hno : forall x, (x = Html.LT \/ x = Html.GT) -> ~ In x (flat_map escape_unit str)).
  { intros x Hx Hin. apply in_flat_map in Hin. destruct Hin as [u [_ Hu]].
    destruct (escape_unit_cases u) as [[_ E] | [[_ E] | [[_ E] | [H1 [H2 [H3 E]]]]]];
      rewrite E in Hu; unfold Html.amp_entity, Html.lt_entity, Html.gt_entity,
        Html.LT, Html.GT in *; simpl in Hu; lia. }
  split; [apply Hno; now left|]. split; [apply Hno; now right|]. split.
  - clear Hno. induction str as [|u s IH]; [simpl; lia|].
    simpl flat_map. rewrite length_app. simpl length.
    assert (1 <= length (escape_unit u) <= 5)%nat.
    { destruct (escape_unit_cases u) as [[_ E] | [[_ E] | [[_ E] | [_ [_ [_ E]]]]]];
        rewrite E; simpl; lia. }
    lia.
  - clear Hno. intros Hplain. induction str as [|u s IH]; [reflexivity|].
    simpl flat_map.
    destruct (escape_unit_cases u) as [[E _] | [[E _] | [[E _] | [_ [_ [_ E]]]]]];
      try (exfalso; destruct (Hplain u (or_introl eq_refl)) as [? [? ?]]; contradiction).
    rewrite E, IH; [reflexivity|]. intros v Hv. apply Hplain. now right.
Qed.

(** Two texts with the same escaped form are the same text. *)
Theorem escapeHtml_injective : forall s1 s2 : JS.jsstring,
  Html.escapeHtml s1 = Html.escapeHtml s2 -> s1 = s2.
Proof.
  intros s1 s2. rewrite !escapeHtml_flat_map. revert s2.
  induction s1 as [|u1 s1 IH]; intros s2 H.
  - destruct s2 as [|u2 s2]; [reflexivity|]. simpl in H.
    destruct (escape_unit_cases u2) as [[_ E] | [[_ E] | [[_ E] | [_ [_ [_ E]]]]]];
      rewrite E in H; discriminate.
  - destruct s2 as [|u2 s2].
    + simpl in H.
      destruct (escape_unit_cases u1) as [[_ E] | [[_ E] | [[_ E] | [_ [_ [_ E]]]]]];
        rewrite E in H; discriminate.
    + simpl in H.
      destruct (escape_unit_cases u1) as [[U1 E1] | [[U1 E1] | [[U1 E1] | [A1 [B1 [C1 E1]]]]]];
      destruct (escape_unit_cases u2) as [[U2 E2] | [[U2 E2] | [[U2 E2] | [A2 [B2 [C2 E2]]]]]];
        rewrite E1, E2 in H;
        unfold Html.amp_entity, Html.lt_entity, Html.gt_entity,
          Html.AMP, Html.LT, Html.GT in *;
        simpl in H; try discriminate;
        try (injection H as H; subst; f_equal; now apply IH);
        try (injection H as H0 H; subst; f_equal; now apply IH);
        try (injection H as H0 H; exfalso; lia).
Qed.

(** ** After a disconnect *)

Lemma serial_page_dead_step (st : SerialPage.State) (ev : SerialPage.Event) :
  Serial.port (SerialPage.page st) = None ->
  Serial.port (SerialPage.page (SerialPage.step st ev)) = None /\
  Serial.written (SerialPage.page (SerialPage.step st ev)) =
    Serial.written (SerialPage.page st) /\
  ((Serial.posted (SerialPage.page (SerialPage.step st ev)) =
      Serial.posted (SerialPage.page st) /\
    (SerialPage.loopAlive st = false -> SerialPage.loopAlive (SerialPage.step st ev) = false)) \/
   (exists r, Serial.posted (SerialPage.page (SerialPage.step st ev)) =
                Serial.posted (SerialPage.page st) ++ [r] /\
              SerialPage.loopAlive st = true /\
              SerialPage.loopAlive (SerialPage.step st ev) = false)).
Proof.
  intros Hp.
  assert (Hw : serial_can_write (SerialPage.page st) = false)
    by (unfold serial_can_write; now rewrite Hp).
  split; [|split].
  - destruct ev as [[value| | | | |text| |]|];
      try (rewrite page_step_port by reflexivity; exact Hp); reflexivity.
  - rewrite page_step_written.
    destruct ev as [[value| | | | |text| |]|]; rewrite ?Hw; apply app_nil_r.
  - assert (Hend : forall q : Serial.State,
              Serial.port q = None -> Serial.posted q = Serial.posted (SerialPage.page st) ->
              SerialPage.loopAlive st = true ->
              let st' := SerialPage.loop_head st (Serial.after_recording q) in
              (Serial.posted (SerialPage.page st') = Serial.posted (SerialPage.page st) /\
               (SerialPage.loopAlive st = false -> SerialPage.loopAlive st' = false)) \/
              (exists r, Serial.posted (SerialPage.page st') =
                           Serial.posted (SerialPage.page st) ++ [r] /\
                         SerialPage.loopAlive st = true /\
                         SerialPage.loopAlive st' = false)).
    { intros q Hq Hposted Ha st'.
      assert (Hdead : SerialPage.loopAlive st' = false).
      { unfold st', SerialPage.loop_head, Serial.reading.
        cbn [SerialPage.loopAlive]. now rewrite after_recording_port, Hq. }
      destruct (after_recording_posted q) as [l [Hl Hlen]].
      unfold st'. cbn [SerialPage.loop_head SerialPage.page]. rewrite Hl, Hposted.
      destruct l as [|r [|r' l']]; [left | right | simpl in Hlen; lia].
      - split; [apply app_nil_r | intros _; exact Hdead].
      - exists r. repeat split; [exact Ha | exact Hdead]. }
    destruct ev as [[value| | | | |text| |]|]; cbn [SerialPage.step];
      try (left; split; [reflexivity | intros H; exact H]).
    + destruct (SerialPage.loopAlive st) eqn:Ha;
        [|left; split; [reflexivity | intros _; exact Ha]].
      unfold SerialPage.receiveLoop_read. destruct value as [|v vs]; cbv zeta;
        [left; split; [reflexivity | intros H; discriminate]|].
      destruct (Serial.findEOF (Serial.audioBytes (SerialPage.page st) ++ v :: vs) =? -1);
        [left; split; [reflexivity | intros H; discriminate]|].
      apply Hend; [exact Hp | reflexivity | reflexivity].
    + destruct (SerialPage.loopAlive st) eqn:Ha;
        [|left; split; [reflexivity | intros _; exact Ha]].
      apply Hend; [exact Hp | reflexivity | reflexivity].
    + destruct (SerialPage.loopAlive st) eqn:Ha;
        [|left; split; [reflexivity | intros _; exact Ha]].
      unfold SerialPage.receiveLoop_catch. rewrite Hp.
      left; split; [reflexivity | reflexivity].
    + rewrite page_onmessage_transcript. unfold SerialPage.sendText. rewrite Hp.
      left; split; [reflexivity | intros H; exact H].
Qed.

Lemma serial_page_dead_run (evs : list SerialPage.Event) (st : SerialPage.State) :
  Serial.port (SerialPage.page st) = None ->
  Serial.written (SerialPage.page (SerialPage.run st evs)) =
    Serial.written (SerialPage.page st) /\
  exists l, Serial.posted (SerialPage.page (SerialPage.run st evs)) =
              Serial.posted (SerialPage.page st) ++ l /\
            (length l <= 1)%nat /\
            (SerialPage.loopAlive st = false -> l = []).
Proof.
  revert st; induction evs as [|ev evs IH]; intros st Hp.
  - split; [reflexivity|]. exists []. rewrite app_nil_r. repeat split. simpl; lia.
  - change (SerialPage.run st (ev :: evs)) with (SerialPage.run (SerialPage.step st ev) evs).
    destruct (serial_page_dead_step st ev Hp) as [Hp' [Hw Hcase]].
    destruct (IH _ Hp') as [Hw' [l [Hl [Hlen Hdead]]]].
    split; [now rewrite Hw', Hw|].
    destruct Hcase as [[Hposted Ha] | [r [Hposted [Ha Ha']]]].
    + exists l. rewrite Hl, Hposted. repeat split; [exact Hlen|].
      intros H. apply Hdead, Ha, H.
    + exists [r]. rewrite Hl, Hposted, (Hdead Ha'), app_nil_r.
      repeat split; [simpl; lia | intros H; congruence].
Qed.

Lemma webusb_after_drain_frame (p : WebUSB.State) :
  WebUSB.device (WebUSB.after_drain p) = WebUSB.device p /\
  WebUSB.written (WebUSB.after_drain p) = WebUSB.written p /\
  exists l, WebUSB.posted (WebUSB.after_drain p) = WebUSB.posted p ++ l /\
            (length l <= 1)%nat.
Proof.
  unfold WebUSB.after_drain.
  destruct (WebUSB.audioChunks p) as [|c cs];
    [|destruct (WebUSB.modelReady p)]; cbn; repeat split;
    try (exists []; rewrite app_nil_r; split; [reflexivity | simpl; lia]).
  eexists. split; [reflexivity | simpl; lia].
Qed.

Lemma webusb_page_dead_step (st : WebUSBPage.State) (ev : WebUSB.Event) :
  WebUSB.device (WebUSBPage.page st) = false ->
  WebUSB.device (WebUSBPage.page (WebUSBPage.step st ev)) = false /\
  WebUSB.written (WebUSBPage.page (WebUSBPage.step st ev)) =
    WebUSB.written (WebUSBPage.page st) /\
  ((WebUSB.posted (WebUSBPage.page (WebUSBPage.step st ev)) =
      WebUSB.posted (WebUSBPage.page st) /\
    (WebUSBPage.loopAlive st = false -> WebUSBPage.loopAlive (WebUSBPage.step st ev) = false)) \/
   (exists r, WebUSB.posted (WebUSBPage.page (WebUSBPage.step st ev)) =
                WebUSB.posted (WebUSBPage.page st) ++ [r] /\
              WebUSBPage.loopAlive st = true /\
              WebUSBPage.loopAlive (WebUSBPage.step st ev) = false)).
Proof.
  intros Hd.
  (* the loop is left through after_drain, at a loop head that fails *)
  assert (Hend : forall q : WebUSB.State,
            WebUSB.device q = false -> WebUSB.written q = WebUSB.written (WebUSBPage.page st) ->
            WebUSB.posted q = WebUSB.posted (WebUSBPage.page st) ->
            WebUSBPage.loopAlive st = true ->
            let st' := WebUSBPage.loop_head (WebUSB.after_drain q) in
            WebUSB.device (WebUSBPage.page st') = false /\
            WebUSB.written (WebUSBPage.page st') = WebUSB.written (WebUSBPage.page st) /\
            ((WebUSB.posted (WebUSBPage.page st') = WebUSB.posted (WebUSBPage.page st) /\
              (WebUSBPage.loopAlive st = false -> WebUSBPage.loopAlive st' = false)) \/
             (exists r, WebUSB.posted (WebUSBPage.page st') =
                          WebUSB.posted (WebUSBPage.page st) ++ [r] /\
                        WebUSBPage.loopAlive st = true /\
                        WebUSBPage.loopAlive st' = false))).
  { intros q Hq Hwq Hpq Ha st'.
    destruct (webusb_after_drain_frame q) as [Hdev [Hwr [l [Hl Hlen]]]].
    unfold st'. cbn [WebUSBPage.loop_head WebUSBPage.page WebUSBPage.loopAlive].
    rewrite Hdev, Hwr, Hl, Hq, Hwq, Hpq. split; [reflexivity|]. split; [reflexivity|].
    destruct l as [|r [|r' l']]; [left | right | simpl in Hlen; lia].
    - split; [apply app_nil_r | reflexivity].
    - exists r. repeat split. exact Ha. }
  assert (Hstay : WebUSB.device (WebUSBPage.page st) = false /\
                  WebUSB.written (WebUSBPage.page st) = WebUSB.written (WebUSBPage.page st) /\
                  ((WebUSB.posted (WebUSBPage.page st) = WebUSB.posted (WebUSBPage.page st) /\
                    (WebUSBPage.loopAlive st = false -> WebUSBPage.loopAlive st = false)) \/
                   (exists r, WebUSB.posted (WebUSBPage.page st) =
                                WebUSB.posted (WebUSBPage.page st) ++ [r] /\
                              WebUSBPage.loopAlive st = true /\
                              WebUSBPage.loopAlive st = false)))
    by (split; [exact Hd | split; [reflexivity | left; split; [reflexivity | intros H; exact H]]]).
  destruct ev as [r| | | |text| |]; cbn [WebUSBPage.step]; try exact Hstay.
  - destruct (WebUSBPage.loopAlive st) eqn:Ha;
      [|split; [exact Hd | split; [reflexivity | left; split; [reflexivity | intros _; exact Ha]]]].
    destruct (WebUSB.phase (WebUSBPage.page st)).
    + unfold WebUSBPage.receiveLoop_first. cbv zeta.
      destruct r as [data|];
        [destruct (WebUSB.isEOF data);
         [|destruct (JS.Int16Array_of_buffer data) as [chunk|]]|];
        try (cbn [WebUSBPage.loop_head WebUSB.next_iteration WebUSBPage.page
                  WebUSBPage.loopAlive WebUSB.device WebUSB.written WebUSB.posted];
             rewrite ?Hd;
             cbn [WebUSBPage.set_recording WebUSBPage.page WebUSBPage.loopAlive
                  WebUSB.device WebUSB.written WebUSB.posted];
             split; [first [exact Hd | reflexivity]|];
             split; [reflexivity | left; split; [reflexivity | reflexivity]]).
      unfold WebUSBPage.drain_head.
      cbn [WebUSB.push_chunk WebUSB.device]. rewrite Hd.
      apply Hend; [exact Hd | reflexivity | reflexivity | reflexivity].
    + unfold WebUSBPage.receiveLoop_drain. cbv zeta.
      destruct r as [data|];
        [destruct (WebUSB.isEOF data);
         [|destruct (JS.Int16Array_of_buffer data) as [chunk|]]|];
        try (apply Hend; [exact Hd | reflexivity | reflexivity | reflexivity]).
      * unfold WebUSBPage.drain_head.
        cbn [WebUSB.push_chunk WebUSB.device]. rewrite Hd.
        apply Hend; [exact Hd | reflexivity | reflexivity | reflexivity].
      * rewrite Hd. cbn [WebUSBPage.page WebUSBPage.loopAlive].
        split; [exact Hd|]. split; [reflexivity | left; split; reflexivity].
  - destruct (WebUSBPage.loopAlive st) eqn:Ha;
      [|split; [exact Hd | split; [reflexivity | left; split; [reflexivity | intros _; exact Ha]]]].
    unfold WebUSBPage.receiveLoop_catch. cbv zeta. rewrite Hd.
    cbn [WebUSBPage.page WebUSBPage.loopAlive].
    split; [exact Hd|]. split; [reflexivity | left; split; reflexivity].
  - cbn [WebUSBPage.page WebUSBPage.loopAlive].
    assert (Hs : WebUSB.onmessage_transcript (WebUSBPage.page st) text = WebUSBPage.page st).
    { unfold WebUSB.onmessage_transcript, WebUSB.sendText. rewrite Hd.
      destruct (JS.truthy text); reflexivity. }
    rewrite Hs. split; [exact Hd|].
    split; [reflexivity | left; split; [reflexivity | intros H; exact H]].
  - cbn [WebUSBPage.page WebUSBPage.loopAlive WebUSB.handleDisconnect
         WebUSB.device WebUSB.written WebUSB.posted].
    split; [reflexivity|].
    split; [reflexivity | left; split; [reflexivity | intros H; exact H]].
Qed.

Lemma webusb_page_dead_run (evs : list WebUSB.Event) (st : WebUSBPage.State) :
  WebUSB.device (WebUSBPage.page st) = false ->
  WebUSB.written (WebUSBPage.page (WebUSBPage.run st evs)) =
    WebUSB.written (WebUSBPage.page st) /\
  exists l, WebUSB.posted (WebUSBPage.page (WebUSBPage.run st evs)) =
              WebUSB.posted (WebUSBPage.page st) ++ l /\
            (length l <= 1)%nat /\
            (WebUSBPage.loopAlive st = false -> l = []).
Proof.
  revert st; induction evs as [|ev evs IH]; intros st Hd.
  - split; [reflexivity|]. exists []. rewrite app_nil_r. repeat split. simpl; lia.
  - change (WebUSBPage.run st (ev :: evs)) with (WebUSBPage.run (WebUSBPage.step st ev) evs).
    destruct (webusb_page_dead_step st ev Hd) as [Hd' [Hw Hcase]].
    destruct (IH _ Hd') as [Hw' [l [Hl [Hlen Hdead]]]].
    split; [now rewrite Hw', Hw|].
    destruct Hcase as [[Hposted Ha] | [r [Hposted [Ha Ha']]]].
    + exists l. rewrite Hl, Hposted. repeat split; [exact Hlen|].
      intros H. apply Hdead, Ha, H.
    + exists [r]. rewrite Hl, Hposted, (Hdead Ha'), app_nil_r.
      repeat split; [simpl; lia | intros H; congruence].
Qed.

Lemma webusb_page_simulates_step (p : WebUSB.State) (ev : WebUSB.Event) :
  webusb_is_disconnect ev = false ->
  WebUSBPage.step (WebUSBPage.mkState p (WebUSB.device p)) ev =
  WebUSBPage.mkState (WebUSB.step p ev) (WebUSB.device (WebUSB.step p ev)).
Proof.
  intros Hev.
  assert (Hdrain : WebUSB.device (WebUSB.after_drain p) = WebUSB.device p)
    by apply webusb_after_drain_frame.
  destruct ev as [r| | | |text| |]; try discriminate;
    cbn [WebUSBPage.step WebUSB.step WebUSBPage.loopAlive WebUSBPage.page].
  - destruct (WebUSB.device p) eqn:D; [|now rewrite D].
    destruct (WebUSB.phase p).
    + unfold WebUSBPage.receiveLoop_first, WebUSB.receiveLoop_first. cbv zeta.
      cbn [WebUSBPage.page]. rewrite D.
      destruct r as [data|]; [|reflexivity].
      destruct (WebUSB.isEOF data); [reflexivity|].
      destruct (JS.Int16Array_of_buffer data) as [chunk|]; [|reflexivity].
      unfold WebUSBPage.drain_head. cbn [WebUSB.push_chunk WebUSB.device].
      now rewrite D.
    + unfold WebUSBPage.receiveLoop_drain, WebUSB.receiveLoop_drain. cbv zeta.
      cbn [WebUSBPage.page]. rewrite D.
      destruct r as [data|]; [|reflexivity].
      destruct (WebUSB.isEOF data); [reflexivity|].
      destruct (JS.Int16Array_of_buffer data) as [chunk|]; [|reflexivity].
      unfold WebUSBPage.drain_head. cbn [WebUSB.push_chunk WebUSB.device].
      now rewrite D.
  - destruct (WebUSB.device p) eqn:D; [|now rewrite D].
    unfold WebUSBPage.receiveLoop_catch. cbv zeta. cbn [WebUSBPage.page]. rewrite D.
    destruct (WebUSB.phase p); reflexivity.
  - reflexivity.
  - reflexivity.
  - f_equal. unfold WebUSB.onmessage_transcript, WebUSB.sendText.
    destruct (JS.truthy text); [destruct (WebUSB.device p) eqn:D|]; now rewrite ?D.
  - reflexivity.
Qed.

(** [WebUSBPage] agrees with [WebUSB] on the traces [WebUSB] is about: no
    disconnect. *)
Lemma webusb_page_simulates (evs : list WebUSB.Event) (p : WebUSB.State) :
  existsb webusb_is_disconnect evs = false ->
  WebUSBPage.run (WebUSBPage.mkState p (WebUSB.device p)) evs =
  WebUSBPage.mkState (WebUSB.run p evs) (WebUSB.device (WebUSB.run p evs)).
Proof.
  revert p; induction evs as [|ev evs IH]; intros p Hd; [reflexivity|].
  simpl in Hd. apply orb_false_iff in Hd. destruct Hd as [Hev Hevs].
  change (WebUSBPage.run (WebUSBPage.mkState p (WebUSB.device p)) (ev :: evs))
    with (WebUSBPage.run (WebUSBPage.step (WebUSBPage.mkState p (WebUSB.device p)) ev) evs).
  rewrite (webusb_page_simulates_step p ev Hev).
  apply (IH (WebUSB.step p ev) Hevs).
Qed.

(** Once handleDisconnect has run, nothing is written to the transport any
    more, in both flavours.  receiveLoop returns at the next loop head or
    catch block it reaches; a read or transfer that still resolves before
    that is processed, so that at most one more request is posted, and
    none when receiveLoop had returned already.  The two runs at the end
    show such a request: a recording whose last chunk resolves after the
    disconnect is posted. *)
Theorem disconnect_stops_writes :
  forall (s : SerialPage.State) (u : WebUSBPage.State)
         (sevs : list SerialPage.Event) (uevs : list WebUSB.Event),
  Serial.written (SerialPage.page
    (SerialPage.run (SerialPage.step s (SerialPage.Ev Serial.Disconnect)) sevs)) =
    Serial.written (SerialPage.page s) /\
  (exists l,
     Serial.posted (SerialPage.page
       (SerialPage.run (SerialPage.step s (SerialPage.Ev Serial.Disconnect)) sevs)) =
       Serial.posted (SerialPage.page s) ++ l /\
     (length l <= 1)%nat /\ (SerialPage.loopAlive s = false -> l = [])) /\
  WebUSB.written (WebUSBPage.page
    (WebUSBPage.run (WebUSBPage.step u WebUSB.Disconnect) uevs)) =
    WebUSB.written (WebUSBPage.page u) /\
  (exists l,
     WebUSB.posted (WebUSBPage.page
       (WebUSBPage.run (WebUSBPage.step u WebUSB.Disconnect) uevs)) =
       WebUSB.posted (WebUSBPage.page u) ++ l /\
     (length l <= 1)%nat /\ (WebUSBPage.loopAlive u = false -> l = [])) /\
  Serial.posted (SerialPage.page
    (SerialPage.run (SerialPage.connected true)
       [SerialPage.Ev (Serial.Read (repeat 0 512)); SerialPage.Ev Serial.Disconnect;
        SerialPage.Ev (Serial.Read Serial.EOF_MARKER)])) = [repeat 0 256%nat] /\
  WebUSB.posted (WebUSBPage.page
    (WebUSBPage.run (WebUSBPage.connected true)
       [WebUSB.TransferIn (Some [0x10; 0x20]); WebUSB.Disconnect;
        WebUSB.TransferIn (Some [0x30; 0x40])])) = [[0x2010; 0x4030]].
Proof.
  intros s u sevs uevs.
  destruct (serial_page_dead_run sevs (SerialPage.step s (SerialPage.Ev Serial.Disconnect))
              eq_refl) as [H1 H2].
  destruct (webusb_page_dead_run uevs (WebUSBPage.step u WebUSB.Disconnect) eq_refl)
    as [H3 H4].
  split; [exact H1|]. split; [exact H2|]. split; [exact H3|]. split; [exact H4|].
  split; vm_compute; reflexivity.
Qed.

(** ** The model-ready gate *)

Lemma after_recording_not_ready (st : Serial.State) :
  Serial.modelReady st = false ->
  Serial.after_recording st = Serial.next_iteration st.
Proof.
  intros H. unfold Serial.after_recording. rewrite H.
  now destruct (length (Serial.audioBytes st) <? 512)%nat.
Qed.

Lemma after_recording_ready (st : Serial.State) :
  Serial.modelReady (Serial.after_recording st) = Serial.modelReady st.
Proof.
  unfold Serial.after_recording.
  destruct (length (Serial.audioBytes st) <? 512)%nat; [reflexivity|].
  destruct (Serial.modelReady st) eqn:E; simpl; rewrite ?E; reflexivity.
Qed.

Lemma serial_step_modelReady (st : Serial.State) (ev : Serial.Event) :
  Serial.modelReady (Serial.step st ev) =
  Serial.modelReady st || serial_is_ready ev.
Proof.
  destruct ev; simpl; rewrite ?orb_false_r, ?orb_true_r; try reflexivity.
  - destruct (Serial.reading st); [|reflexivity].
    unfold Serial.receiveLoop_read. destruct value as [|v vs]; [reflexivity|].
    cbv zeta. destruct (Serial.findEOF (Serial.audioBytes st ++ v :: vs) =? -1);
      [reflexivity | now rewrite after_recording_ready].
  - destruct (Serial.reading st); [now rewrite after_recording_ready | reflexivity].
  - destruct (Serial.reading st); [now rewrite after_recording_ready | reflexivity].
  - rewrite serial_onmessage_transcript. apply serial_sendText_frame.
Qed.

Lemma serial_step_not_ready (st : Serial.State) (ev : Serial.Event) :
  Serial.modelReady st = false ->
  Serial.posted (Serial.step st ev) = Serial.posted st.
Proof.
  intros Hm. destruct ev; simpl; try reflexivity.
  - destruct (Serial.reading st); [|reflexivity].
    unfold Serial.receiveLoop_read. destruct value as [|v vs]; [reflexivity|].
    cbv zeta. destruct (Serial.findEOF (Serial.audioBytes st ++ v :: vs) =? -1);
      [reflexivity | now rewrite after_recording_not_ready].
  - destruct (Serial.reading st); [now rewrite after_recording_not_ready | reflexivity].
  - destruct (Serial.reading st); [now rewrite after_recording_not_ready | reflexivity].
  - rewrite serial_onmessage_transcript. apply serial_sendText_frame.
Qed.

Lemma webusb_after_drain_ready (st : WebUSB.State) :
  WebUSB.modelReady (WebUSB.after_drain st) = WebUSB.modelReady st.
Proof.
  unfold WebUSB.after_drain. destruct (WebUSB.audioChunks st); [reflexivity|].
  destruct (WebUSB.modelReady st) eqn:E; simpl; rewrite ?E; reflexivity.
Qed.

Lemma webusb_after_drain_not_ready (st : WebUSB.State) :
  WebUSB.modelReady st = false ->
  WebUSB.posted (WebUSB.after_drain st) = WebUSB.posted st.
Proof.
  intros H. unfold WebUSB.after_drain. rewrite H.
  now destruct (WebUSB.audioChunks st).
Qed.

Lemma webusb_sendText_frame (st : WebUSB.State) (text : JS.jsstring) :
  WebUSB.modelReady (WebUSB.sendText st text) = WebUSB.modelReady st /\
  WebUSB.posted (WebUSB.sendText st text) = WebUSB.posted st /\
  WebUSB.device (WebUSB.sendText st text) = WebUSB.device st.
Proof.
  unfold WebUSB.sendText. destruct (WebUSB.device st) eqn:E; simpl; rewrite ?E; auto.
Qed.

Lemma webusb_step_modelReady (st : WebUSB.State) (ev : WebUSB.Event) :
  WebUSB.modelReady (WebUSB.step st ev) =
  WebUSB.modelReady st || webusb_is_ready ev.
Proof.
  destruct ev as [r| | | |text| |]; simpl; rewrite ?orb_false_r, ?orb_true_r;
    try reflexivity.
  - destruct (WebUSB.device st); [|reflexivity].
    destruct (WebUSB.phase st);
      unfold WebUSB.receiveLoop_first, WebUSB.receiveLoop_drain;
      destruct r as [data|]; rewrite ?webusb_after_drain_ready; try reflexivity;
      destruct (WebUSB.isEOF data); rewrite ?webusb_after_drain_ready; try reflexivity;
      destruct (JS.Int16Array_of_buffer data);
      rewrite ?webusb_after_drain_ready; reflexivity.
  - destruct (WebUSB.device st); [|reflexivity].
    destruct (WebUSB.phase st); rewrite ?webusb_after_drain_ready; reflexivity.
  - unfold WebUSB.onmessage_transcript.
    destruct (JS.truthy text); [apply webusb_sendText_frame | reflexivity].
Qed.

Lemma webusb_step_not_ready (st : WebUSB.State) (ev : WebUSB.Event) :
  WebUSB.modelReady st = false ->
  WebUSB.posted (WebUSB.step st ev) = WebUSB.posted st.
Proof.
  intros Hm. destruct ev as [r| | | |text| |]; simpl; try reflexivity.
  - destruct (WebUSB.device st); [|reflexivity].
    destruct (WebUSB.phase st);
      unfold WebUSB.receiveLoop_first, WebUSB.receiveLoop_drain;
      destruct r as [data|]; rewrite ?webusb_after_drain_not_ready by exact Hm;
      try reflexivity;
      destruct (WebUSB.isEOF data); rewrite ?webusb_after_drain_not_ready by exact Hm;
      try reflexivity;
      destruct (JS.Int16Array_of_buffer data);
      rewrite ?webusb_after_drain_not_ready by exact Hm; reflexivity.
  - destruct (WebUSB.device st); [|reflexivity].
    destruct (WebUSB.phase st); rewrite ?webusb_after_drain_not_ready by exact Hm;
      reflexivity.
  - unfold WebUSB.onmessage_transcript.
    destruct (JS.truthy text); [apply webusb_sendText_frame | reflexivity].
Qed.

Lemma serial_run_modelReady (evs : list Serial.Event) (st : Serial.State) :
  Serial.modelReady (Serial.run st evs) =
  Serial.modelReady st || existsb serial_is_ready evs.
Proof.
  revert st; induction evs as [|ev evs IH]; intros st; simpl.
  - now rewrite orb_false_r.
  - change (Serial.run st (ev :: evs)) with (Serial.run (Serial.step st ev) evs).
    rewrite IH, serial_step_modelReady. now rewrite orb_assoc.
Qed.

Lemma webusb_run_modelReady (evs : list WebUSB.Event) (st : WebUSB.State) :
  WebUSB.modelReady (WebUSB.run st evs) =
  WebUSB.modelReady st || existsb webusb_is_ready evs.
Proof.
  revert st; induction evs as [|ev evs IH]; intros st; simpl.
  - now rewrite orb_false_r.
  - change (WebUSB.run st (ev :: evs)) with (WebUSB.run (WebUSB.step st ev) evs).
    rewrite IH, webusb_step_modelReady. now rewrite orb_assoc.
Qed.

Lemma serial_run_not_ready (evs : list Serial.Event) (st : Serial.State) :
  Serial.modelReady st = false -> existsb serial_is_ready evs = false ->
  Serial.posted (Serial.run st evs) = Serial.posted st.
Proof.
  revert st; induction evs as [|ev evs IH]; intros st Hm He; [reflexivity|].
  simpl in He. apply orb_false_iff in He. destruct He as [He1 He2].
  change (Serial.run st (ev :: evs)) with (Serial.run (Serial.step st ev) evs).
  rewrite IH; [now apply serial_step_not_ready | | exact He2].
  now rewrite serial_step_modelReady, Hm, He1.
Qed.

Lemma webusb_run_not_ready (evs : list WebUSB.Event) (st : WebUSB.State) :
  WebUSB.modelReady st = false -> existsb webusb_is_ready evs = false ->
  WebUSB.posted (WebUSB.run st evs) = WebUSB.posted st.
Proof.
  revert st; induction evs as [|ev evs IH]; intros st Hm He; [reflexivity|].
  simpl in He. apply orb_false_iff in He. destruct He as [He1 He2].
  change (WebUSB.run st (ev :: evs)) with (WebUSB.run (WebUSB.step st ev) evs).
  rewrite IH; [now apply webusb_step_not_ready | | exact He2].
  now rewrite webusb_step_modelReady, Hm, He1.
Qed.

(** [modelReady] is set by the worker's 'ready' message and by nothing
    else, and it is never reset: after a run it holds exactly when it held
    before or the run had a 'ready' message.  Until then no recording,
    however long, is posted to the worker.  Both flavours. *)
Theorem model_ready_gate :
  forall (s : Serial.State) (u : WebUSB.State)
         (sevs : list Serial.Event) (uevs : list WebUSB.Event),
  Serial.modelReady (Serial.run s sevs) =
    Serial.modelReady s || existsb serial_is_ready sevs /\
  WebUSB.modelReady (WebUSB.run u uevs) =
    WebUSB.modelReady u || existsb webusb_is_ready uevs /\
  (Serial.modelReady (Serial.run s sevs) = false ->
     Serial.posted (Serial.run s sevs) = Serial.posted s) /\
  (WebUSB.modelReady (WebUSB.run u uevs) = false ->
     WebUSB.posted (WebUSB.run u uevs) = WebUSB.posted u).
Proof.
  intros s u sevs uevs.
  split; [apply serial_run_modelReady|]. split; [apply webusb_run_modelReady|].
  split.
  - rewrite serial_run_modelReady. intros H. apply orb_false_iff in H.
    now apply serial_run_not_ready.
  - rewrite webusb_run_modelReady. intros H. apply orb_false_iff in H.
    now apply webusb_run_not_ready.
Qed.

(** ** What receiveLoop keeps, and what it hands to the worker *)

Lemma after_recording_resets (st : Serial.State) :
  Serial.audioBytes (Serial.after_recording st) = [] /\
  Serial.recordingStarted (Serial.after_recording st) = false.
Proof.
  unfold Serial.after_recording.
  destruct (length (Serial.audioBytes st) <? 512)%nat; [now split|].
  destruct (Serial.modelReady st); now split.
Qed.

Lemma truthy_app_cons (a : list Z) (v : Z) (vs : list Z) :
  JS.truthy (a ++ v :: vs) = true.
Proof. now destruct a. Qed.

Lemma serial_step_buffer_ok (st : Serial.State) (ev : Serial.Event) :
  serial_buffer_ok st -> serial_buffer_ok (Serial.step st ev).
Proof.
  unfold serial_buffer_ok. intros [Hf Hs].
  assert (Hreset : forall st', Serial.findEOF (Serial.audioBytes (Serial.after_recording st')) = -1 /\
            Serial.recordingStarted (Serial.after_recording st') =
            JS.truthy (Serial.audioBytes (Serial.after_recording st'))).
  { intros st'. destruct (after_recording_resets st') as [-> ->]. now split. }
  destruct ev; simpl; auto.
  - destruct (Serial.reading st); [|auto].
    unfold Serial.receiveLoop_read. destruct value as [|v vs]; [auto|]. cbv zeta.
    destruct (Serial.findEOF (Serial.audioBytes st ++ v :: vs) =? -1) eqn:E;
      [|apply Hreset].
    apply Z.eqb_eq in E. simpl. now rewrite truthy_app_cons.
  - destruct (Serial.reading st); [apply Hreset | auto].
  - destruct (Serial.reading st); [apply Hreset | auto].
  - rewrite serial_onmessage_transcript.
    destruct (serial_sendText_frame st (serial_reply_text text)) as [_ [_ [-> [-> _]]]].
    auto.
Qed.

(** Between two events the buffer of the Web Serial receiveLoop never holds
    a complete sentinel (a recording is cut off and handed on in the very
    step that completes the sentinel), and [recordingStarted] is set
    exactly when the buffer is not empty. *)
Theorem serial_buffer_invariant : forall (ready : bool) (evs : list Serial.Event),
  Serial.findEOF (Serial.audioBytes (Serial.run (Serial.connected ready) evs)) = -1 /\
  Serial.recordingStarted (Serial.run (Serial.connected ready) evs) =
    JS.truthy (Serial.audioBytes (Serial.run (Serial.connected ready) evs)).
Proof.
  intros ready evs.
  assert (H : forall st, serial_buffer_ok st -> serial_buffer_ok (Serial.run st evs)).
  { induction evs as [|ev evs IH]; intros st Hst; [exact Hst|].
    apply (IH (Serial.step st ev)). now apply serial_step_buffer_ok. }
  apply (H (Serial.connected ready)). split; reflexivity.
Qed.

(** The bytes before the first sentinel hold no complete sentinel. *)
Lemma findEOF_firstn (bytes : list Z) (k : nat) :
  Serial.findEOF bytes = Z.of_nat k -> Serial.findEOF (firstn k bytes) = -1.
Proof.
  intros H. apply findEOF_first in H. destruct H as [Hk Hlt].
  apply findEOF_none. intros i Hi.
  pose proof (match_at_length _ _ Hi) as Hlen. rewrite length_firstn in Hlen.
  apply (Hlt i); [lia|].
  rewrite <- (firstn_skipn k bytes).
  apply match_at_app; [rewrite length_firstn; lia | exact Hi].
Qed.

Lemma to_Int16Array_int16 (audioBytes : list Z) :
  Forall is_int16 (Serial.to_Int16Array audioBytes).
Proof.
  unfold Serial.to_Int16Array. apply Forall_forall. intros s Hs.
  apply in_map_iff in Hs. destruct Hs as [i [<- _]]. apply to_int16_range.
Qed.

Lemma after_recording_request_ok (st : Serial.State) :
  Forall request_ok (Serial.posted st) ->
  Forall request_ok (Serial.posted (Serial.after_recording st)).
Proof.
  intros H. unfold Serial.after_recording.
  destruct (length (Serial.audioBytes st) <? 512)%nat eqn:E; [exact H|].
  destruct (Serial.modelReady st); [|exact H].
  simpl. apply Forall_app. split; [exact H|]. constructor; [|constructor].
  apply Nat.ltb_ge in E. split; [|apply to_Int16Array_int16].
  rewrite to_Int16Array_length.
  apply (Nat.Div0.div_le_mono _ _ 2) in E. exact E.
Qed.

Lemma serial_step_request_ok (st : Serial.State) (ev : Serial.Event) :
  Forall request_ok (Serial.posted st) ->
  Forall request_ok (Serial.posted (Serial.step st ev)).
Proof.
  intros H. destruct ev; simpl; auto.
  - destruct (Serial.reading st); [|auto].
    unfold Serial.receiveLoop_read. destruct value as [|v vs]; [auto|]. cbv zeta.
    destruct (Serial.findEOF (Serial.audioBytes st ++ v :: vs) =? -1); [exact H|].
    now apply after_recording_request_ok.
  - destruct (Serial.reading st); [now apply after_recording_request_ok | auto].
  - destruct (Serial.reading st); [now apply after_recording_request_ok | auto].
  - rewrite serial_onmessage_transcript.
    now rewrite (proj2 (proj2 (proj2 (proj2 (serial_sendText_frame st _))))).
Qed.

(** Every request the Web Serial flavour posts to the worker holds at least
    256 samples, each within the int16 range; the recording it was built
    from, cut at the offset findEOF returned, holds no complete sentinel. *)
Theorem serial_requests_well_formed : forall (ready : bool) (evs : list Serial.Event),
  Forall request_ok (Serial.posted (Serial.run (Serial.connected ready) evs)) /\
  (forall (bytes : list Z) (k : nat),
     Serial.findEOF bytes = Z.of_nat k ->
     Serial.findEOF (firstn k bytes) = -1 /\ length (firstn k bytes) = k).
Proof.
  intros ready evs. split.
  - assert (H : forall st, Forall request_ok (Serial.posted st) ->
                  Forall request_ok (Serial.posted (Serial.run st evs))).
    { induction evs as [|ev evs IH]; intros st Hst; [exact Hst|].
      apply (IH (Serial.step st ev)). now apply serial_step_request_ok. }
    apply H. constructor.
  - intros bytes k Hk. split; [now apply findEOF_firstn|].
    apply findEOF_first in Hk. destruct Hk as [Hm _].
    apply match_at_length in Hm. rewrite length_firstn. lia.
Qed.

(** ** A whole recording, from the transport to the worker *)

Lemma serial_run_completes_within (chunks : list (list Z)) (st : Serial.State) (k : nat) :
  Serial.reading st = true ->
  Serial.read_until_EOF (Serial.audioBytes st) chunks = Z.of_nat k ->
  exists (pre : list (list Z)) (value : list Z) (post : list (list Z)),
    chunks = pre ++ value :: post /\
    Serial.run st (map Serial.Read (pre ++ [value])) =
    Serial.after_recording
      (Serial.set_audioBytes st
         (firstn k (Serial.audioBytes st ++ concat chunks)) true) /\
    (k + 4 <= length (Serial.audioBytes st ++ concat (pre ++ [value])))%nat.
Proof.
  revert st; induction chunks as [|value rest IH]; intros st Hr Hscan.
  - simpl in Hscan. lia.
  - simpl in Hscan. destruct value as [|v vs].
    + destruct (IH st Hr Hscan) as [pre [value [post [Hc [Hrun Hlen]]]]].
      exists ([] :: pre), value, post. split; [now rewrite Hc|]. split; [|exact Hlen].
      change (Serial.run st (map Serial.Read (([] :: pre) ++ [value])))
        with (Serial.run (Serial.step st (Serial.Read []))
                         (map Serial.Read (pre ++ [value]))).
      rewrite serial_step_Read_empty. exact Hrun.
    + destruct (Serial.findEOF (Serial.audioBytes st ++ v :: vs) =? -1) eqn:E.
      * apply Z.eqb_eq in E.
        destruct (IH (Serial.set_audioBytes st (Serial.audioBytes st ++ v :: vs) true)
                     Hr Hscan) as [pre [value [post [Hc [Hrun Hlen]]]]].
        exists ((v :: vs) :: pre), value, post. split; [now rewrite Hc|]. split.
        -- change (Serial.run st (map Serial.Read (((v :: vs) :: pre) ++ [value])))
             with (Serial.run (Serial.step st (Serial.Read (v :: vs)))
                              (map Serial.Read (pre ++ [value]))).
           rewrite serial_step_Read_no_eof by (auto; discriminate).
           rewrite Hrun.
           change (concat ((v :: vs) :: rest)) with ((v :: vs) ++ concat rest).
           rewrite (app_assoc (Serial.audioBytes st)). reflexivity.
        -- change (concat (((v :: vs) :: pre) ++ [value]))
             with ((v :: vs) ++ concat (pre ++ [value])).
           rewrite (app_assoc (Serial.audioBytes st)). exact Hlen.
      * exists [], (v :: vs), rest. split; [reflexivity|].
        pose proof Hscan as Hm. apply findEOF_first in Hm. destruct Hm as [Hm _].
        apply match_at_length in Hm. split.
        -- change (Serial.run st (map Serial.Read ([] ++ [v :: vs])))
             with (Serial.step st (Serial.Read (v :: vs))).
           rewrite (serial_step_Read_eof st (v :: vs) k Hr ltac:(discriminate) Hscan).
           change (concat ((v :: vs) :: rest)) with ((v :: vs) ++ concat rest).
           rewrite (app_assoc (Serial.audioBytes st)).
           rewrite (firstn_app k (Serial.audioBytes st ++ v :: vs)).
           replace (k - length (Serial.audioBytes st ++ v :: vs))%nat with 0%nat by lia.
           rewrite firstn_O, app_nil_r. reflexivity.
        -- change (concat ([] ++ [v :: vs])) with ((v :: vs) ++ []).
           rewrite app_nil_r. exact Hm.
Qed.

Lemma concat_nil_inv (A : Type) (l : list (list A)) :
  concat l = [] -> Forall (fun x => x = []) l.
Proof.
  induction l as [|x l IH]; intros H; [constructor|].
  simpl in H. apply app_eq_nil in H. destruct H as [Hx Hl].
  constructor; [exact Hx | now apply IH].
Qed.

Lemma serial_run_empty_reads (post : list (list Z)) (st : Serial.State) :
  Forall (fun x => x = []) post -> Serial.run st (map Serial.Read post) = st.
Proof.
  induction 1 as [|x l Hx Hl IH]; [reflexivity|]. subst x.
  change (Serial.run st (map Serial.Read ([] :: l)))
    with (Serial.run (Serial.step st (Serial.Read [])) (map Serial.Read l)).
  now rewrite serial_step_Read_empty.
Qed.

(** A recording of at least 512 bytes followed by the sentinel, with no
    earlier sentinel in the stream, cut into chunks in any way: once the
    last chunk is read the Web Serial flavour (model ready) has posted
    exactly one request, the samples of the recording, has written nothing,
    and waits for the next recording with an empty buffer. *)
Theorem serial_recording_to_request :
  forall (chunks : list (list Z)) (recording : list Z),
  concat chunks = recording ++ Serial.EOF_MARKER ->
  Serial.findEOF (recording ++ Serial.EOF_MARKER) = Z.of_nat (length recording) ->
  (512 <= length recording)%nat ->
  Serial.run (Serial.connected true) (map Serial.Read chunks) =
  Serial.mkState (Serial.port (Serial.connected true)) true [] false
                 [Serial.to_Int16Array recording] [].
Proof.
  intros chunks recording Hc Hf Hlen.
  assert (Hscan : Serial.read_until_EOF (Serial.audioBytes (Serial.connected true)) chunks =
                  Z.of_nat (length recording)).
  { simpl. rewrite read_until_EOF_scan by reflexivity. simpl. now rewrite Hc. }
  destruct (serial_run_completes_within chunks (Serial.connected true) (length recording)
              eq_refl Hscan) as [pre [value [post [Hch [Hrun Hwithin]]]]].
  assert (Hpost : concat post = []).
  { assert (Hl : length (concat chunks) = (length recording + 4)%nat)
      by (rewrite Hc, length_app; reflexivity).
    rewrite Hch in Hl.
    replace (pre ++ value :: post) with ((pre ++ [value]) ++ post) in Hl
      by (now rewrite <- app_assoc).
    rewrite concat_app, length_app in Hl. simpl in Hwithin.
    apply length_zero_iff_nil. lia. }
  rewrite Hch.
  replace (pre ++ value :: post) with ((pre ++ [value]) ++ post)
    by (now rewrite <- app_assoc).
  rewrite map_app, run_app, Hrun.
  rewrite serial_run_empty_reads by (now apply concat_nil_inv).
  simpl Serial.audioBytes. simpl app. rewrite Hc.
  rewrite firstn_app, Nat.sub_diag, firstn_O, app_nil_r, firstn_all.
  unfold Serial.after_recording. simpl Serial.audioBytes.
  destruct (length recording <? 512)%nat eqn:E; [apply Nat.ltb_lt in E; lia|].
  reflexivity.
Qed.

Lemma serial_recording_to_request_witness :
  Serial.posted
    (Serial.run (Serial.connected true)
       (map Serial.Read [repeat 7 300; repeat 7 212 ++ [0xFF; 0xFE]; []; [0xFD; 0xFC]])) =
  [Serial.to_Int16Array (repeat 7 512)].
Proof.
  rewrite (serial_recording_to_request
             [repeat 7 300; repeat 7 212 ++ [0xFF; 0xFE]; []; [0xFD; 0xFC]]
             (repeat 7 512)).
  - reflexivity.
  - vm_compute; reflexivity.
  - vm_compute; reflexivity.
  - rewrite repeat_length. lia.
Defined.

Lemma seq_from (m n : nat) : seq m n = map (Nat.add m) (seq 0 n).
Proof.
  induction m as [|m IH].
  - simpl. now rewrite map_id.
  - rewrite <- seq_shift, IH, map_map. reflexivity.
Qed.

(** Pairing up the bytes of two buffers, the first of even length, is
    pairing up each of them. *)
Lemma pairs_with_app (f : Z -> Z -> Z) (a b : list Z) :
  Nat.even (length a) = true ->
  pairs_with f (a ++ b) = pairs_with f a ++ pairs_with f b.
Proof.
  intros Hev. apply Nat.even_spec in Hev. destruct Hev as [m Hm].
  unfold pairs_with. rewrite length_app, Hm.
  replace ((2 * m + length b) / 2)%nat with (m + length b / 2)%nat
    by (rewrite (Nat.mul_comm 2 m), Nat.div_add_l by lia; reflexivity).
  replace (2 * m / 2)%nat with m
    by (rewrite (Nat.mul_comm 2 m), Nat.div_mul by lia; reflexivity).
  rewrite seq_app, map_app. f_equal.
  - apply map_ext_in. intros i Hi. apply in_seq in Hi.
    rewrite !app_nth1 by lia. reflexivity.
  - change (0 + m)%nat with m.
    rewrite (seq_from m), map_map. apply map_ext. intros j.
    rewrite !app_nth2 by lia.
    replace (2 * (m + j) - length a)%nat with (2 * j)%nat by lia.
    replace (2 * (m + j) + 1 - length a)%nat with (2 * j + 1)%nat by lia.
    reflexivity.
Qed.

Lemma to_Int16Array_pairs (data : list Z) :
  Serial.to_Int16Array data =
  pairs_with (fun lo hi => JS.to_int16 (Z.lor lo (Z.shiftl hi 8))) data.
Proof.
  unfold Serial.to_Int16Array, pairs_with. apply map_ext. intros i.
  now rewrite (Nat.mul_comm i 2).
Qed.

Lemma to_Int16Array_app (a b : list Z) :
  Nat.even (length a) = true ->
  Serial.to_Int16Array (a ++ b) = Serial.to_Int16Array a ++ Serial.to_Int16Array b.
Proof. intros H. rewrite !to_Int16Array_pairs. now apply pairs_with_app. Qed.

(** On an even number of bytes the view [new Int16Array(buffer)] of the
    WebUSB flavour and the conversion loop of the Web Serial flavour give
    the same samples. *)
Lemma Int16Array_of_buffer_bytes (data : list Z) :
  Nat.even (length data) = true -> Forall is_byte data ->
  JS.Int16Array_of_buffer data = Some (Serial.to_Int16Array data).
Proof.
  intros Hev Hb. unfold JS.Int16Array_of_buffer. rewrite Hev. f_equal.
  unfold Serial.to_Int16Array. apply map_ext. intros i.
  rewrite (Nat.mul_comm i 2).
  rewrite lor_shiftl_8; [reflexivity | now apply nth_is_byte |].
  now apply (nth_is_byte data (2 * i + 1)).
Qed.

Lemma concat_to_Int16Array (chunks : list (list Z)) :
  Forall storable chunks ->
  concat (map Serial.to_Int16Array chunks) = Serial.to_Int16Array (concat chunks).
Proof.
  induction 1 as [|c l [Hev _] Hl IH]; [reflexivity|].
  simpl. rewrite IH. symmetry. now apply to_Int16Array_app.
Qed.

Lemma webusb_drain_run (chunks : list (list Z)) (st : WebUSB.State) :
  WebUSB.device st = true -> WebUSB.phase st = WebUSB.Draining ->
  Forall storable chunks ->
  WebUSB.run st (map (fun c => WebUSB.TransferIn (Some c)) chunks) =
  (match chunks with
   | [] => st
   | _ :: _ =>
       WebUSB.mkState true (WebUSB.modelReady st) true WebUSB.Draining
         (WebUSB.audioChunks st ++ map Serial.to_Int16Array chunks)
         (WebUSB.posted st) (WebUSB.written st)
   end).
Proof.
  intros Hd Hp Hall. revert st Hd Hp.
  induction Hall as [|c l [Hev [He Hb]] Hl IH]; intros st Hd Hp; [reflexivity|].
  change (WebUSB.run st (map (fun c => WebUSB.TransferIn (Some c)) (c :: l)))
    with (WebUSB.run (WebUSB.step st (WebUSB.TransferIn (Some c)))
                     (map (fun c => WebUSB.TransferIn (Some c)) l)).
  assert (Hs : WebUSB.step st (WebUSB.TransferIn (Some c)) =
               WebUSB.push_chunk st (Serial.to_Int16Array c)).
  { simpl. rewrite Hd, Hp. unfold WebUSB.receiveLoop_drain.
    now rewrite He, Int16Array_of_buffer_bytes. }
  rewrite Hs. rewrite IH; [|exact Hd | reflexivity].
  destruct l as [|c' l'].
  - unfold WebUSB.push_chunk. now rewrite Hd.
  - simpl. rewrite <- app_assoc. reflexivity.
Qed.

(** The transfers of one recording in the WebUSB flavour, each of an even
    number of bytes and none starting with the sentinel, followed by a
    transfer that starts with the sentinel: with the model ready, exactly
    one request is posted, and it holds the samples the Web Serial
    conversion gives for the bytes of all these transfers put together;
    nothing is written and the loop waits for the next recording. *)
Theorem webusb_recording_to_request :
  forall (first : list Z) (more : list (list Z)) (eof : list Z),
  Forall storable (first :: more) -> WebUSB.isEOF eof = true ->
  WebUSB.run (WebUSB.connected true)
    (map (fun c => WebUSB.TransferIn (Some c)) (first :: more) ++
     [WebUSB.TransferIn (Some eof)]) =
  WebUSB.mkState true true false WebUSB.Waiting []
                 [Serial.to_Int16Array (concat (first :: more))] [].
Proof.
  intros first more eof Hall He.
  pose proof (concat_to_Int16Array _ Hall) as Hcat.
  inversion Hall as [|c l [Hev [Hne Hb]] Hmore]; subst.
  unfold WebUSB.run. rewrite fold_left_app.
  fold (WebUSB.run (WebUSB.connected true)
          (map (fun c => WebUSB.TransferIn (Some c)) (first :: more))).
  change (WebUSB.run (WebUSB.connected true)
            (map (fun c => WebUSB.TransferIn (Some c)) (first :: more)))
    with (WebUSB.run (WebUSB.step (WebUSB.connected true) (WebUSB.TransferIn (Some first)))
            (map (fun c => WebUSB.TransferIn (Some c)) more)).
  assert (Hs : WebUSB.step (WebUSB.connected true) (WebUSB.TransferIn (Some first)) =
               WebUSB.push_chunk (WebUSB.connected true) (Serial.to_Int16Array first)).
  { simpl. unfold WebUSB.receiveLoop_first.
    now rewrite Hne, Int16Array_of_buffer_bytes. }
  rewrite Hs, webusb_drain_run by (auto; reflexivity).
  simpl in Hcat.
  destruct more as [|c' l']; simpl fold_left; unfold WebUSB.receiveLoop_drain;
    rewrite He; unfold WebUSB.after_drain; simpl.
  all: unfold WebUSB.next_iteration, WebUSB.postMessage, WebUSB.push_chunk; simpl;
    simpl in Hcat; now rewrite Hcat.
Qed.

Lemma webusb_recording_to_request_witness :
  WebUSB.posted
    (WebUSB.run (WebUSB.connected true)
       (map (fun c => WebUSB.TransferIn (Some c)) [[0x10; 0x20]; []; [0x30; 0x40; 0xFF; 0x7F]] ++
        [WebUSB.TransferIn (Some [0xFF; 0xFE; 0xFD; 0xFC; 0x00])])) =
  [[0x2010; 0x4030; 0x7FFF]].
Proof.
  assert (Hall : Forall storable [[0x10; 0x20]; []; [0x30; 0x40; 0xFF; 0x7F]])
    by (repeat constructor; unfold is_byte; lia).
  rewrite (webusb_recording_to_request [0x10; 0x20] [[]; [0x30; 0x40; 0xFF; 0x7F]]
             [0xFF; 0xFE; 0xFD; 0xFC; 0x00] Hall eq_refl).
  reflexivity.
Defined.

(** ** The bytes of a reply *)

Lemma scalars_unfold (s : JS.jsstring) :
  JS.scalars s =
  match s with
  | [] => []
  | u :: rest =>
      if JS.isHighSurrogate u then
        match rest with
        | l :: rest' =>
            if JS.isLowSurrogate l
            then (0x10000 + Z.shiftl (u - 0xD800) 10 + (l - 0xDC00)) :: JS.scalars rest'
            else 0xFFFD :: JS.scalars rest
        | [] => [0xFFFD]
        end
      else if JS.isLowSurrogate u then 0xFFFD :: JS.scalars rest
      else u :: JS.scalars rest
  end.
Proof. destruct s; reflexivity. Qed.

(** Induction along the way [JS.scalars] reads a string: a surrogate pair, a
    lone surrogate, any other code unit. *)
Lemma scalars_rel_ind (P : JS.jsstring -> list Z -> Prop) :
  P [] [] ->
  (forall u l rest out,
     JS.isHighSurrogate u = true -> JS.isLowSurrogate l = true -> P rest out ->
     P (u :: l :: rest) ((0x10000 + Z.shiftl (u - 0xD800) 10 + (l - 0xDC00)) :: out)) ->
  (forall u rest out, P rest out -> P (u :: rest) (0xFFFD :: out)) ->
  (forall u rest out,
     JS.isHighSurrogate u = false -> JS.isLowSurrogate u = false -> P rest out ->
     P (u :: rest) (u :: out)) ->
  forall s, P s (JS.scalars s).
Proof.
  intros Hnil Hpair Hlone Hplain.
  assert (H : forall s, P s (JS.scalars s) /\ forall u, P (u :: s) (JS.scalars (u :: s))).
  { induction s as [|a s [IH1 IH2]].
    - split; [exact Hnil|]. intros u. rewrite scalars_unfold.
      destruct (JS.isHighSurrogate u) eqn:Hh; [now apply Hlone|].
      destruct (JS.isLowSurrogate u) eqn:Hl; [now apply Hlone | now apply Hplain].
    - split; [apply IH2|]. intros u. rewrite scalars_unfold.
      destruct (JS.isHighSurrogate u) eqn:Hh.
      + destruct (JS.isLowSurrogate a) eqn:Hla; [now apply Hpair | apply Hlone, IH2].
      + destruct (JS.isLowSurrogate u) eqn:Hl; [apply Hlone, IH2 | apply Hplain; auto]. }
  intros s. apply H.
Qed.

Lemma surrogate_pair_range (u l : Z) :
  JS.isHighSurrogate u = true -> JS.isLowSurrogate l = true ->
  0x10000 <= 0x10000 + Z.shiftl (u - 0xD800) 10 + (l - 0xDC00) <= 0x10FFFF.
Proof.
  unfold JS.isHighSurrogate, JS.isLowSurrogate. intros Hu Hl.
  apply andb_true_iff in Hu, Hl. destruct Hu as [Hu1 Hu2]. destruct Hl as [Hl1 Hl2].
  apply Z.leb_le in Hu1, Hu2, Hl1, Hl2.
  rewrite Z.shiftl_mul_pow2 by lia. change (2 ^ 10) with 1024. lia.
Qed.










Lemma lor_below (a b n : Z) :
  0 < n -> 0 <= a < 2 ^ n -> 0 <= b < 2 ^ n -> 0 <= Z.lor a b < 2 ^ n.
Proof.
  intros Hn Ha Hb.
  assert (H0 : 0 <= Z.lor a b) by (apply Z.lor_nonneg; lia).
  split; [exact H0|].
  destruct (Z.eq_dec (Z.lor a b) 0) as [-> | Hne]; [apply Z.pow_pos_nonneg; lia|].
  apply Z.log2_lt_pow2; [lia|].
  rewrite Z.log2_lor by lia.
  assert (Hl : forall x, 0 <= x < 2 ^ n -> Z.log2 x < n).
  { intros x Hx. destruct (Z.eq_dec x 0) as [-> | Hx0]; [simpl; lia|].
    apply Z.log2_lt_pow2; lia. }
  apply Z.max_lub_lt; apply Hl; assumption.
Qed.

Lemma land_63 (c : Z) : 0 <= Z.land c 0x3F < 64.
Proof.
  change 0x3F with (Z.ones 6). rewrite Z.land_ones by lia.
  apply Z.mod_pos_bound. reflexivity.
Qed.

Lemma continuation_byte (x : Z) : is_byte (Z.lor 0x80 (Z.land x 0x3F)).
Proof.
  unfold is_byte. pose proof (land_63 x).
  apply (lor_below 0x80 (Z.land x 0x3F) 8); simpl; lia.
Qed.

Lemma utf8_of_scalar_bytes (c : Z) :
  0 <= c <= 0x10FFFF ->
  Forall is_byte (JS.utf8_of_scalar c) /\
  (1 <= length (JS.utf8_of_scalar c) <= 4)%nat /\
  (c < 0x10000 -> (length (JS.utf8_of_scalar c) <= 3)%nat).
Proof.
  intros Hc. unfold JS.utf8_of_scalar.
  destruct (c <? 0x80) eqn:E1.
  { apply Z.ltb_lt in E1. split; [|simpl; lia].
    repeat constructor; lia. }
  apply Z.ltb_ge in E1.
  assert (Hlead : forall k n, 0 <= k -> 0 < n < 8 ->
                    0 <= c < 2 ^ n * 2 ^ k ->
                    is_byte (Z.lor (256 - 2 ^ (n + 1)) (Z.shiftr c k))).
  { intros k n Hk Hn Hck. unfold is_byte.
    rewrite Z.shiftr_div_pow2 by lia.
    assert (0 <= c / 2 ^ k < 2 ^ n).
    { split; [apply Z.div_pos; lia|].
      apply Z.div_lt_upper_bound; lia. }
    assert (2 ^ n < 2 ^ 8) by (apply Z.pow_lt_mono_r; lia).
    assert (0 < 2 ^ (n + 1) <= 2 ^ 8)
      by (split; [apply Z.pow_pos_nonneg; lia | apply Z.pow_le_mono_r; lia]).
    change 256 with (2 ^ 8). apply lor_below; lia. }
  destruct (c <? 0x800) eqn:E2.
  { apply Z.ltb_lt in E2. split; [|simpl; lia].
    constructor; [|constructor; [apply continuation_byte | constructor]].
    apply (Hlead 6 5); simpl; lia. }
  apply Z.ltb_ge in E2.
  destruct (c <? 0x10000) eqn:E3.
  { apply Z.ltb_lt in E3. split; [|simpl; lia].
    constructor; [|repeat (constructor; [apply continuation_byte|]); constructor].
    apply (Hlead 12 4); simpl; lia. }
  apply Z.ltb_ge in E3. split; [|simpl; lia].
  constructor; [|repeat (constructor; [apply continuation_byte|]); constructor].
  apply (Hlead 18 3); simpl; lia.
Qed.

Lemma encode_bytes_and_length (text : JS.jsstring) :
  Forall is_code_unit text ->
  Forall is_byte (JS.TextEncoder_encode text) /\
  (length text <= length (JS.TextEncoder_encode text) <= 3 * length text)%nat.
Proof.
  unfold JS.TextEncoder_encode.
  apply (scalars_rel_ind (fun s out =>
           Forall is_code_unit s ->
           Forall is_byte (flat_map JS.utf8_of_scalar out) /\
           (length s <= length (flat_map JS.utf8_of_scalar out) <= 3 * length s)%nat)).
  - intros _. split; [constructor | simpl; lia].
  - intros u l rest out Hu Hl IH Hs.
    inversion Hs as [|? ? _ Hs']; subst. inversion Hs' as [|? ? _ Hs'']; subst.
    destruct (IH Hs'') as [IHb IHl].
    pose proof (surrogate_pair_range u l Hu Hl) as Hr.
    assert (Hr' : 0 <= 0x10000 + Z.shiftl (u - 0xD800) 10 + (l - 0xDC00) <= 0x10FFFF)
      by lia.
    destruct (utf8_of_scalar_bytes _ Hr') as [Hb [Hlen _]].
    cbn [flat_map]. split; [apply Forall_app; split; [exact Hb | exact IHb]|].
    rewrite length_app.
    assert (length (JS.utf8_of_scalar
                      (0x10000 + Z.shiftl (u - 0xD800) 10 + (l - 0xDC00))) = 4%nat).
    { unfold JS.utf8_of_scalar.
      destruct (_ <? 0x80) eqn:E1; [apply Z.ltb_lt in E1; lia|].
      destruct (_ <? 0x800) eqn:E2; [apply Z.ltb_lt in E2; lia|].
      destruct (_ <? 0x10000) eqn:E3; [apply Z.ltb_lt in E3; lia | reflexivity]. }
    cbn [length]. lia.
  - intros u rest out IH Hs. inversion Hs as [|? ? _ Hs']; subst.
    destruct (IH Hs') as [IHb IHl].
    change (flat_map JS.utf8_of_scalar (0xFFFD :: out))
      with ([0xEF; 0xBF; 0xBD] ++ flat_map JS.utf8_of_scalar out).
    split; [apply Forall_app; split; [repeat constructor; lia | exact IHb]|].
    rewrite length_app. cbn [length]. lia.
  - intros u rest out _ _ IH Hs. inversion Hs as [|? ? Hu Hs']; subst.
    destruct (IH Hs') as [IHb IHl]. unfold is_code_unit in Hu.
    destruct (utf8_of_scalar_bytes u ltac:(lia)) as [Hb [Hlen H3]].
    cbn [flat_map]. split; [apply Forall_app; split; [exact Hb | exact IHb]|].
    rewrite length_app. cbn [length]. specialize (H3 ltac:(lia)). lia.
Qed.

(** What sendText writes for a text of UTF-16 code units, on a port that is
    there and writable.  With no earlier write pending it issues one write,
    a sequence of bytes, at least as many as the text has code units plus
    one, at most three per code unit plus one, and holds the lock of the
    writer from then on; while an earlier write is pending it writes
    nothing and changes nothing. *)
Theorem reply_is_bytes : forall (st : SerialPage.State) (text : JS.jsstring),
  Forall is_code_unit text -> serial_can_write (SerialPage.page st) = true ->
  (SerialPage.writerLocked st = false ->
   exists msg : list Z,
     Serial.written (SerialPage.page (SerialPage.sendText st text)) =
       Serial.written (SerialPage.page st) ++ [msg] /\
     Forall is_byte msg /\
     (length text + 1 <= length msg <= 3 * length text + 1)%nat /\
     SerialPage.writerLocked (SerialPage.sendText st text) = true) /\
  (SerialPage.writerLocked st = true -> SerialPage.sendText st text = st).
Proof.
  intros st text Ht Hw. split.
  - intros Hl. exists (JS.TextEncoder_encode text ++ [0]).
    destruct (encode_bytes_and_length text Ht) as [Hb Hlen].
    split; [now rewrite page_sendText_written, Hw, Hl|]. split; [|split].
    + apply Forall_app. split; [exact Hb | repeat constructor; lia].
    + rewrite length_app. simpl length. lia.
    + rewrite (proj2 (proj2 (proj2 (page_sendText_frame st text)))), Hw.
      apply orb_true_r.
  - intros Hl. unfold SerialPage.sendText. rewrite Hl.
    destruct (Serial.port (SerialPage.page st)) as [p|]; [|reflexivity].
    destruct (Serial.writable p); reflexivity.
Qed.

Lemma reply_is_bytes_witness :
  exists msg : list Z,
    Serial.written (SerialPage.page
      (SerialPage.sendText (SerialPage.connected true) [0x68; 0xE9; 0xD83D; 0xDE00; 0xDC00])) =
      Serial.written (SerialPage.page (SerialPage.connected true)) ++ [msg] /\
    Forall is_byte msg /\ (5 + 1 <= length msg <= 3 * 5 + 1)%nat /\
    SerialPage.writerLocked
      (SerialPage.sendText (SerialPage.connected true) [0x68; 0xE9; 0xD83D; 0xDE00; 0xDC00]) =
      true.
Proof.
  apply (reply_is_bytes (SerialPage.connected true) [0x68; 0xE9; 0xD83D; 0xDE00; 0xDC00]).
  - repeat constructor; unfold is_code_unit; lia.
  - reflexivity.
  - reflexivity.
Defined.

(** ** Trimming, in the worker and in the page *)

Lemma trimStart_head (s : JS.jsstring) :
  JS.trimStart s = [] \/
  exists c r, JS.trimStart s = c :: r /\ JS.isWhiteSpace c = false.
Proof.
  induction s as [|c s IH]; simpl; [now left|].
  destruct (JS.isWhiteSpace c) eqn:E; [exact IH|].
  right. now exists c, s.
Qed.

Lemma trimStart_fixed (c : Z) (r : JS.jsstring) :
  JS.isWhiteSpace c = false -> JS.trimStart (c :: r) = c :: r.
Proof. intros H. simpl. now rewrite H. Qed.

Lemma trimStart_idem (s : JS.jsstring) :
  JS.trimStart (JS.trimStart s) = JS.trimStart s.
Proof.
  destruct (trimStart_head s) as [-> | [c [r [-> Hc]]]]; [reflexivity|].
  now apply trimStart_fixed.
Qed.

Lemma trimStart_snoc (x : JS.jsstring) (c : Z) :
  JS.isWhiteSpace c = false -> exists y, JS.trimStart (x ++ [c]) = y ++ [c].
Proof.
  intros Hc. induction x as [|a x IH].
  - exists []. simpl. now rewrite Hc.
  - simpl. destruct (JS.isWhiteSpace a); [exact IH|]. now exists (a :: x).
Qed.

Lemma trimEnd_head (c : Z) (r : JS.jsstring) :
  JS.isWhiteSpace c = false -> exists r', JS.trimEnd (c :: r) = c :: r'.
Proof.
  intros Hc. unfold JS.trimEnd. simpl rev.
  destruct (trimStart_snoc (rev r) c Hc) as [y ->].
  exists (rev y). now rewrite rev_app_distr.
Qed.

Lemma trimEnd_idem (t : JS.jsstring) : JS.trimEnd (JS.trimEnd t) = JS.trimEnd t.
Proof.
  unfold JS.trimEnd. now rewrite rev_involutive, trimStart_idem.
Qed.

Lemma trim_idem (s : JS.jsstring) : JS.trim (JS.trim s) = JS.trim s.
Proof.
  unfold JS.trim.
  destruct (trimStart_head s) as [-> | [c [r [-> Hc]]]]; [reflexivity|].
  destruct (trimEnd_head c r Hc) as [r' E]. rewrite E.
  rewrite (trimStart_fixed c r' Hc). rewrite <- E. apply trimEnd_idem.
Qed.



(** ** The two workers compared; order and sign of the samples *)

Section WorkerFacts.
Context {R : Number.Rounding} {L : Number.RoundingLaws R}.
Import Number.
Open Scope Q_scope.

(** With the fallback scale a sample comes out as itself over 32768. *)
Lemma fallback_sample_exact (x : Z) :
  is_int16 x ->
  rnd32 (rnd64 (inject_Z x * rnd64 (1 / inject_Z 32768))) == inject_Z x / inject_Z 32768.
Proof.
  intros Hx. unfold is_int16 in Hx.
  destruct fallback_scale as [_ Hf].
  assert (H64 : rnd64 (inject_Z x * rnd64 (1 / inject_Z 32768))
                == inject_Z x / inject_Z 32768).
  { rewrite (rnd64_proper _ (inject_Z x / inject_Z (2 ^ Z.of_nat 15))).
    - exact (rnd64_dyadic x 15 ltac:(simpl; lia) ltac:(lia)).
    - rewrite Hf. change (inject_Z (2 ^ Z.of_nat 15)) with (32768 # 1).
      unfold Qdiv. change (/ (32768 # 1)) with (1 # 32768). reflexivity. }
  rewrite (rnd32_proper _ _ H64).
  exact (rnd32_dyadic x 15 ltac:(simpl; lia) ltac:(lia)).
Qed.

Lemma scale_cases (audioData : list Z) :
  Forall is_int16 audioData ->
  exists sc : Q,
    WorkerPeak.scale audioData = Finite sc /\ 1 # 65536 <= sc <= 1 /\
    sc * inject_Z (WorkerPeak.peak audioData) <= 1.
Proof.
  intros Hint. unfold WorkerPeak.scale.
  destruct (peak_spec audioData) as [Hp0 _].
  pose proof (peak_int16 audioData Hint) as Hp1.
  destruct (50 <? WorkerPeak.peak audioData)%Z eqn:E.
  - apply Z.ltb_lt in E. unfold lit_0_9. rewrite div_int_finite by lia.
    eexists; split; [reflexivity|].
    destruct (peak_scale_bound (WorkerPeak.peak audioData)) as [Hs0 Hs1]; [lia|].
    assert (HP : 51 <= inject_Z (WorkerPeak.peak audioData) <= 32768).
    { split; [change 51 with (inject_Z 51) | change 32768 with (inject_Z 32768)];
        rewrite <- Zle_Qle; lia. }
    destruct (rnd64_close (9 # 10)) as [Hc1 Hc2]; [lra | lra |].
    set (c := rnd64 (9 # 10)) in *.
    set (P := inject_Z (WorkerPeak.peak audioData)) in *.
    assert (Hy : c / P * P == c) by (field; intros H0; rewrite H0 in HP; lra).
    assert (Hy1 : 1 # 1000000 <= c / P) by (apply Qle_shift_div_l; [lra | nra]).
    assert (Hy2 : c / P <= 1) by (apply Qle_shift_div_r; [lra | nra]).
    destruct (rnd64_close (c / P) Hy1 Hy2) as [Hs2 Hs3].
    assert (Hy4 : c / P <= 1 # 10) by (apply Qle_shift_div_r; [lra | nra]).
    set (y := c / P) in *.
    split; [|exact Hs1]. split; [|lra].
    assert (Hlow : 1 # 65536 <= y * (999 # 1000)).
    { assert (Hy3 : (898 # 1000) <= y * 32768) by nra. lra. }
    lra.
  - apply Z.ltb_ge in E. destruct fallback_scale as [-> Hf].
    eexists; split; [reflexivity|]. rewrite Hf. split.
    + split; unfold Qle; simpl; lia.
    + assert (HP : inject_Z (WorkerPeak.peak audioData) <= 50)
        by (change 50 with (inject_Z 50); rewrite <- Zle_Qle; lia).
      lra.
Qed.

End WorkerFacts.

(** Below the noise floor the peak-normalising worker gives what the naive
    worker gives: for a buffer of peak 50 or less, every sample comes out of
    both as the same number, the sample over 32768. *)
Theorem quiet_buffer_workers_agree :
  forall (R : Number.Rounding) (audioData : list Z) (x : Z),
  Number.RoundingLaws R -> Forall is_int16 audioData ->
  WorkerPeak.peak audioData <= 50 -> In x audioData ->
  exists qn qp : Q,
    Number.to_float32 (Number.div (Number.of_int x) (Number.of_int 32768)) =
      Number.Finite qn /\
    Number.to_float32 (Number.mul (Number.of_int x) (WorkerPeak.scale audioData)) =
      Number.Finite qp /\
    (qn == inject_Z x / inject_Z 32768)%Q /\ (qp == qn)%Q.
Proof.
  intros R audioData x L Hint Hp Hx.
  assert (Hx16 : is_int16 x) by (rewrite Forall_forall in Hint; now apply Hint).
  exists (Number.rnd32 (Number.rnd64 (inject_Z x / inject_Z 32768))).
  exists (Number.rnd32 (Number.rnd64 (inject_Z x * Number.rnd64 (1 / inject_Z 32768)))).
  split; [reflexivity|]. split.
  - unfold WorkerPeak.scale. apply Z.ltb_ge in Hp. rewrite Hp. reflexivity.
  - split; [now apply naive_sample_exact|].
    rewrite fallback_sample_exact, naive_sample_exact by exact Hx16. reflexivity.
Qed.

Lemma quiet_buffer_workers_agree_witness :
  exists qn qp : Q,
    @Number.to_float32 Number.exact
      (@Number.div Number.exact (Number.of_int (-40)) (Number.of_int 32768)) =
      Number.Finite qn /\
    @Number.to_float32 Number.exact
      (@Number.mul Number.exact (Number.of_int (-40))
         (@WorkerPeak.scale Number.exact [12; -40; 0])) = Number.Finite qp /\
    (qn == inject_Z (-40) / inject_Z 32768)%Q /\ (qp == qn)%Q.
Proof.
  apply (quiet_buffer_workers_agree Number.exact [12; -40; 0] (-40) exact_laws).
  - repeat constructor; unfold is_int16; lia.
  - vm_compute. discriminate.
  - simpl. auto.
Defined.

(** The peak-normalising worker keeps the order and the sign of the
    samples: of two samples of a buffer the smaller one comes out no
    larger, a positive sample comes out positive and a negative one
    negative (no sample of a quiet recording is flushed to zero). *)
Theorem peak_worker_keeps_order_and_sign :
  forall (R : Number.Rounding) (audioData : list Z) (x y : Z),
  Number.RoundingLaws R -> Forall is_int16 audioData ->
  In x audioData -> In y audioData -> x <= y ->
  exists qx qy : Q,
    Number.to_float32 (Number.mul (Number.of_int x) (WorkerPeak.scale audioData)) =
      Number.Finite qx /\
    Number.to_float32 (Number.mul (Number.of_int y) (WorkerPeak.scale audioData)) =
      Number.Finite qy /\
    (qx <= qy)%Q /\
    (0 < x -> (0 < qx)%Q) /\ (x < 0 -> (qx < 0)%Q).
Proof.
  intros R audioData x y L Hint Hx Hy Hxy.
  destruct (scale_cases audioData Hint) as [sc [Hsc [[Hlo Hhi] Hpk]]].
  rewrite Hsc.
  exists (Number.rnd32 (Number.rnd64 (inject_Z x * sc))).
  exists (Number.rnd32 (Number.rnd64 (inject_Z y * sc))).
  split; [reflexivity|]. split; [reflexivity|].
  destruct (peak_spec audioData) as [Hp0 [Hall _]].
  pose proof (Hall x Hx) as Hxp.
  destruct (inject_Z_abs_le x _ Hxp) as [Hx1 Hx2].
  assert (Hxy' : (inject_Z x <= inject_Z y)%Q) by (now rewrite <- Zle_Qle).
  split; [apply Number.rnd32_mono, Number.rnd64_mono; nra|]. split.
  - intros Hpos.
    assert (H1 : (1 <= inject_Z x)%Q)
      by (change 1%Q with (inject_Z 1); rewrite <- Zle_Qle; lia).
    destruct (rnd64_close (inject_Z x * sc)) as [Hr _]; [nra | nra |].
    assert (Hd : (Number.rnd32 (inject_Z 1 / inject_Z (2 ^ Z.of_nat 17))
                  == inject_Z 1 / inject_Z (2 ^ Z.of_nat 17))%Q)
      by (apply Number.rnd32_dyadic; [simpl; lia | lia]).
    assert (Hm : (Number.rnd32 (inject_Z 1 / inject_Z (2 ^ Z.of_nat 17))
                  <= Number.rnd32 (Number.rnd64 (inject_Z x * sc)))%Q).
    { apply Number.rnd32_mono.
      change (inject_Z 1 / inject_Z (2 ^ Z.of_nat 17))%Q with ((1 # 1) / (131072 # 1))%Q.
      apply Qle_shift_div_r; [reflexivity|]. nra. }
    rewrite Hd in Hm.
    change (inject_Z 1 / inject_Z (2 ^ Z.of_nat 17))%Q with ((1 # 1) / (131072 # 1))%Q in Hm.
    assert (0 < (1 # 1) / (131072 # 1))%Q by reflexivity. lra.
  - intros Hneg.
    assert (H1 : (inject_Z x <= -1)%Q)
      by (change (-1)%Q with (inject_Z (-1)); rewrite <- Zle_Qle; lia).
    destruct (rnd64_close_neg (inject_Z x * sc)) as [_ Hr]; [nra | nra |].
    assert (Hd : (Number.rnd32 (inject_Z (-1) / inject_Z (2 ^ Z.of_nat 17))
                  == inject_Z (-1) / inject_Z (2 ^ Z.of_nat 17))%Q)
      by (apply Number.rnd32_dyadic; [simpl; lia | lia]).
    assert (Hm : (Number.rnd32 (Number.rnd64 (inject_Z x * sc))
                  <= Number.rnd32 (inject_Z (-1) / inject_Z (2 ^ Z.of_nat 17)))%Q).
    { apply Number.rnd32_mono.
      change (inject_Z (-1) / inject_Z (2 ^ Z.of_nat 17))%Q
        with ((-1 # 1) / (131072 # 1))%Q.
      apply Qle_shift_div_l; [reflexivity|]. nra. }
    rewrite Hd in Hm.
    change (inject_Z (-1) / inject_Z (2 ^ Z.of_nat 17))%Q
      with ((-1 # 1) / (131072 # 1))%Q in Hm.
    assert ((-1 # 1) / (131072 # 1) < 0)%Q by reflexivity. lra.
Qed.

Lemma peak_worker_keeps_order_and_sign_witness :
  exists qx qy : Q,
    @Number.to_float32 Number.exact
      (@Number.mul Number.exact (Number.of_int (-3))
         (@WorkerPeak.scale Number.exact [200; -3; 7])) = Number.Finite qx /\
    @Number.to_float32 Number.exact
      (@Number.mul Number.exact (Number.of_int 7)
         (@WorkerPeak.scale Number.exact [200; -3; 7])) = Number.Finite qy /\
    (qx <= qy)%Q /\ (0 < -3 -> (0 < qx)%Q) /\ (-3 < 0 -> (qx < 0)%Q).
Proof.
  apply (peak_worker_keeps_order_and_sign Number.exact [200; -3; 7] (-3) 7 exact_laws).
  - repeat constructor; unfold is_int16; lia.
  - simpl. auto.
  - simpl. auto.
  - lia.
Defined.

(** ** The message loop of the worker *)

Lemma app_snoc_split (A : Type) (out l1 l2 : list A) (m x : A) :
  out ++ [m] = l1 ++ x :: l2 ->
  (l2 = [] /\ out = l1 /\ m = x) \/
  (exists l2', l2 = l2' ++ [m] /\ out = l1 ++ x :: l2').
Proof.
  intros H. destruct (exists_last (l := x :: l2) ltac:(discriminate)) as [l' [z Hz]].
  destruct l2 as [|y l2].
  - left. change (l1 ++ [x]) with (l1 ++ [x]) in H.
    apply app_inj_tail in H. destruct H as [-> ->]. auto.
  - right. destruct (exists_last (l := y :: l2) ltac:(discriminate)) as [l2' [w Hw]].
    rewrite Hw in H.
    replace (l1 ++ x :: l2' ++ [w]) with ((l1 ++ x :: l2') ++ [w]) in H
      by (now rewrite <- app_assoc).
    apply app_inj_tail in H. destruct H as [-> ->].
    exists l2'. now split.
Qed.

Lemma worker_ok_post (st : WorkerLoop.State) (m : WorkerLoop.Out) (b : bool) (n p : nat) :
  worker_ok st ->
  (* the message posted, and the new transcriber and pending count *)
  (b = true <-> (WorkerLoop.transcriber st = true \/ m = WorkerLoop.OutReady)) ->
  (p <> 0%nat -> b = true) ->
  (forall t, m = WorkerLoop.OutTranscript t ->
             WorkerLoop.transcriber st = true /\ JS.trim t = t) ->
  (m = WorkerLoop.OutError -> WorkerLoop.transcriber st = false) ->
  worker_ok (WorkerLoop.mkState b n p (WorkerLoop.calls st) (WorkerLoop.outbox st ++ [m])).
Proof.
  intros [Hr [Hp [Hrf [Hne Htr]]]] Hb Hp' Ht He.
  unfold worker_ok. simpl. repeat split.
  - intros Hbt. apply in_or_app. apply Hb in Hbt. destruct Hbt as [H | ->].
    + left. now apply Hr.
    + right. now left.
  - intros Hin. apply Hb. apply in_app_or in Hin. destruct Hin as [H | [H | []]].
    + left. now apply Hr.
    + now right.
  - exact Hp'.
  - intros l1 t l2 Heq. apply app_snoc_split in Heq.
    destruct Heq as [[_ [<- Hm]] | [l2' [_ Heq]]].
    + apply Hr. now apply (Ht t).
    + now apply (Hrf l1 t l2').
  - intros l1 l2 Heq Hin. apply app_snoc_split in Heq.
    destruct Heq as [[-> _] | [l2' [-> Heq]]]; [exact Hin|].
    apply in_app_or in Hin. destruct Hin as [Hin | [Hin | []]].
    + now apply (Hne l1 l2').
    + specialize (He Hin).
      assert (WorkerLoop.transcriber st = true)
        by (apply Hr; rewrite Heq; apply in_or_app; right; now left).
      congruence.
  - intros t Hin. apply in_app_or in Hin. destruct Hin as [Hin | [Hin | []]].
    + now apply Htr.
    + now apply (Ht t).
Qed.

Lemma worker_ok_quiet (st : WorkerLoop.State) (n p : nat) (c : list (list Z)) :
  worker_ok st -> (p <> 0%nat -> WorkerLoop.transcriber st = true) ->
  worker_ok (WorkerLoop.mkState (WorkerLoop.transcriber st) n p c (WorkerLoop.outbox st)).
Proof.
  intros [Hr [Hp [Hrf [Hne Htr]]]] Hp'. unfold worker_ok. simpl. auto.
Qed.

Lemma worker_step_ok (st : WorkerLoop.State) (ev : WorkerLoop.Event) :
  worker_ok st -> worker_ok (WorkerLoop.step st ev).
Proof.
  intros Hok. pose proof Hok as [Hr [Hp [Hrf [Hne Htr]]]].
  assert (Hpost : forall m n p,
            (forall t, m <> WorkerLoop.OutTranscript t) -> m <> WorkerLoop.OutReady ->
            (m = WorkerLoop.OutError -> WorkerLoop.transcriber st = false) ->
            (p <> 0%nat -> WorkerLoop.transcriber st = true) ->
            worker_ok (WorkerLoop.mkState (WorkerLoop.transcriber st) n p
                         (WorkerLoop.calls st) (WorkerLoop.outbox st ++ [m]))).
  { intros m n p Hm1 Hm2 Hm3 Hp'. apply worker_ok_post; auto.
    - split; [auto | intros [H | H]; [exact H | contradiction]].
    - intros t Ht. exfalso. now apply (Hm1 t). }
  destruct ev as [|audioData| |info| | |text|]; simpl.
  - apply Hpost; try discriminate; auto.
  - unfold WorkerLoop.transcribe_start.
    destruct (WorkerLoop.transcriber st) eqn:E.
    + rewrite <- E. apply worker_ok_quiet; [exact Hok | auto].
    + unfold WorkerLoop.post. rewrite E. apply Hpost; try discriminate; auto.
  - exact Hok.
  - destruct (WorkerLoop.loading st); [exact Hok|].
    destruct info; [| |exact Hok]; unfold WorkerLoop.post;
      apply Hpost; try discriminate; auto.
  - destruct (WorkerLoop.loading st); [exact Hok|].
    unfold WorkerLoop.init_finish. apply worker_ok_post; auto; try discriminate.
    split; auto.
  - destruct (WorkerLoop.loading st); [exact Hok|].
    apply worker_ok_quiet; auto.
  - destruct (WorkerLoop.pending st) as [|p] eqn:E; [exact Hok|].
    unfold WorkerLoop.transcribe_finish.
    assert (Ht : WorkerLoop.transcriber st = true) by (apply Hp; lia).
    apply worker_ok_post; auto; try discriminate.
    + split; [auto | intros [H | H]; [exact H | discriminate]].
    + intros t H. injection H as <-. split; [exact Ht | apply trim_idem].
  - destruct (WorkerLoop.pending st) as [|p] eqn:E; [exact Hok|].
    apply worker_ok_quiet; [exact Hok|]. intros _. apply Hp. lia.
Qed.

(** Whatever messages the worker receives and however its awaited calls
    settle: every 'transcript' it posts comes after a 'ready', its text is
    trimmed, and after a 'ready' it never answers 'Model not loaded'. *)
Theorem worker_ready_before_transcript : forall evs : list WorkerLoop.Event,
  ready_first (WorkerLoop.outbox (WorkerLoop.run WorkerLoop.initial evs)) /\
  no_error_after_ready (WorkerLoop.outbox (WorkerLoop.run WorkerLoop.initial evs)) /\
  (forall t, In (WorkerLoop.OutTranscript t)
                (WorkerLoop.outbox (WorkerLoop.run WorkerLoop.initial evs)) ->
             JS.trim t = t).
Proof.
  intros evs.
  assert (H : forall st, worker_ok st -> worker_ok (WorkerLoop.run st evs)).
  { induction evs as [|ev evs IH]; intros st Hst; [exact Hst|].
    apply (IH (WorkerLoop.step st ev)). now apply worker_step_ok. }
  destruct (H WorkerLoop.initial) as [_ [_ [H1 [H2 H3]]]]; [|auto].
  unfold worker_ok. simpl. repeat split; try discriminate; try contradiction.
  - intros l1 t l2 Heq. destruct l1; discriminate.
  - intros l1 l2 Heq. destruct l1; discriminate.
Qed.

Lemma filter_snoc (A : Type) (f : A -> bool) (l : list A) (x : A) :
  length (filter f (l ++ [x])) = (length (filter f l) + (if f x then 1 else 0))%nat.
Proof.
  rewrite filter_app, length_app. simpl. now destruct (f x).
Qed.

Lemma worker_step_accounted (st : WorkerLoop.State) (ev : WorkerLoop.Event) :
  (accounted (WorkerLoop.step st ev) <=
   accounted st + (if is_transcribe ev then 1 else 0))%nat /\
  (is_engine_rejected ev = false ->
   accounted (WorkerLoop.step st ev) =
   (accounted st + (if is_transcribe ev then 1 else 0))%nat).
Proof.
  unfold accounted.
  destruct ev as [|audioData| |info| | |text|]; simpl;
    unfold WorkerLoop.transcribe_start, WorkerLoop.init_finish,
      WorkerLoop.transcribe_finish, WorkerLoop.post;
    try (destruct (WorkerLoop.transcriber st));
    try (destruct (WorkerLoop.loading st));
    try (destruct info);
    try (destruct (WorkerLoop.pending st) eqn:E);
    simpl; rewrite ?filter_snoc; simpl; split; try discriminate; lia.
Qed.

(** The worker answers no request twice: the 'transcript' and 'error'
    messages posted, together with the calls of the transcriber still
    pending, never outnumber the 'transcribe' messages received, and they
    are exactly as many when no call of the transcriber has rejected. *)
Theorem worker_answers_at_most_once : forall evs : list WorkerLoop.Event,
  (accounted (WorkerLoop.run WorkerLoop.initial evs) <=
   length (filter is_transcribe evs))%nat /\
  (existsb is_engine_rejected evs = false ->
   accounted (WorkerLoop.run WorkerLoop.initial evs) =
   length (filter is_transcribe evs)).
Proof.
  intros evs.
  assert (H : forall st,
            (accounted (WorkerLoop.run st evs) <=
             accounted st + length (filter is_transcribe evs))%nat /\
            (existsb is_engine_rejected evs = false ->
             accounted (WorkerLoop.run st evs) =
             (accounted st + length (filter is_transcribe evs))%nat)).
  { induction evs as [|ev evs IH]; intros st; [simpl; split; [lia | intros _; lia]|].
    change (WorkerLoop.run st (ev :: evs))
      with (WorkerLoop.run (WorkerLoop.step st ev) evs).
    destruct (IH (WorkerLoop.step st ev)) as [IH1 IH2].
    destruct (worker_step_accounted st ev) as [S1 S2].
    simpl filter. split.
    - destruct (is_transcribe ev); simpl length; lia.
    - intros Hrej. simpl in Hrej. apply orb_false_iff in Hrej. destruct Hrej as [R1 R2].
      rewrite (IH2 R2), (S2 R1). destruct (is_transcribe ev); simpl length; lia. }
  destruct (H WorkerLoop.initial) as [H1 H2]. split; [exact H1 | exact H2].
Qed.

(** ** The caches of the service worker *)

Lemma fold_delete (Cache : Type) (ks : list String.string)
      (caches : ServiceWorker.CacheStorage Cache) :
  fold_left (fun cs k => ServiceWorker.delete Cache k cs) ks caches =
  filter (fun e => negb (existsb (String.eqb (fst e)) ks)) caches.
Proof.
  revert caches; induction ks as [|k ks IH]; intros caches; simpl.
  - symmetry. apply forallb_filter_id. now apply forallb_forall.
  - rewrite IH. unfold ServiceWorker.delete.
    induction caches as [|e caches IHc]; [reflexivity|].
    simpl. destruct (String.eqb (fst e) k); simpl; [exact IHc|].
    destruct (existsb (String.eqb (fst e)) ks); simpl; [exact IHc | now rewrite IHc].
Qed.

(** Activation deletes every cache but the one named CACHE_NAME and leaves
    that one, with what it holds, as it was; activating once more changes
    nothing. *)
Theorem activate_keeps_current_cache :
  forall (Cache : Type) (caches : ServiceWorker.CacheStorage Cache),
  ServiceWorker.activate Cache caches =
    filter (fun e => String.eqb (fst e) ServiceWorker.CACHE_NAME) caches /\
  (forall k, In k (ServiceWorker.keys Cache (ServiceWorker.activate Cache caches)) ->
             k = ServiceWorker.CACHE_NAME) /\
  ServiceWorker.activate Cache (ServiceWorker.activate Cache caches) =
    ServiceWorker.activate Cache caches.
Proof.
  intros Cache.
  assert (H : forall caches : ServiceWorker.CacheStorage Cache,
            ServiceWorker.activate Cache caches =
            filter (fun e => String.eqb (fst e) ServiceWorker.CACHE_NAME) caches).
  { intros caches. unfold ServiceWorker.activate. rewrite fold_delete.
    apply filter_ext_in. intros e He.
    destruct (String.eqb (fst e) ServiceWorker.CACHE_NAME) eqn:E.
    - apply negb_true_iff. apply not_true_is_false. intros Hex.
      apply existsb_exists in Hex. destruct Hex as [k [Hk Hek]].
      apply filter_In in Hk. destruct Hk as [_ Hk].
      apply String.eqb_eq in E, Hek. rewrite <- Hek, E in Hk.
      now rewrite String.eqb_refl in Hk.
    - apply negb_false_iff. apply existsb_exists. exists (fst e). split.
      + apply filter_In. split; [|now rewrite E].
        unfold ServiceWorker.keys. now apply in_map.
      + apply String.eqb_refl. }
  intros caches. split; [apply H|]. split.
  - intros k Hk. rewrite H in Hk. unfold ServiceWorker.keys in Hk.
    apply in_map_iff in Hk. destruct Hk as [e [<- He]].
    apply filter_In in He. destruct He as [_ He]. now apply String.eqb_eq.
  - rewrite !H. induction caches as [|e caches IH]; [reflexivity|].
    simpl. destruct (String.eqb (fst e) ServiceWorker.CACHE_NAME) eqn:E; [|exact IH].
    simpl. now rewrite E, IH.
Qed.

Lemma escapeHtml_injective_witness :
  Html.replaceAll Html.AMP Html.amp_entity [60; 38; 97] = [60; 38; 97; 109; 112; 59; 97] /\
  [60; 38; 97] = [60; 38; 97].
Proof.
  split; [reflexivity|].
  exact (escapeHtml_injective [60; 38; 97] [60; 38; 97] eq_refl).
Defined.
